(** * mmd: the indentation-sensitive markup parser of [src/mmd/parse.py]
    and the renderer of [src/mmd/html.py]

    A shallow embedding of [parse] and of the classes it builds, and of the
    generators of [as_html], and the properties of the parser and of the
    renderer stated over it.

    Conventions of the embedding.
    - A Python [str] is a [list ascii]; a character stands for the code
      point of the same number, so the development covers texts whose code
      points are below 256.
    - The parser mutates one shared tree of objects through a stack of
      references.  Every [Document] object lives in a store (a list, the
      position being the identity of the object); [Section], [Aside] and
      [List] nodes hold the identity of their document, as does the stack.
    - Exceptions are values of [Error]; a computation is a function from
      the state to an [Outcome], which keeps the state on a raise, since the
      handler of [parse] reads it. *)

From Stdlib Require Import Ascii String NArith Lia.
From stdpp Require Import base option list sorting.

Local Open Scope string_scope.
Local Open Scope list_scope.
Local Open Scope nat_scope.

(** ** Characters and regular expressions *)

Abbreviation text := (list ascii).

Definition str (s : string) : text := list_ascii_of_string s.

Definition code (c : ascii) : nat := nat_of_ascii c.

(** White space: the class [\s] of a [str] pattern, which is also what
    [strip] removes. *)
Definition is_space (c : ascii) : bool :=
  let n := code c in
  ((9 <=? n) && (n <=? 13)) || ((28 <=? n) && (n <=? 32))
  || (n =? 133) || (n =? 160).

(** The characters at which [str.splitlines] breaks a line. *)
Definition is_linebreak (c : ascii) : bool :=
  let n := code c in
  ((10 <=? n) && (n <=? 13)) || ((28 <=? n) && (n <=? 30)) || (n =? 133).

Definition is_upper (c : ascii) : bool :=
  let n := code c in (65 <=? n) && (n <=? 90).

Definition is_digit (c : ascii) : bool :=
  let n := code c in (48 <=? n) && (n <=? 57).

Definition is_char (a c : ascii) : bool := Ascii.eqb a c.

Definition ch_hash : ascii := "#"%char.
Definition ch_dash : ascii := "-"%char.
Definition ch_dot : ascii := "."%char.
Definition ch_gt : ascii := ">"%char.
Definition ch_under : ascii := "_"%char.
Definition ch_star : ascii := "*"%char.
Definition ch_tilde : ascii := "~"%char.
Definition ch_tick : ascii := "`"%char.
Definition ch_quote : ascii := ascii_of_nat 34.
Definition ch_open : ascii := "["%char.
Definition ch_close : ascii := "]"%char.
Definition ch_cr : ascii := ascii_of_nat 13.
Definition ch_lf : ascii := ascii_of_nat 10.

(** Length of the longest prefix whose characters satisfy [p]. *)
Fixpoint span (p : ascii -> bool) (t : text) : nat :=
  match t with
  | c :: t' => if p c then S (span p t') else 0
  | [] => 0
  end.

Fixpoint starts_with (pre t : text) : bool :=
  match pre, t with
  | [], _ => true
  | a :: pre', c :: t' => is_char a c && starts_with pre' t'
  | _ :: _, [] => false
  end.

(** The test of lines 171 and 258: [t] is white space from start to end. *)
Definition is_blank (t : text) : bool := forallb is_space t.

(** The length of the group matched at line 185: the leading white space. *)
Definition leading_space (t : text) : nat := span is_space t.

(** [t.lstrip()] and [t.rstrip()] *)
Definition lstrip (t : text) : text := drop (leading_space t) t.
Definition rstrip (t : text) : text := rev (lstrip (rev t)).

(** The test of line 195: [t] starts with three dashes. *)
Definition is_title (t : text) : bool := starts_with (str "---") t.

(** The test of line 268: [t] starts with a character that is not white
    space. *)
Definition starts_nonspace (t : text) : bool :=
  match t with
  | c :: _ => negb (is_space c)
  | [] => false
  end.

(** The match of line 202 (hashes, white space, then optionally one white
    space character, the title and white space, up to the end), as the
    lengths of the first two groups and the third group.  The hashes are all the leading
    ones.  When only white space follows them it is the padding and there
    is no title; otherwise the optional group has to start with a white
    space character, which the greedy padding gives back, and the title runs
    to the end of the line.  (A line holds no line break, so [.] matches
    every character of it and [$] only its end.) *)
Definition match_heading (t : text) : option (nat * nat * option text) :=
  let level := span (is_char ch_hash) t in
  let after := drop level t in
  let m := leading_space after in
  let title := drop m after in
  match level, title, m with
  | 0, _, _ => None
  | _, [], _ => Some (level, m, None)
  | _, _ :: _, 0 => None
  | _, _ :: _, S pad => Some (level, pad, Some title)
  end.

Definition fence : text := str "```".

(** The match of line 215 (the fence, optionally any characters, white
    space, up to the end), as the group: the language is all that follows
    the fence, trailing white space included. *)
Definition match_block (t : text) : option (option text) :=
  if starts_with fence t then
    match drop 3 t with
    | [] => Some None
    | language => Some (Some language)
    end
  else None.

(** The test of line 224: the fence, then white space up to the end. *)
Definition is_block_end (t : text) : bool :=
  starts_with fence t && is_blank (drop 3 t).

Inductive Kind := PLAIN | EMPHASIS | FOOT.

(** The match of line 236 (optionally an underscore or a hash, then [>],
    then white space), as the length of the first group and [Aside.Kind]
    of the second. *)
Definition match_aside (t : text) : option (nat * Kind) :=
  match t with
  | c :: t' =>
      if is_char ch_gt c then Some (1 + leading_space t', PLAIN)
      else match t' with
           | c' :: t'' =>
               if is_char ch_gt c' then
                 if is_char ch_under c then Some (2 + leading_space t'', FOOT)
                 else if is_char ch_hash c then
                   Some (2 + leading_space t'', EMPHASIS)
                 else None
               else None
           | [] => None
           end
  | [] => None
  end.

(** One repetition of the group of line 247 (capital letters and a dot,
    or digits and a dot, or letters of IVXCM and a dot, or white space and
    a dash), as its length.
    The alternatives start with different characters, except the third,
    whose matches the first has already found. *)
Definition match_list_unit (t : text) : option nat :=
  let after p := drop (span p t) t in
  match t with
  | [] => None
  | c :: _ =>
      if is_upper c then
        match after is_upper with
        | d :: _ => if is_char ch_dot d then Some (S (span is_upper t)) else None
        | [] => None
        end
      else if is_digit c then
        match after is_digit with
        | d :: _ => if is_char ch_dot d then Some (S (span is_digit t)) else None
        | [] => None
        end
      else
        match after is_space with
        | d :: _ => if is_char ch_dash d then Some (S (span is_space t)) else None
        | [] => None
        end
  end.

(** The closing group of line 247 (white space, or the end), as its
    length. *)
Definition match_list_end (t : text) : option nat :=
  match leading_space t, t with
  | S n, _ => Some (S n)
  | 0, [] => Some 0
  | 0, _ :: _ => None
  end.

(** The rest of the repetition and the end: as many units as possible,
    giving units back until the end matches. *)
Fixpoint match_list_rest (fuel : nat) (t : text) : option nat :=
  match fuel with
  | 0 => match_list_end t
  | S fuel' =>
      match match_list_unit t with
      | Some k =>
          match match_list_rest fuel' (drop k t) with
          | Some n => Some (k + n)
          | None => match_list_end t
          end
      | None => match_list_end t
      end
  end.

(** The match of line 247, as the length of the marker. *)
Definition match_list (t : text) : option nat :=
  match match_list_unit t with
  | Some k =>
      match match_list_rest (length t) (drop k t) with
      | Some n => Some (k + n)
      | None => None
      end
  | None => None
  end.

(** [text.splitlines()] *)
Fixpoint splitlines_from (cur : text) (t : text) : list text :=
  match t with
  | [] => match cur with [] => [] | _ => [rev cur] end
  | c :: t' =>
      if is_linebreak c then
        rev cur ::
          match t' with
          | c' :: t'' =>
              if is_char ch_cr c && is_char ch_lf c' then splitlines_from [] t''
              else splitlines_from [] t'
          | [] => []
          end
      else splitlines_from (c :: cur) t'
  end.

Definition splitlines (t : text) : list text := splitlines_from [] t.

(** [list(enumerate(lines))], from [start]. *)
Fixpoint enumerate_from (start : nat) (lines : list text) : list (nat * text) :=
  match lines with
  | [] => []
  | l :: lines' => (start, l) :: enumerate_from (S start) lines'
  end.

Definition enumerate (lines : list text) : list (nat * text) :=
  enumerate_from 0 lines.

(** ** Inline modifiers and words *)

(** [Modifier] is a [Flag]: a set of bits, [auto()] numbering the members
    from bit 0. *)
Abbreviation Modifier := N.

Definition NONE : Modifier := 0.
Definition WITH_SPACES : Modifier := 1.
Definition ALIGN : Modifier := 2.
Definition BOLD : Modifier := 4.
Definition ITALIC : Modifier := 8.
Definition MONOSPACE : Modifier := 16.
Definition STRIKETHROUGH : Modifier := 32.
Definition SELECT : Modifier := 64.
Definition QUOTES : Modifier := 128.
Definition BLOCK : Modifier := 256.

(** The truth value of [m & flag]. *)
Definition has (flag m : Modifier) : bool := negb (N.land m flag =? 0)%N.

Record Word := { value : text; modifier : Modifier }.

(** A [SourceReference] is kept as its line number; the file is the one
    [parse] was called on. *)
Record SourceLine := { reference : nat; src_content : list Word }.

(** The character classes of the pattern of line 280. *)
Definition is_sigil (c : ascii) : bool :=
  is_char ch_under c || is_char ch_star c || is_char ch_tilde c
  || is_char ch_tick c.

Definition is_bracket (c : ascii) : bool :=
  is_char ch_quote c || is_char ch_open c || is_char ch_close c.

(** What [re.split] has read since the last piece it produced: a piece of
    plain text, or a run of white space (both reversed). *)
Inductive Pending := Plain (cur : text) | Space (run : text).

(** [re.split] with the pattern of line 280 (one or two of the sigils, or
    a quote or a bracket, or a run of white space, kept as pieces).  Two
    delimiters in a row have an empty piece between them. *)
Fixpoint re_split (p : Pending) (t : text) : list text :=
  match t with
  | [] =>
      match p with
      | Plain cur => [rev cur]
      | Space run => [rev run; []]
      end
  | c :: t' =>
      let out (l : list text) :=
        match p with
        | Plain cur => rev cur :: l
        | Space run => rev run :: [] :: l
        end in
      if is_sigil c then
        match t' with
        | c' :: t'' =>
            if is_sigil c' then out ([c; c'] :: re_split (Plain []) t'')
            else out ([c] :: re_split (Plain []) t')
        | [] => out ([c] :: re_split (Plain []) t')
        end
      else if is_bracket c then out ([c] :: re_split (Plain []) t')
      else if is_space c then
        match p with
        | Plain cur => rev cur :: re_split (Space [c]) t'
        | Space run => re_split (Space (c :: run)) t'
        end
      else
        match p with
        | Plain cur => re_split (Plain (c :: cur)) t'
        | Space run => rev run :: re_split (Plain [c]) t'
        end
  end.

(** The dictionary [mapping]. *)
Definition mapping (c : ascii) : option Modifier :=
  if is_char ch_star c then Some BOLD
  else if is_char ch_under c then Some ITALIC
  else if is_char ch_tilde c then Some STRIKETHROUGH
  else if is_char ch_tick c then Some MONOSPACE
  else if is_char ch_quote c then Some QUOTES
  else if is_char ch_open c then Some SELECT
  else if is_char ch_close c then Some SELECT
  else None.

(** The exceptions that [parse] raises.  [Stuck] is none of Python: the
    embedding answers with it where a reference denotes no object or where
    the bound of a recursion is reached, and [parse_not_stuck] shows that
    [parse] never does. *)
Inductive Error :=
| ValueError (msg : string) (ref : nat)
| AttributeError
| IndexError
| StopIteration
| Stuck.

Definition spaces_msg : string := "Spaces are not allowed here!".
Definition root_msg : string := "Invalid space on root document".
Definition indentation_msg : string := "Invalid indentation".

(** The loop of lines 283 to 313 over the pieces, with the words appended
    to the source line so far and the running modifier. *)
Fixpoint words_loop (ref : nat) (words : list text) (modifier : Modifier)
    (content : list Word) : Error + list Word :=
  match words with
  | [] => inr content
  | w :: words' =>
      match w with
      | [] => words_loop ref words' modifier content
      | c :: _ =>
          match mapping c with
          | Some applied =>
              let applied :=
                if (length w =? 2) || (applied =? QUOTES)%N
                then N.lor applied WITH_SPACES else applied in
              words_loop ref words' (N.lxor modifier applied) content
          | None =>
              if negb (modifier =? NONE)%N && negb (has WITH_SPACES modifier)
                 && is_space c
              then inl (ValueError spaces_msg ref)
              else
                let content := content ++ [{| value := w; modifier := modifier |}] in
                let modifier :=
                  if has ALIGN modifier then N.lxor modifier ALIGN
                  else modifier in
                words_loop ref words' modifier content
          end
      end
  end.

(** Lines 279 to 313: the source line of a text. *)
Definition tokenize (ref : nat) (t : text) : Error + SourceLine :=
  match words_loop ref (re_split (Plain []) (rstrip t)) NONE [] with
  | inl e => inl e
  | inr content => inr {| reference := ref; src_content := content |}
  end.

(** ** The document tree *)

(** The classes of the tree, over the type [R] of what stands for a nested
    [Document]: an identity in the store while the parser runs, the nested
    document itself in the tree that is returned. *)
Section Classes.
Context {R : Type}.

(** [Line | Aside | List | Block] *)
Inductive Item :=
| Line (content : list SourceLine)
| Aside (kind : Kind) (document : R)
| List_ (marker : text) (document : R)
| Block (language : option text) (content : list SourceLine).

(** [Paragraph | Section]; the title of a section is the third group of
    the heading pattern, a [str] or [None]. *)
Inductive Entry :=
| Paragraph (content : list Item)
| Section_ (level : nat) (title : option text) (document : R).

Record Document := {
  indent : nat;
  title : option Entry;
  content : list Entry;
}.

Definition set_content (d : Document) (c : list Entry) : Document :=
  {| indent := indent d; title := title d; content := c |}.
Definition set_title (d : Document) (t : option Entry) : Document :=
  {| indent := indent d; title := t; content := content d |}.
Definition set_indent (d : Document) (n : nat) : Document :=
  {| indent := n; title := title d; content := content d |}.

(** [Document(indent)]: no title and one empty paragraph. *)
Definition new_document (indent : nat) : Document :=
  {| indent := indent; title := None; content := [Paragraph []] |}.

(** [all(c.empty() for c in content)]: [all] stops at the first
    paragraph that is not empty; a [Section] has no method [empty]. *)
Fixpoint all_empty (content : list Entry) : Error + bool :=
  match content with
  | [] => inr true
  | Paragraph [] :: content' => all_empty content'
  | Paragraph (_ :: _) :: _ => inr false
  | Section_ _ _ _ :: _ => inl AttributeError
  end.
End Classes.

Arguments Item : clear implicits.
Arguments Entry : clear implicits.
Arguments Document : clear implicits.

(** The tree handed to the caller. *)
#[warnings="-register-all"]
Inductive Tree := Node (d : Document Tree).

(** ** The state of [parse] and its computations *)

Abbreviation Store := (list (Document nat)).

(** The objects [parse] works on: the documents, the stack of the open
    ones (the last is the current one), and the variable [lineno], which
    the handler of line 318 reads. *)
Record State := {
  heap : Store;
  stack : list nat;
  lineno : nat;
}.

Inductive Outcome (A : Type) :=
| Ok (a : A) (s : State)
| Raise (e : Error) (s : State).

Arguments Ok {A}.
Arguments Raise {A}.

Definition M (A : Type) : Type := State -> Outcome A.

Definition ret {A} (a : A) : M A := fun s => Ok a s.

Definition bind {A B} (m : M A) (k : A -> M B) : M B :=
  fun s => match m s with
           | Ok a s' => k a s'
           | Raise e s' => Raise e s'
           end.

Definition raise {A} (e : Error) : M A := fun s => Raise e s.

Notation "x <- m ;; k" := (bind m (fun x => k))
  (at level 100, m at next level, right associativity).
Notation "m ;;; k" := (bind m (fun _ => k))
  (at level 100, right associativity).

Definition lift {A} (r : Error + A) : M A :=
  match r with inl e => raise e | inr a => ret a end.

Definition get_heap : M Store := fun s => Ok (heap s) s.
Definition get_stack : M (list nat) := fun s => Ok (stack s) s.

Definition with_heap (s : State) (h : Store) : State :=
  {| heap := h; stack := stack s; lineno := lineno s |}.
Definition with_stack (s : State) (st : list nat) : State :=
  {| heap := heap s; stack := st; lineno := lineno s |}.
Definition with_lineno (s : State) (n : nat) : State :=
  {| heap := heap s; stack := stack s; lineno := n |}.

Definition set_heap (h : Store) : M unit := fun s => Ok tt (with_heap s h).
Definition set_stack (st : list nat) : M unit := fun s => Ok tt (with_stack s st).
Definition set_lineno (n : nat) : M unit := fun s => Ok tt (with_lineno s n).

(** The object a reference denotes. *)
Definition load (d : nat) : M (Document nat) :=
  h <- get_heap ;;
  match h !! d with
  | Some doc => ret doc
  | None => raise Stuck
  end.

Definition store (d : nat) (doc : Document nat) : M unit :=
  h <- get_heap ;; set_heap (<[d := doc]> h).

(** A new object. *)
Definition alloc (doc : Document nat) : M nat :=
  h <- get_heap ;; set_heap (h ++ [doc]) ;;; ret (length h).

(** *** The methods of the classes *)

(** [d.empty()] *)
Definition Document_empty (d : nat) : M bool :=
  doc <- load d ;; lift (all_empty (content doc)).

(** [d.append(block)] *)
Definition Document_append (d : nat) (block : Entry nat) : M unit :=
  doc <- load d ;;
  store d (set_content doc (content doc ++ [block])).

(** [d.pop()] *)
Definition Document_pop (d : nat) : M (Entry nat) :=
  doc <- load d ;;
  match last (content doc) with
  | None => raise IndexError
  | Some e =>
      store d (set_content doc (removelast (content doc))) ;;;
      ret e
  end.

(** The property [d.paragraph]: the last entry of the content, or, through
    a [Section], the paragraph of its document.  The paragraph is the last
    entry of the document whose identity is returned. *)
Fixpoint paragraph_in (fuel : nat) (h : Store) (d : nat) : Error + nat :=
  match fuel with
  | 0 => inl Stuck
  | S fuel' =>
      match h !! d with
      | None => inl Stuck
      | Some doc =>
          match last (content doc) with
          | None => inl IndexError
          | Some (Paragraph _) => inr d
          | Some (Section_ _ _ d') => paragraph_in fuel' h d'
          end
      end
  end.

Definition Document_paragraph (d : nat) : M nat :=
  h <- get_heap ;; lift (paragraph_in (length h) h d).

(** The paragraph that ends the content of [d]. *)
Definition Paragraph_content (d : nat) : M (list (Item nat)) :=
  doc <- load d ;;
  match last (content doc) with
  | Some (Paragraph c) => ret c
  | _ => raise Stuck
  end.

(** [p.empty()], for the paragraph that ends [d]. *)
Definition Paragraph_empty (d : nat) : M bool :=
  c <- Paragraph_content d ;; ret (length c =? 0).

Definition Paragraph_set (d : nat) (c : list (Item nat)) : M unit :=
  doc <- load d ;;
  store d (set_content doc (removelast (content doc) ++ [Paragraph c])).

(** [p.append(line)], for the paragraph that ends [d]. *)
Definition Paragraph_append (d : nat) (line : Item nat) : M unit :=
  c <- Paragraph_content d ;; Paragraph_set d (c ++ [line]).

(** The property [p.line] of the paragraph that ends [d]: [None], or the
    line, which is the last item of the paragraph that ends the document
    whose identity is returned. *)
Fixpoint line_in (fuel : nat) (h : Store) (d : nat) : Error + option nat :=
  match fuel with
  | 0 => inl Stuck
  | S fuel' =>
      match h !! d with
      | None => inl Stuck
      | Some doc =>
          match last (content doc) with
          | Some (Paragraph c) =>
              match last c with
              | None => inr None
              | Some (Line _) => inr (Some d)
              | Some (Block _ _) => inr None
              | Some (Aside _ d') | Some (List_ _ d') =>
                  match paragraph_in fuel' h d' with
                  | inl e => inl e
                  | inr d'' => line_in fuel' h d''
                  end
              end
          | _ => inl Stuck
          end
      end
  end.

Definition Paragraph_line (d : nat) : M (option nat) :=
  h <- get_heap ;; lift (line_in (length h) h d).

(** [l.append(src)], for the line that ends the paragraph that ends [d];
    on [None] there is no [append]. *)
Definition Line_append (l : option nat) (src : SourceLine) : M unit :=
  match l with
  | None => raise AttributeError
  | Some d =>
      c <- Paragraph_content d ;;
      match last c with
      | Some (Line srcs) =>
          Paragraph_set d (removelast c ++ [Line (srcs ++ [src])])
      | _ => raise Stuck
      end
  end.

(** ** [parse] *)

(** [stack[-1]], the local function [document()]. *)
Definition document : M nat :=
  st <- get_stack ;;
  match last st with
  | Some d => ret d
  | None => raise IndexError
  end.

(** [sum(d.indent for d in stack)], the local function [indent()]. *)
Fixpoint indent_sum (h : Store) (st : list nat) : Error + nat :=
  match st with
  | [] => inr 0
  | d :: st' =>
      match h !! d, indent_sum h st' with
      | Some doc, inr n => inr (indent doc + n)
      | None, _ => inl Stuck
      | _, inl e => inl e
      end
  end.

Definition total_indent : M nat :=
  h <- get_heap ;; st <- get_stack ;; lift (indent_sum h st).

(** [stack.pop()] and [stack.append(d)] *)
Definition stack_pop : M nat :=
  st <- get_stack ;;
  match last st with
  | Some d => set_stack (removelast st) ;;; ret d
  | None => raise IndexError
  end.

Definition stack_push (d : nat) : M unit :=
  st <- get_stack ;; set_stack (st ++ [d]).

Definition when (b : bool) (m : M unit) : M unit := if b then m else ret tt.

(** Lines 172 to 178: one turn of the loop that pops the documents whose
    indent the line does not match. *)
Definition pop_one : M unit :=
  previous <- stack_pop ;;
  e <- Document_empty previous ;;
  if e then ret tt
  else
    p <- Document_paragraph previous ;;
    pe <- Paragraph_empty p ;;
    when pe (d <- document ;; x <- Document_pop previous ;; Document_append d x).

(** Lines 171 to 178.  Every turn pops one document and the loop stops at
    one document, so the length of the stack bounds the turns. *)
Fixpoint pop_loop (fuel : nat) (t : text) : M unit :=
  match fuel with
  | 0 => raise Stuck
  | S fuel' =>
      st <- get_stack ;;
      if (1 <? length st) && (0 <? length t) then
        ind <- total_indent ;;
        if negb (is_blank (take ind t)) then pop_one ;;; pop_loop fuel' t
        else ret tt
      else ret tt
  end.

Definition pop_scopes (t : text) : M unit :=
  st <- get_stack ;; pop_loop (length st) t.

(** Lines 184 to 192: an empty document claims the white space that is
    left after its indent; the root document may not. *)
Definition claim_space (ref : nat) (t : text) : M text :=
  d <- document ;;
  e <- Document_empty d ;;
  if e then
    let remaining := leading_space t in
    st <- get_stack ;;
    if (0 <? remaining) && (length st =? 1) then raise (ValueError root_msg ref)
    else
      d <- document ;;
      doc <- load d ;;
      store d (set_indent doc (indent doc + remaining)) ;;;
      ret (drop remaining t)
  else ret t.

(** Lines 171 to 192: the scopes the line has left are popped, the indent
    of the open ones is removed, and an empty scope claims more. *)
Definition strip_indent (ref : nat) (t : text) : M text :=
  pop_scopes t ;;;
  ind <- total_indent ;;
  claim_space ref (drop ind t).

(** Lines 196 and 197. *)
Definition mark_title : M unit :=
  d <- document ;;
  x <- Document_pop d ;;
  d <- document ;;
  doc <- load d ;;
  store d (set_title doc (Some x)) ;;;
  d <- document ;;
  Document_append d (Paragraph []).

(** Lines 204 to 211. *)
Definition open_section (level pad : nat) (title : option text) : M unit :=
  d <- document ;;
  p <- Document_paragraph d ;;
  pe <- Paragraph_empty p ;;
  when pe (d <- document ;; _ <- Document_pop d ;; ret tt) ;;;
  virtual_document <- alloc (new_document (level + pad + 1)) ;;
  d <- document ;;
  Document_append d (Section_ level title virtual_document) ;;;
  stack_push virtual_document.

Abbreviation Lines := (list (nat * text)).

(** [next(lines_iterator)], which also binds [lineno]. *)
Definition next (it : Lines) : M (text * Lines) :=
  match it with
  | [] => raise StopIteration
  | (no, t) :: it' => set_lineno no ;;; ret (t, it')
  end.

(** Lines 221 to 229: the lines up to the closing fence, each one word, and
    what is left of the iterator. *)
Fixpoint block_lines (it : Lines) (content : list SourceLine)
    : M (list SourceLine * Lines) :=
  match it with
  | [] => raise StopIteration
  | (no, t) :: it' =>
      set_lineno no ;;;
      ind <- total_indent ;;
      if is_block_end (drop ind t) then ret (content, it')
      else
        block_lines it'
          (content ++ [{| reference := no;
                          src_content := [{| value := drop ind t;
                                             modifier := BLOCK |}] |}])
  end.

(** Lines 216 to 232. *)
Definition read_block (language : option text) (it : Lines) : M Lines :=
  r <- block_lines it [] ;;
  d <- document ;;
  p <- Document_paragraph d ;;
  Paragraph_append p (Block language (fst r)) ;;;
  ret (snd r).

(** Lines 236 to 244. *)
Definition open_aside (t : text) : M text :=
  match match_aside t with
  | Some (n, kind) =>
      virtual_document <- alloc (new_document n) ;;
      d <- document ;;
      p <- Document_paragraph d ;;
      Paragraph_append p (Aside kind virtual_document) ;;;
      stack_push virtual_document ;;;
      ret (drop n t)
  | None => ret t
  end.

(** Lines 247 to 255. *)
Definition open_list (t : text) : M text :=
  match match_list t with
  | Some n =>
      let marker := take n t in
      virtual_document <- alloc (new_document (length marker)) ;;
      d <- document ;;
      p <- Document_paragraph d ;;
      Paragraph_append p (List_ marker virtual_document) ;;;
      stack_push virtual_document ;;;
      ret (drop (length marker) t)
  | None => ret t
  end.

(** Lines 261 to 264. *)
Definition break_paragraph : M unit :=
  d <- document ;;
  p <- Document_paragraph d ;;
  pe <- Paragraph_empty p ;;
  if pe then ret tt
  else d <- document ;; Document_append d (Paragraph []).

(** Lines 268 to 276: a new line, or the continuation of the last one. *)
Definition open_line (ref : nat) (t : text) : M text :=
  d <- document ;;
  p <- Document_paragraph d ;;
  if starts_nonspace t then Paragraph_append p (Line []) ;;; ret t
  else
    pe <- Paragraph_empty p ;;
    if pe then raise (ValueError indentation_msg ref)
    else ret (lstrip t).

(** Lines 279 to 315. *)
Definition append_words (ref : nat) (t : text) : M unit :=
  src <- lift (tokenize ref t) ;;
  d <- document ;;
  p <- Document_paragraph d ;;
  l <- Paragraph_line p ;;
  Line_append l src.

(** Lines 236 to 315, what follows the three rules that end the turn. *)
Definition inline_rules (ref : nat) (t : text) : M unit :=
  t <- open_aside t ;;
  t <- open_list t ;;
  if is_blank t then break_paragraph
  else t <- open_line ref t ;; append_words ref t.

(** The body of the [try], lines 171 to 315, for the line [t] with the
    reference [ref]; [it] is what the iterator still holds, and what it
    holds afterwards is returned. *)
Definition process_line (ref : nat) (t : text) (it : Lines) : M Lines :=
  t <- strip_indent ref t ;;
  if is_title t then mark_title ;;; ret it
  else
    match match_heading t with
    | Some (level, pad, title) => open_section level pad title ;;; ret it
    | None =>
        match match_block t with
        | Some language => read_block language it
        | None => inline_rules ref t ;;; ret it
        end
    end.

(** Lines 317 to 319: the note reads a character of the line [lineno],
    which raises in its turn when the line is too short. *)
Definition handler (lines : list text) (e : Error) : M Lines :=
  ind <- total_indent ;;
  fun s =>
    match lines !! lineno s with
    | Some l => if ind <? length l then Raise e s else Raise IndexError s
    | None => Raise IndexError s
    end.

Definition try {A} (m : M A) (h : Error -> M A) : M A :=
  fun s => match m s with
           | Ok a s' => Ok a s'
           | Raise e s' => h e s'
           end.

(** The [for] loop of line 165.  A turn takes at least one line from the
    iterator, so a number of turns above the number of lines is never
    reached. *)
Fixpoint for_lines (fuel : nat) (lines : list text) (it : Lines) : M unit :=
  match it with
  | [] => ret tt
  | (no, t) :: it' =>
      match fuel with
      | 0 => raise Stuck
      | S fuel' =>
          set_lineno no ;;;
          it'' <- try (process_line (no + 1) t it') (handler lines) ;;
          for_lines fuel' lines it''
      end
  end.

Definition initial : State :=
  {| heap := [new_document 0]; stack := [0]; lineno := 0 |}.

(** The loop over the lines of the file, and [stack[0]]. *)
Definition parse_lines (lines : list text) : M nat :=
  for_lines (length lines) lines (enumerate lines) ;;;
  st <- get_stack ;;
  match st with
  | root :: _ => ret root
  | [] => raise IndexError
  end.

(** *** The tree that is returned *)

(** The tree below a reference: every identity is replaced by the document
    it denotes. *)
Definition reify_item (r : nat -> option Tree) (i : Item nat)
    : option (Item Tree) :=
  match i with
  | Line c => Some (Line c)
  | Aside k d => t ← r d; Some (Aside k t)
  | List_ m d => t ← r d; Some (List_ m t)
  | Block l c => Some (Block l c)
  end.

Definition reify_entry (r : nat -> option Tree) (e : Entry nat)
    : option (Entry Tree) :=
  match e with
  | Paragraph c => c' ← mapM (reify_item r) c; Some (Paragraph c')
  | Section_ l t d => t' ← r d; Some (Section_ l t t')
  end.

Fixpoint reify (fuel : nat) (h : Store) (d : nat) : option Tree :=
  match fuel with
  | 0 => None
  | S fuel' =>
      doc ← h !! d;
      c ← mapM (reify_entry (reify fuel' h)) (content doc);
      t ← match title doc with
          | Some e => Some <$> reify_entry (reify fuel' h) e
          | None => Some None
          end;
      Some (Node {| indent := indent doc; title := t; content := c |})
  end.

(** [parse(file)], for the text of the file. *)
Definition parse (file : text) : Error + Tree :=
  match parse_lines (splitlines file) initial with
  | Ok root s =>
      match reify (length (heap s)) (heap s) root with
      | Some t => inr t
      | None => inl Stuck
      end
  | Raise e _ => inl e
  end.

(** ** Inputs and trees of the scenarios *)

(** The text of a file whose lines are [ls], each ended by a line feed. *)
Definition file_of (ls : list string) : text :=
  concat (map (fun l => str l ++ [ch_lf]) ls).

Definition word (s : string) (m : Modifier) : Word :=
  {| value := str s; modifier := m |}.

Definition source (ref : nat) (ws : list Word) : SourceLine :=
  {| reference := ref; src_content := ws |}.

Definition doc {R} (i : nat) (c : list (Entry R)) : Document R :=
  {| indent := i; title := None; content := c |}.

(** ** The vocabulary of the properties *)

Definition quoted_text : text := [ch_quote] ++ str "quoted text here" ++ [ch_quote].

(** Every reference of the stack denotes a document, and the root is on
    the stack. *)
Definition stack_valid (s : State) : Prop :=
  stack s <> [] /\ Forall (fun d => is_Some (heap s !! d)) (stack s).

(** The source line of a line of a block, for the total indent [ind]. *)
Definition block_word (ind : nat) (l : nat * text) : SourceLine :=
  {| reference := fst l;
     src_content := [{| value := drop ind (snd l); modifier := BLOCK |}] |}.

(** The state after a paragraph break in the document [d], which was [x]:
    the content of [d] has one more entry at its end, an empty paragraph;
    the other documents, the stack and [lineno] are as in [s]. *)
Definition broken (s : State) (d : nat) (x : Document nat) : State :=
  {| heap := <[d := {| indent := indent x;
                       title := title x;
                       content := content x ++ [Paragraph []] |}]> (heap s);
     stack := stack s;
     lineno := lineno s |}.

(** What is left of a line is the line from some column on. *)
Definition rest_of (t : text) (t' : text) : Prop := exists j, t' = drop j t.

(** A marker that the list rule takes from the line [t]: the rule matches
    what is left of [t] from some column on, and the marker is what it
    matched. *)
Definition consumed (t : text) (m : text) : Prop :=
  exists j n, match_list (drop j t) = Some n /\ m = take n (drop j t).

Definition no_align (w : Word) : Prop := has ALIGN (modifier w) = false.

(** The words of a document satisfy [Pw], and its [List] nodes satisfy
    [Pl], a property of the marker and of the reference to the document. *)
Section Ok.
Context {R : Type} (Pw : Word -> Prop) (Pl : text -> R -> Prop).

Definition source_ok (src : SourceLine) : Prop :=
  Forall Pw (src_content src).

Definition item_ok (i : Item R) : Prop :=
  match i with
  | Line c => Forall source_ok c
  | Block _ c => Forall source_ok c
  | List_ m d => Pl m d
  | Aside _ _ => True
  end.

Definition entry_ok (e : Entry R) : Prop :=
  match e with
  | Paragraph c => Forall item_ok c
  | Section_ _ _ _ => True
  end.

Definition document_ok (x : Document R) : Prop :=
  Forall entry_ok (content x) /\
  match title x with Some e => entry_ok e | None => True end.
End Ok.

Definition store_ok (Pw : Word -> Prop) (Pl : text -> nat -> Prop)
    (h : Store) : Prop :=
  Forall (document_ok Pw Pl) h.

(** The documents of a tree: the root, and those of the sections, asides
    and lists of a document of the tree, in its content or in its title. *)
Definition refers {R} (x : Document R) (r : R) : Prop :=
  exists e, (e ∈ content x \/ title x = Some e) /\
    match e with
    | Section_ _ _ r' => r' = r
    | Paragraph c =>
        exists i, i ∈ c /\
          match i with
          | Aside _ r' | List_ _ r' => r' = r
          | _ => False
          end
    end.

Inductive in_tree : Document Tree -> Tree -> Prop :=
| in_tree_root x : in_tree x (Node x)
| in_tree_nested x y t : refers y t -> in_tree x t -> in_tree x (Node y).

(** The words of a document (those of its nested documents apart). *)
Definition item_words {R} (i : Item R) : list Word :=
  match i with
  | Line c | Block _ c => concat (map src_content c)
  | _ => []
  end.

Definition entry_words {R} (e : Entry R) : list Word :=
  match e with
  | Paragraph c => concat (map item_words c)
  | Section_ _ _ _ => []
  end.

Definition document_words {R} (x : Document R) : list Word :=
  concat (map entry_words (content x)) ++
  match title x with Some e => entry_words e | None => [] end.



(** A computation keeps the property [P] of the store, and what it
    returns satisfies [Q]. *)
Definition keeps {A} (P : Store -> Prop) (m : M A) (Q : A -> Prop) : Prop :=
  forall s a s', P (heap s) -> m s = Ok a s' -> P (heap s') /\ Q a.

Definition any {A} : A -> Prop := fun _ => True.











(** The references of a document denote documents that were created
    after it: they lie between the identity [lo] of the document and the
    bound [hi]. *)
Definition item_bounded (lo hi : nat) (i : Item nat) : Prop :=
  match i with
  | Aside _ d | List_ _ d => lo < d < hi
  | _ => True
  end.

Definition entry_bounded (lo hi : nat) (e : Entry nat) : Prop :=
  match e with
  | Paragraph c => Forall (item_bounded lo hi) c
  | Section_ _ _ d => lo < d < hi
  end.

Definition document_bounded (lo hi : nat) (x : Document nat) : Prop :=
  Forall (entry_bounded lo hi) (content x) /\
  match title x with Some e => entry_bounded lo hi e | None => True end.

Definition refs_below (B : nat) (h : Store) : Prop :=
  forall d x, h !! d = Some x -> document_bounded d B x.

(** The stack holds the root and the open scopes in the order of their
    creation. *)
Definition wf_stack (B : nat) (st : list nat) : Prop :=
  st <> [] /\ StronglySorted lt st /\ Forall (fun d => d < B) st.

(** The states of [parse]: the objects form a forest, in which a reference
    leads to a document created later, below the bound [B]. *)
Definition wf_at (B : nat) (s : State) : Prop :=
  B <= length (heap s) /\ refs_below B (heap s) /\ wf_stack B (stack s).

Definition wf (s : State) : Prop := wf_at (length (heap s)) s.

(** A computation ends in a state of [parse], with a result that
    satisfies [Q] or with an exception of Python. *)
Definition runs {A} (Q : A -> State -> Prop) (o : Outcome A) : Prop :=
  match o with
  | Ok a s' => wf s' /\ Q a s'
  | Raise e s' => e <> Stuck /\ wf s'
  end.

Definition ends_in_paragraph (h : Store) (p : nat) : Prop :=
  exists x c, h !! p = Some x /\ last (content x) = Some (Paragraph c).

Definition ends_in_line (h : Store) (p : nat) : Prop :=
  exists x c srcs, h !! p = Some x /\
    last (content x) = Some (Paragraph c) /\ last c = Some (Line srcs).

(** The store and the stack are as in [s]. *)
Definition same_shape (s s' : State) : Prop :=
  stack s' = stack s /\ length (heap s') = length (heap s).

(** *** The words of the tokenizer *)

(** The characters that the pattern of line 280 splits at as pieces of
    their own (the sigils, the quote and the brackets), which are the keys
    of [mapping]; and the characters of a piece of text. *)
Definition is_mark (c : ascii) : bool := is_sigil c || is_bracket c.

Definition is_plain (c : ascii) : bool := negb (is_mark c) && negb (is_space c).

(** The flags that a sigil toggles. *)
Definition inline_flags : Modifier :=
  N.lor WITH_SPACES (N.lor BOLD (N.lor ITALIC (N.lor MONOSPACE
    (N.lor STRIKETHROUGH (N.lor SELECT QUOTES))))).

(** A word as the tokenizer emits it: a run of white space, or a piece of
    text without white space and without sigils; it carries flags of the
    sigils only, and white space is emitted outside the spans or where
    [WITH_SPACES] is set. *)
Definition inline_word (w : Word) : Prop :=
  value w <> [] /\
  (is_blank (value w) = true \/ forallb is_plain (value w) = true) /\
  N.land (modifier w) inline_flags = modifier w /\
  (is_blank (value w) = true ->
     modifier w = NONE \/ has WITH_SPACES (modifier w) = true).

(** A word of a code block. *)
Definition block_only (w : Word) : Prop := modifier w = BLOCK.

(** A piece of [re.split]: empty, or a delimiter, or a run of white space,
    or a piece of text. *)
Definition piece_ok (w : text) : Prop :=
  forallb is_mark w = true \/ is_blank w = true \/ forallb is_plain w = true.

Definition pending_ok (p : Pending) : Prop :=
  match p with
  | Plain cur => forallb is_plain cur = true
  | Space run => is_blank run = true
  end.

Definition pending_text (p : Pending) : text :=
  match p with
  | Plain cur => rev cur
  | Space run => rev run
  end.

(** The pieces that become words: those that do not start with a key of
    [mapping]. *)
Definition is_word_piece (w : text) : bool :=
  match w with
  | [] => false
  | c :: _ => negb (is_mark c)
  end.

(** ** The renderer: [as_html] of [src/mmd/html.py]

    A generator is the list of the strings it yields, or the exception it
    raises; the messages that [d_as_html] prints to the standard output are
    not part of it.  [textwrap.dedent] is code of the standard library of
    Python and is taken as a parameter. *)

Module Html.

(** The exceptions of the renderer.  [Stuck] is none of Python: the
    embedding answers with it where a bound of a recursion is reached. *)
Inductive Error :=
| AssertionError
| AttributeError
| IndexError
| RuntimeError
| Stuck.

Definition Result (A : Type) : Type := Error + A.

Definition and_then {A B} (r : Result A) (k : A -> Result B) : Result B :=
  match r with
  | inl e => inl e
  | inr a => k a
  end.

(** The results of [f] on the elements of [l], in their order, up to the
    first exception. *)
Fixpoint for_each {A B} (f : A -> Result B) (l : list A) : Result (list B) :=
  match l with
  | [] => inr []
  | x :: l' =>
      and_then (f x) (fun y =>
      and_then (for_each f l') (fun ys => inr (y :: ys)))
  end.

Fixpoint text_eqb (a b : text) : bool :=
  match a, b with
  | [], [] => true
  | x :: a', y :: b' => Ascii.eqb x y && text_eqb a' b'
  | _, _ => false
  end.

(** [t.removesuffix(suffix)] *)
Definition removesuffix (suffix t : text) : text :=
  match suffix with
  | [] => t
  | _ :: _ =>
      if starts_with (rev suffix) (rev t)
      then take (length t - length suffix) t
      else t
  end.

(** [t.replace('\n', '<br>')] *)
Definition replace_lf (t : text) : text :=
  flat_map (fun c => if is_char ch_lf c then str "<br>" else [c]) t.

(** [as_tag] of lines 14 to 19, as what it appends to the output. *)
Definition as_tag (s modifier : Modifier) (start end_ : text) : text :=
  if has modifier s then start else end_.

(** [all_tags] of lines 21 to 33, as what it appends to the output; [w]
    is the modifier of the word that the loop variable [w] holds. *)
Definition all_tags (w diff : Modifier) : text :=
  (if has QUOTES diff then as_tag w QUOTES (str "<q>") (str "</q>") else [])
  ++ (if has BOLD diff
      then as_tag w BOLD (str "<strong>") (str "</strong>") else [])
  ++ (if has ITALIC diff then as_tag w ITALIC (str "<i>") (str "</i>") else [])
  ++ (if has MONOSPACE diff
      then as_tag w MONOSPACE (str "<code>") (str "</code>") else [])
  ++ (if has SELECT diff
      then as_tag w SELECT (str "<mark>") (str "</mark>") else [])
  ++ (if has STRIKETHROUGH diff
      then as_tag w STRIKETHROUGH (str "<s>") (str "</s>") else []).

(** The loop of lines 37 to 40 over the words of a source line: what it
    appends to the output, and [prev] after it. *)
Fixpoint words_html (prev : Modifier) (ws : list Word) : text * Modifier :=
  match ws with
  | [] => ([], prev)
  | w :: ws' =>
      let r := words_html (modifier w) ws' in
      (all_tags (modifier w) (N.lxor prev (modifier w)) ++ value w ++ fst r,
       snd r)
  end.

(** Lines 36 to 42, for one source line.  After the loop [w] is still the
    last word, whose modifier is [prev]; when the source line has no word,
    [prev] is [NONE] and [all_tags] does not read [w]. *)
Definition src_html (src : SourceLine) : text :=
  let r := words_html NONE (src_content src) in
  fst r ++ all_tags (snd r) (snd r) ++ str " ".

(** [l_as_html] of lines 11 to 44, for the content of the line. *)
Definition l_as_html (content : list SourceLine) : text :=
  rstrip (concat (map src_html content)) ++ str "<br>".

(** [re.search] of the patterns of lines 79, 82 and 85: one character of
    the class at least, a dot, and white space up to the end.  The dot is
    the last character that is not white space. *)
Definition search_dot (class : ascii -> bool) (marker : text) : bool :=
  match rev (rstrip marker) with
  | d :: c :: _ => is_char ch_dot d && class c
  | _ => false
  end.

Definition is_roman (c : ascii) : bool :=
  is_char "I"%char c || is_char "V"%char c || is_char "X"%char c
  || is_char "C"%char c || is_char "M"%char c.

(** [re.search] of the pattern of line 88: a dash, and white space up to
    the end. *)
Definition search_dash (marker : text) : bool :=
  match rev (rstrip marker) with
  | d :: _ => is_char ch_dash d
  | [] => false
  end.

Definition ol (type : string) : text * text :=
  (str "<ol type=" ++ [ch_quote] ++ str type ++ [ch_quote] ++ str ">",
   str "</ol>").

(** Lines 78 to 89: [start] and [end], or [None] for both. *)
Definition list_tags (marker : text) : option (text * text) :=
  let tags := None in
  let tags := if search_dot is_upper marker then Some (ol "A") else tags in
  let tags := if search_dot is_digit marker then Some (ol "1") else tags in
  let tags := if search_dot is_roman marker then Some (ol "I") else tags in
  let tags :=
    if search_dash marker then Some (str "<ul>", str "</ul>") else tags in
  tags.

Section Renderer.
Context (dedent : text -> text).

(** [block_as_html] of lines 69 to 75. *)
Definition block_as_html (content : list SourceLine) : Result (list text) :=
  and_then
    (for_each (fun x : SourceLine =>
                 match src_content x with
                 | w :: _ => inr (value w ++ [ch_lf])
                 | [] => inl IndexError
                 end) content)
    (fun lines =>
       inr [str "<pre><code>" ++ replace_lf (dedent (concat lines))
            ++ str "</code></pre>"]).

Section Nested.
(** [d_as_html], for the calls on the nested documents. *)
Context (d_as_html : Tree -> nat -> Result (list text)).

(** The loop of lines 57 and 58: the strings up to the first [<hr>], and
    what the generator still holds; it ends before with [StopIteration]. *)
Fixpoint until_hr (inner : list text) : option (list text * list text) :=
  match inner with
  | [] => None
  | tmp :: inner' =>
      if text_eqb tmp (str "<hr>") then Some ([], inner')
      else match until_hr inner' with
           | Some (head, rest) => Some (tmp :: head, rest)
           | None => None
           end
  end.

(** [aside_as_html] of lines 46 to 67.  A [next] on the generator that has
    ended raises [StopIteration] inside a generator, which is a
    [RuntimeError]. *)
Definition aside_as_html (document : Tree) (nesting : nat)
    : Result (list text) :=
  and_then (d_as_html document (nesting + 1)) (fun inner =>
  match inner with
  | [] => inl RuntimeError
  | tmp :: inner =>
      and_then
        (if text_eqb tmp (str "<hgroup>") then
           match until_hr inner with
           | Some (head, inner) =>
               inr (str "<header>" :: tmp :: head ++ [str "</header>"], inner)
           | None => inl RuntimeError
           end
         else inr ([], inner))
        (fun r =>
           match snd r with
           | [] => inl RuntimeError
           | tmp :: inner =>
               inr (str "<p>" :: str "<article>" :: fst r
                    ++ (if text_eqb tmp (str "<p>") then [] else [tmp])
                    ++ inner ++ [str "</article>"])
           end)
  end).

(** [list_as_html] of lines 77 to 99, for the markers and the documents
    of the items. *)
Definition list_as_html (ls : list (text * Tree)) (nesting : nat)
    : Result (list text) :=
  match ls with
  | [] => inl IndexError
  | (marker, _) :: _ =>
      match list_tags marker with
      | None => inl AssertionError
      | Some (start, end_) =>
          and_then
            (for_each (fun l : text * Tree =>
                         and_then (d_as_html (snd l) (nesting + 1))
                           (fun r => inr (str "<li>" :: r ++ [str "</li>"])))
                      ls)
            (fun items => inr (start :: concat items ++ [end_]))
      end
  end.

(** The [List] items that the loop of lines 117 and 118 takes from the
    iterator, and what the iterator still holds. *)
Fixpoint take_lists (content : list (nat * Item Tree))
    : list (text * Tree) * list (nat * Item Tree) :=
  match content with
  | (_, List_ marker document) :: content' =>
      let r := take_lists content' in ((marker, document) :: fst r, snd r)
  | _ => ([], content)
  end.

(** The loop of lines 104 to 122 over [enumerate(p.content)]; [len] is
    [len(p.content)].  A turn takes an item at least from the iterator,
    so the number of the items bounds the turns. *)
Fixpoint p_loop (fuel : nat) (len : nat) (content : list (nat * Item Tree))
    (nesting : nat) : Result (list text) :=
  match content with
  | [] => inr []
  | (i, x) :: content' =>
      match fuel with
      | 0 => inl Stuck
      | S fuel' =>
          match x with
          | Line c =>
              let l := l_as_html c in
              let l := if i + 1 =? len then removesuffix (str "<br>") l else l in
              and_then (p_loop fuel' len content' nesting)
                (fun r => inr (l :: r))
          | Aside _ document =>
              and_then (aside_as_html document nesting) (fun a =>
              and_then (p_loop fuel' len content' nesting)
                (fun r => inr (a ++ r)))
          | Block _ c =>
              and_then (block_as_html c) (fun b =>
              and_then (p_loop fuel' len content' nesting)
                (fun r => inr (b ++ r)))
          | List_ marker document =>
              let items := take_lists content' in
              and_then (list_as_html ((marker, document) :: fst items) nesting)
                (fun a =>
              and_then (p_loop fuel' len (snd items) nesting)
                (fun r => inr (a ++ r)))
          end
      end
  end.

(** [p_as_html] of lines 101 to 123, for the content of the paragraph. *)
Definition p_as_html (content : list (Item Tree)) (nesting : nat)
    : Result (list text) :=
  and_then
    (p_loop (length content) (length content)
       (zip (seq 0 (length content)) content) nesting)
    (fun r => inr (str "<p>" :: r ++ [str "</p>"])).

(** [s_as_html] of lines 125 to 134; the title is formatted as [str]
    does, also when it is [None]. *)
Definition s_as_html (level : nat) (title : option text) (document : Tree)
    (nesting : nat) : Result (list text) :=
  let title := match title with Some t => t | None => str "None" end in
  let heading :=
    match min (max 1 level) 4 with
    | 1 => str "<h5>" ++ title ++ str "</h5>"
    | 2 => str "<h4>" ++ title ++ str "</h4>"
    | 3 => str "<h3>" ++ title ++ str "</h3>"
    | _ => str "<h2>" ++ title ++ str "</h2>"
    end in
  and_then (d_as_html document (nesting + 1)) (fun inner =>
  inr (str "<section>" :: heading :: inner ++ [str "</section>"])).

(** The attribute [content] of an item, which lines 147 reads whatever
    the item is. *)
Definition item_content (x : Item Tree) : Result (list SourceLine) :=
  match x with
  | Line c | Block _ c => inr c
  | Aside _ _ | List_ _ _ => inl AttributeError
  end.

(** Lines 138 to 157: the title of a document. *)
Definition title_as_html (title : option (Entry Tree)) (nesting : nat)
    : Result (list text) :=
  match title with
  | None => inr []
  | Some (Paragraph c) =>
      and_then
        match c with
        | [] => inr []
        | x :: _ =>
            and_then (item_content x) (fun l =>
            let tags :=
              match min nesting 2 with
              | 0 => (str "<h2>", str "</h2>")
              | 1 => (str "<h4>", str "</h4>")
              | _ => (str "<h5>", str "</h5>")
              end in
            inr [fst tags ++ removesuffix (str "<br>") (l_as_html l)
                 ++ snd tags])
        end
        (fun first =>
           inr (str "<hgroup>" :: first ++ [str "<p>"]
                ++ flat_map (fun x : Item Tree =>
                               match x with
                               | Line l => [l_as_html l]
                               | _ => []
                               end) (tail c)
                ++ [str "</hgroup>"; str "<hr>"]))
  | Some (Section_ _ _ _) => inr [str "<hgroup>"; str "</hgroup>"; str "<hr>"]
  end.

(** Lines 159 to 163: the entries of a document. *)
Definition entry_as_html (x : Entry Tree) (nesting : nat)
    : Result (list text) :=
  match x with
  | Section_ level title document => s_as_html level title document nesting
  | Paragraph c => p_as_html c nesting
  end.

End Nested.

(** [d_as_html] of lines 136 to 165.  The nesting of the documents bounds
    the recursion. *)
Fixpoint d_as_html (fuel : nat) (d : Tree) (nesting : nat)
    : Result (list text) :=
  match fuel with
  | 0 => inl Stuck
  | S fuel' =>
      match d with
      | Node doc =>
          and_then (title_as_html (title doc) nesting) (fun head =>
          and_then
            (for_each (fun x => entry_as_html (d_as_html fuel') x nesting)
                      (content doc))
            (fun body => inr (head ++ concat body)))
      end
  end.

End Renderer.

(** The nesting of the documents of a tree. *)
Definition item_depth (depth : Tree -> nat) (i : Item Tree) : nat :=
  match i with
  | Aside _ t | List_ _ t => depth t
  | _ => 0
  end.

Definition entry_depth (depth : Tree -> nat) (e : Entry Tree) : nat :=
  match e with
  | Paragraph c => foldr (fun i n => max (item_depth depth i) n) 0 c
  | Section_ _ _ t => depth t
  end.

Fixpoint depth (t : Tree) : nat :=
  match t with
  | Node d =>
      S (max (match title d with Some e => entry_depth depth e | None => 0 end)
             (foldr (fun e n => max (entry_depth depth e) n) 0 (content d)))
  end.

(** The strings that [as_html] joins: [d_as_html(root, 0)]. *)
Definition render (dedent : text -> text) (root : Tree) : Result (list text) :=
  d_as_html dedent (depth root) root 0.

End Html.

(** *** The markers of the lists *)

(** A text ends as a unit of a marker does: with a capital letter or a
    digit and a dot, or with a dash. *)
Definition ends_unit (u : text) : Prop :=
  (exists a c, u = a ++ [c; ch_dot] /\ (is_upper c = true \/ is_digit c = true))
  \/ exists a, u = a ++ [ch_dash].

(** A marker ends with a unit and white space. *)
Definition marker_shape (m : text) : Prop :=
  exists p u ws, m = p ++ u ++ ws /\ ends_unit u /\ is_blank ws = true.

(** *** The shape of the documents *)

(** A document of the store has a content that is not empty; the root has
    the indent 0 and every other document a positive one. *)
Definition document_shaped (d : nat) (x : Document nat) : Prop :=
  content x <> [] /\
  match d with
  | 0 => indent x = 0
  | S _ => 0 < indent x
  end.

(** The documents other than [d] have their shape. *)
Definition store_shaped_but (d : nat) (h : Store) : Prop :=
  h <> [] /\ forall d' x, h !! d' = Some x -> d' <> d -> document_shaped d' x.

Definition store_shaped (h : Store) : Prop :=
  h <> [] /\ forall d x, h !! d = Some x -> document_shaped d x.

(** The root is the first document of the stack, and there only. *)
Definition based (st : list nat) : Prop :=
  exists st', st = 0 :: st' /\ Forall (fun d => d <> 0) st'.

Definition shaped (s : State) : Prop :=
  based (stack s) /\ store_shaped (heap s).

(** *** What the nodes are made of *)

(** The nodes of a document are made as [Psrc] (the source lines of the
    lines), [Pblk] (the source lines of the blocks), [Pm] (the markers of
    the list items) and [Psec] (the level and the title of the sections)
    say, and a document has a title only when [Pt] holds. *)
Section Made.
Context {R : Type}.
Context (Psrc Pblk : SourceLine -> Prop) (Pm : text -> Prop)
        (Psec : nat -> option text -> Prop) (Pt : Prop).

Definition item_made (i : Item R) : Prop :=
  match i with
  | Line c => Forall Psrc c
  | Block _ c => Forall Pblk c
  | List_ m _ => Pm m
  | Aside _ _ => True
  end.

Definition entry_made (e : Entry R) : Prop :=
  match e with
  | Paragraph c => Forall item_made c
  | Section_ level title _ => Psec level title
  end.

Definition document_made (x : Document R) : Prop :=
  Forall entry_made (content x) /\
  match title x with Some e => Pt /\ entry_made e | None => True end.
End Made.

(** What the rules make of the lines of a file: a source line of a line
    is the tokenizer's, for what is left of a line of the file and with the
    number of that line, counted from 1; a source line of a block is the
    one word of a line of the file, with the number of that line, counted
    from 0; a marker is what the list rule took from a line; the level and
    the title of a section are what the heading rule matched on a line;
    a title is marked by a line on which the title rule matched. *)
Definition tokenized (lines : list text) (src : SourceLine) : Prop :=
  exists no l t, lines !! no = Some l /\ rest_of l t /\
                 tokenize (no + 1) t = inr src.

Definition block_line (lines : list text) (src : SourceLine) : Prop :=
  exists no l ind, lines !! no = Some l /\ src = block_word ind (no, l).

Definition marked (lines : list text) (m : text) : Prop :=
  exists l, l ∈ lines /\ consumed l m.

Definition headed (lines : list text) (level : nat) (title : option text)
    : Prop :=
  exists l t pad, l ∈ lines /\ rest_of l t /\
                  match_heading t = Some (level, pad, title).

Definition titled (lines : list text) : Prop :=
  exists l t, l ∈ lines /\ rest_of l t /\ is_title t = true.

(** The title rule matches on the line from some column on. *)
Definition has_title_line (l : text) : bool :=
  existsb (fun j => is_title (drop j l)) (seq 0 (length l)).

(** The lines that an iterator over [lines] holds. *)
Definition lines_of (lines : list text) (it : Lines) : Prop :=
  Forall (fun l => lines !! fst l = Some (snd l)) it.

(** *** The exceptions of [parse] *)

(** Every exception that the computation raises is one of [E]. *)
Definition raises {A} (E : Error -> Prop) (m : M A) : Prop :=
  forall s e s', m s = Raise e s' -> E e.

Definition parse_msg (msg : string) : Prop :=
  msg = spaces_msg \/ msg = root_msg \/ msg = indentation_msg.

(** What an exception says of the line [t] that raised it, with the
    reference [ref]: a [ValueError] has one of the three messages and names
    the line, and a [StopIteration] comes from [next] after a fence that
    opens a block, matched on what is left of the line from some column
    on. *)
Definition line_error (ref : nat) (t : text) (e : Error) : Prop :=
  match e with
  | ValueError msg r => r = ref /\ parse_msg msg
  | StopIteration => exists t', rest_of t t' /\ is_Some (match_block t')
  | AttributeError | IndexError | Stuck => True
  end.

(** The same of the lines of a file; the bound of the embedding is no
    exception of [parse]. *)
Definition file_error (lines : list text) (e : Error) : Prop :=
  match e with
  | ValueError msg ref => is_Some (lines !! (ref - 1)) /\ 1 <= ref /\ parse_msg msg
  | StopIteration =>
      exists l t', l ∈ lines /\ rest_of l t' /\ is_Some (match_block t')
  | AttributeError | IndexError => True
  | Stuck => False
  end.

(** *** What the renderer needs of a tree *)

(** The strings of a document as [aside_as_html] reads them: a first and
    a second one, and, after a first [<hgroup>], a [<hr>] and one more. *)
Definition well_started (l : list text) : Prop :=
  match l with
  | [] => False
  | a :: rest =>
      if Html.text_eqb a (str "<hgroup>")
      then exists head rest', Html.until_hr rest = Some (head, rest') /\ rest' <> []
      else rest <> []
  end.

(** What [p_as_html] needs of an item, when the exceptions of the nested
    documents are as [Q] says: the strings of the document of an aside
    start well, the marker of a list item has a style, and every source
    line of a block has a word. *)
Definition item_safe (Q : Html.Error -> Prop)
    (rec : Tree -> nat -> Html.Result (list text))
    (nesting : nat) (i : Item Tree) : Prop :=
  match i with
  | Aside _ t =>
      (forall e, rec t (nesting + 1) = inl e -> Q e) /\
      (forall l, rec t (nesting + 1) = inr l -> well_started l)
  | List_ m t =>
      is_Some (Html.list_tags m) /\
      (forall e, rec t (nesting + 1) = inl e -> Q e)
  | Block _ c => Forall (fun src => src_content src <> []) c
  | Line _ => True
  end.

(** No document of the tree has an empty content, every marker of a list
    item of a content has a style, and every source line of a block of a
    content has a word. *)
Definition tree_ok (t : Tree) : Prop :=
  forall x, in_tree x t ->
    content x <> [] /\
    forall c, Paragraph c ∈ content x ->
      (forall m r, List_ m r ∈ c -> is_Some (Html.list_tags m)) /\
      (forall l b, Block l b ∈ c -> Forall (fun src => src_content src <> []) b).

(** The title of the document starts with an aside or a list item: these
    have no [content] for [l_as_html] to read. *)
Definition title_unreadable (x : Document Tree) : Prop :=
  exists i c, title x = Some (Paragraph (i :: c)) /\
              match i with
              | Aside _ _ | List_ _ _ => True
              | Line _ | Block _ _ => False
              end.

(** *** Lines of plain text *)

Definition no_match {A} (o : option A) : bool :=
  match o with
  | None => true
  | Some _ => false
  end.

(** A line of plain text: it starts with a character that is not white
    space, none of the rules for a title, a heading, a block, an aside and
    a list item matches it, and it holds no sigil, quote or bracket. *)
Definition plain_line (l : text) : bool :=
  starts_nonspace l && negb (is_title l) && no_match (match_heading l)
  && no_match (match_block l) && no_match (match_aside l)
  && no_match (match_list l) && forallb (fun c => negb (is_mark c)) l.

(** The state of [parse] in a file of such lines: the root document alone,
    with one paragraph. *)
Definition plain_state (c : list (Item nat)) (no : nat) : State :=
  {| heap := [doc 0 [Paragraph c]]; stack := [0]; lineno := no |}.

(** The strings of a paragraph of such lines: each line without its
    trailing white space, and a break after each but the last. *)
Fixpoint plain_html (ls : list text) : list text :=
  match ls with
  | [] => []
  | [l] => [rstrip l]
  | l :: ls' => (rstrip l ++ str "<br>") :: plain_html ls'
  end.

(** *** A heading on the first line *)

(** The state of [parse] after a heading on the first line: the root
    document holds the section alone, and the document of the section is
    open. *)
Definition headed_state (level pad : nat) (title : option text) (no : nat)
    : State :=
  {| heap := [doc 0 [Section_ level title 1]; new_document (level + pad + 1)];
     stack := [0; 1];
     lineno := no |}.

(** *** Edge cases *)

(** The number of the last line of an iterator, or [d] when it is empty:
    the value of [lineno] after the iterator has been read to its end. *)
Definition last_no (it : Lines) (d : nat) : nat :=
  match last it with
  | Some (no, _) => no
  | None => d
  end.

(** * Properties *)

(** ** Scenario A: a heading and its body *)



(** ** The inline tokenizer: quotes, brackets and white space *)

Lemma space_not_mapped c : is_space c = true -> mapping c = None.
Proof.
  destruct c as [[] [] [] [] [] [] [] []]; vm_compute; congruence.
Qed.

(** C2, as the claim states it, fails for the brackets: white space inside
    a span opened by a bracket raises. *)
Lemma C2_counterexample :
  tokenize 1 (str "[a b]") = inl (ValueError spaces_msg 1) /\
  parse (file_of ["[a b]"]) = inl (ValueError spaces_msg 1).
Proof. split; vm_compute; reflexivity. Qed.

Lemma has_spaces_bit m : has WITH_SPACES m = N.testbit m 0.
Proof.
  unfold has, WITH_SPACES. change 1%N with (N.ones 1).
  rewrite N.land_ones. change (2 ^ 1)%N with 2%N. rewrite <- N.bit0_mod.
  destruct (N.testbit m 0); reflexivity.
Qed.

(** Toggling flags toggles the flag of the spaces when they hold it. *)
Lemma has_spaces_lxor m a :
  has WITH_SPACES (N.lxor m a) =
    xorb (has WITH_SPACES m) (has WITH_SPACES a).
Proof. rewrite !has_spaces_bit. apply N.lxor_spec. Qed.

(** The entries of the dictionary. *)
Lemma mapping_cases d flag :
  mapping d = Some flag ->
  (d = ch_star /\ flag = BOLD) \/ (d = ch_under /\ flag = ITALIC) \/
  (d = ch_tilde /\ flag = STRIKETHROUGH) \/ (d = ch_tick /\ flag = MONOSPACE) \/
  (d = ch_quote /\ flag = QUOTES) \/ (d = ch_open /\ flag = SELECT) \/
  (d = ch_close /\ flag = SELECT).
Proof.
  destruct d as [[] [] [] [] [] [] [] []]; vm_compute; intros [= <-];
    repeat (first [left; split; reflexivity | right]); split; reflexivity.
Qed.

(** A delimiter of one character other than the quote toggles its flag
    alone, and white space after it, read in the state [NONE], raises. *)
Lemma single_sigil ref c w ws m acc d flag :
  is_space c = true -> mapping d = Some flag -> d <> ch_quote ->
  words_loop ref ([d] :: ws) m acc = words_loop ref ws (N.lxor m flag) acc /\
  has WITH_SPACES (N.lxor m flag) = has WITH_SPACES m /\
  words_loop ref ([d] :: (c :: w) :: ws) NONE acc =
    inl (ValueError spaces_msg ref).
Proof.
  intros Hc Hd Hq.
  assert (Hf : (flag =? QUOTES)%N = false /\ has WITH_SPACES flag = false /\
               negb (N.lxor NONE flag =? NONE)%N
               && negb (has WITH_SPACES (N.lxor NONE flag)) = true).
  { destruct (mapping_cases d flag Hd)
      as [[_ ->]|[[_ ->]|[[_ ->]|[[_ ->]|[[-> _]|[[_ ->]|[_ ->]]]]]]];
      try congruence; repeat split; reflexivity. }
  destruct Hf as (Hf1 & Hf2 & Hf3).
  split; [|split].
  - cbn [words_loop]. rewrite Hd. cbn [length Nat.eqb orb]. rewrite Hf1.
    reflexivity.
  - rewrite has_spaces_lxor, Hf2. apply xorb_false_r.
  - cbn [words_loop]. rewrite Hd. cbn [length Nat.eqb orb]. rewrite Hf1.
    rewrite (space_not_mapped c Hc), Hf3, Hc. reflexivity.
Qed.

(** A delimiter of two characters toggles the flag of its first character
    and [WITH_SPACES], and white space after it, read in the state [NONE],
    becomes a word. *)
Lemma doubled_sigil ref c w ws m acc d d' flag :
  is_space c = true -> mapping d = Some flag ->
  words_loop ref ([d; d'] :: ws) m acc =
    words_loop ref ws (N.lxor m (N.lor flag WITH_SPACES)) acc /\
  has WITH_SPACES (N.lxor m (N.lor flag WITH_SPACES)) =
    negb (has WITH_SPACES m) /\
  words_loop ref ([d; d'] :: (c :: w) :: ws) NONE acc =
    words_loop ref ws (N.lor flag WITH_SPACES)
      (acc ++ [{| value := c :: w; modifier := N.lor flag WITH_SPACES |}]).
Proof.
  intros Hc Hd.
  assert (Hf : N.lxor NONE (N.lor flag WITH_SPACES) = N.lor flag WITH_SPACES /\
               negb (N.lor flag WITH_SPACES =? NONE)%N
               && negb (has WITH_SPACES (N.lor flag WITH_SPACES)) = false /\
               has ALIGN (N.lor flag WITH_SPACES) = false /\
               has WITH_SPACES (N.lor flag WITH_SPACES) = true).
  { destruct (mapping_cases d flag Hd)
      as [[_ ->]|[[_ ->]|[[_ ->]|[[_ ->]|[[_ ->]|[[_ ->]|[_ ->]]]]]]];
      repeat split; reflexivity. }
  destruct Hf as (Hf1 & Hf2 & Hf3 & Hf4).
  split; [|split].
  - cbn [words_loop]. rewrite Hd. reflexivity.
  - rewrite has_spaces_lxor, Hf4. apply xorb_true_r.
  - cbn [words_loop]. rewrite Hd. cbn [length Nat.eqb orb]. rewrite Hf1.
    rewrite (space_not_mapped c Hc), Hf2. cbn [andb]. rewrite Hf3.
    reflexivity.
Qed.

(** C2 (amended): a delimiter toggles the flag of the spaces together with
    its own flag only when it is the quote or has two characters; a single
    sigil toggles its own flag alone, and either bracket toggles [SELECT]
    alone.  So a white space piece that follows a quote or a doubled sigil
    read in the state [NONE] becomes a word, one that follows a single
    sigil or a bracket read in the state [NONE] raises
    [Spaces are not allowed here!], and the quoted text of scenario E is
    tokenized without error, every word carrying [QUOTES] and
    [WITH_SPACES]. *)
Theorem C2_quote_allows_spaces ref c w ws m acc :
  is_space c = true ->
  words_loop ref ([ch_quote] :: ws) m acc =
    words_loop ref ws (N.lxor m (N.lor QUOTES WITH_SPACES)) acc /\
  words_loop ref ([ch_open] :: ws) m acc =
    words_loop ref ws (N.lxor m SELECT) acc /\
  words_loop ref ([ch_close] :: ws) m acc =
    words_loop ref ws (N.lxor m SELECT) acc /\
  words_loop ref ([ch_quote] :: (c :: w) :: ws) NONE acc =
    words_loop ref ws (N.lor QUOTES WITH_SPACES)
      (acc ++ [{| value := c :: w; modifier := N.lor QUOTES WITH_SPACES |}]) /\
  words_loop ref ([ch_open] :: (c :: w) :: ws) NONE acc =
    inl (ValueError spaces_msg ref) /\
  tokenize ref quoted_text =
    inr (source ref [word "quoted" 129; word " " 129; word "text" 129;
                     word " " 129; word "here" 129]) /\
  (forall d,
     is_Some (mapping d) <->
     d ∈ [ch_star; ch_under; ch_tilde; ch_tick; ch_quote; ch_open; ch_close]) /\
  has WITH_SPACES (N.lxor m (N.lor QUOTES WITH_SPACES)) =
    negb (has WITH_SPACES m) /\
  (forall d flag,
     mapping d = Some flag -> d <> ch_quote ->
     words_loop ref ([d] :: ws) m acc = words_loop ref ws (N.lxor m flag) acc /\
     has WITH_SPACES (N.lxor m flag) = has WITH_SPACES m /\
     words_loop ref ([d] :: (c :: w) :: ws) NONE acc =
       inl (ValueError spaces_msg ref)) /\
  (forall d d' flag,
     mapping d = Some flag ->
     words_loop ref ([d; d'] :: ws) m acc =
       words_loop ref ws (N.lxor m (N.lor flag WITH_SPACES)) acc /\
     has WITH_SPACES (N.lxor m (N.lor flag WITH_SPACES)) =
       negb (has WITH_SPACES m) /\
     words_loop ref ([d; d'] :: (c :: w) :: ws) NONE acc =
       words_loop ref ws (N.lor flag WITH_SPACES)
         (acc ++ [{| value := c :: w;
                     modifier := N.lor flag WITH_SPACES |}])) /\
  tokenize ref (str "**a b**") =
    inr (source ref [word "a" 5; word " " 5; word "b" 5]) /\
  tokenize ref (str "*a b*") = inl (ValueError spaces_msg ref).
Proof.
  intros Hc. repeat split; try reflexivity.
  - cbn [words_loop]. change (mapping ch_quote) with (Some QUOTES).
    cbn [length Nat.eqb orb N.eqb]. change (N.lxor NONE _) with 129%N.
    rewrite (space_not_mapped c Hc), Hc. reflexivity.
  - cbn [words_loop]. change (mapping ch_open) with (Some SELECT).
    cbn [length Nat.eqb orb]. change (N.lxor NONE _) with SELECT.
    rewrite (space_not_mapped c Hc), Hc. reflexivity.
  - intros [flag Hd].
    destruct (mapping_cases d flag Hd)
      as [[-> _]|[[-> _]|[[-> _]|[[-> _]|[[-> _]|[[-> _]|[-> _]]]]]]];
      repeat constructor.
  - intros Hd. rewrite !elem_of_cons, elem_of_nil in Hd.
    destruct Hd as [->|[->|[->|[->|[->|[->|[->|[]]]]]]]]; eexists; reflexivity.
  - rewrite has_spaces_lxor. apply xorb_true_r.
  - eapply single_sigil; eassumption.
  - eapply single_sigil; eassumption.
  - eapply single_sigil; eassumption.
  - eapply doubled_sigil; eassumption.
  - eapply doubled_sigil; eassumption.
  - eapply doubled_sigil; eassumption.
Qed.

Lemma C2_quote_allows_spaces_witness :
  is_space " "%char = true /\
  words_loop 1 [[ch_quote]; [" "%char]; [ch_quote]] NONE [] =
    inr [{| value := [" "%char]; modifier := 129 |}].
Proof.
  split; [reflexivity|].
  destruct (C2_quote_allows_spaces 1 " "%char [] [[ch_quote]] NONE []
              eq_refl) as (_ & _ & _ & H & _).
  rewrite H. reflexivity.
Defined.

(** ** Headings *)

(** C3, at the failing input: the second heading finds the paragraph of
    section [A] empty through the property [paragraph], and [pop] takes
    the last entry of the root, which is the section [A] itself. *)
Theorem C3_section_lost :
  parse (file_of ["x"; "# A"; "# B"]) =
    inr (Node (doc 0 [Paragraph [Line [source 1 [word "x" NONE]]];
                      Section_ 1 (Some (str "B"))
                        (Node (doc 2 [Paragraph []]))])).
Proof. vm_compute. reflexivity. Qed.

(** ** Running the computations *)

Lemma bind_Ok {A B} (m : M A) (k : A -> M B) s b s' :
  bind m k s = Ok b s' <-> exists a s1, m s = Ok a s1 /\ k a s1 = Ok b s'.
Proof.
  unfold bind. split.
  - destruct (m s) as [a s1|e s1]; [eauto|discriminate].
  - intros (a & s1 & -> & H). exact H.
Qed.

Lemma bind_run {A B} (m : M A) (k : A -> M B) s a s1 :
  m s = Ok a s1 -> bind m k s = k a s1.
Proof. unfold bind. intros ->. reflexivity. Qed.

Lemma bind_raise {A B} (m : M A) (k : A -> M B) s e s1 :
  m s = Raise e s1 -> bind m k s = Raise e s1.
Proof. unfold bind. intros ->. reflexivity. Qed.

Lemma lift_Ok {A} (r : Error + A) s a s' :
  lift r s = Ok a s' <-> r = inr a /\ s' = s.
Proof.
  destruct r; cbn; unfold raise, ret; split; intros H;
    try (destruct H; congruence); try discriminate.
  inversion H. auto.
Qed.

Lemma load_Ok d s x s' :
  load d s = Ok x s' <-> heap s !! d = Some x /\ s' = s.
Proof.
  unfold load, bind, get_heap. destruct (heap s !! d); cbn; unfold ret, raise;
    split; intros H; try (destruct H; congruence); try discriminate.
  inversion H. auto.
Qed.

Lemma store_Ok d x s u s' :
  store d x s = Ok u s' <-> s' = with_heap s (<[d := x]> (heap s)).
Proof.
  unfold store, bind, get_heap, set_heap. destruct u.
  split; [intros [= <-]|intros ->]; reflexivity.
Qed.

Lemma alloc_Ok x s v s' :
  alloc x s = Ok v s' <-> v = length (heap s) /\ s' = with_heap s (heap s ++ [x]).
Proof.
  unfold alloc, bind, get_heap, set_heap, ret. cbn.
  split; [intros [= <- <-]|intros [-> ->]]; auto.
Qed.

Lemma document_Ok s d s' :
  document s = Ok d s' <-> last (stack s) = Some d /\ s' = s.
Proof.
  unfold document, bind, get_stack. destruct (last (stack s)); cbn;
    unfold ret, raise; split; intros H; try (destruct H; congruence);
    try discriminate.
  inversion H. auto.
Qed.

Lemma total_indent_Ok s n s' :
  total_indent s = Ok n s' <->
  indent_sum (heap s) (stack s) = inr n /\ s' = s.
Proof.
  unfold total_indent, bind, get_heap, get_stack. apply lift_Ok.
Qed.

Lemma stack_pop_Ok s d s' :
  stack_pop s = Ok d s' <->
  last (stack s) = Some d /\ s' = with_stack s (removelast (stack s)).
Proof.
  unfold stack_pop, bind, get_stack, set_stack.
  destruct (last (stack s)); cbn; unfold ret, raise; split; intros H;
    try (destruct H; congruence); try discriminate.
  inversion H. auto.
Qed.

Lemma stack_push_Ok d s u s' :
  stack_push d s = Ok u s' <-> s' = with_stack s (stack s ++ [d]).
Proof.
  unfold stack_push, bind, get_stack, set_stack. destruct u.
  split; [intros [= <-]|intros ->]; reflexivity.
Qed.

Lemma Document_empty_Ok d s b s' :
  Document_empty d s = Ok b s' <->
  (exists x, heap s !! d = Some x /\ all_empty (content x) = inr b) /\ s' = s.
Proof.
  unfold Document_empty. rewrite bind_Ok. split.
  - intros (x & s1 & [H ->]%load_Ok & [H' ->]%lift_Ok). eauto.
  - intros [(x & H & H') ->]. exists x, s. rewrite load_Ok, lift_Ok. auto.
Qed.

Lemma Document_append_Ok d e s u s' :
  Document_append d e s = Ok u s' <->
  exists x, heap s !! d = Some x /\
    s' = with_heap s (<[d := set_content x (content x ++ [e])]> (heap s)).
Proof.
  unfold Document_append. rewrite bind_Ok. split.
  - intros (x & s1 & [H ->]%load_Ok & H'%store_Ok). eauto.
  - intros (x & H & ->). exists x, s. rewrite load_Ok, store_Ok. auto.
Qed.

Lemma Document_pop_Ok d s e s' :
  Document_pop d s = Ok e s' <->
  exists x, heap s !! d = Some x /\ last (content x) = Some e /\
    s' = with_heap s (<[d := set_content x (removelast (content x))]> (heap s)).
Proof.
  unfold Document_pop. rewrite bind_Ok. split.
  - intros (x & s1 & [H ->]%load_Ok & H'). exists x.
    destruct (last (content x)) as [e'|]; [|discriminate].
    apply bind_Ok in H' as (u & s2 & H1%store_Ok & [= <- <-]). auto.
  - intros (x & H & Hl & ->). exists x, s. rewrite load_Ok. split; [auto|].
    rewrite Hl. reflexivity.
Qed.

Lemma Document_paragraph_Ok d s p s' :
  Document_paragraph d s = Ok p s' <->
  paragraph_in (length (heap s)) (heap s) d = inr p /\ s' = s.
Proof. unfold Document_paragraph, bind, get_heap. apply lift_Ok. Qed.

Lemma Paragraph_content_Ok d s c s' :
  Paragraph_content d s = Ok c s' <->
  (exists x, heap s !! d = Some x /\ last (content x) = Some (Paragraph c)) /\
  s' = s.
Proof.
  unfold Paragraph_content. rewrite bind_Ok. split.
  - intros (x & s1 & [H ->]%load_Ok & H').
    destruct (last (content x)) as [[c'|]|] eqn:E; try discriminate.
    inversion H'; subst. eauto.
  - intros [(x & H & Hl) ->]. exists x, s. rewrite load_Ok, Hl. auto.
Qed.

Lemma Paragraph_empty_Ok d s b s' :
  Paragraph_empty d s = Ok b s' <->
  (exists x c, heap s !! d = Some x /\ last (content x) = Some (Paragraph c) /\
     b = (length c =? 0)) /\
  s' = s.
Proof.
  unfold Paragraph_empty. rewrite bind_Ok. split.
  - intros (c & s1 & [(x & H & Hl) ->]%Paragraph_content_Ok & [= <- <-]).
    eauto 6.
  - intros [(x & c & H & Hl & ->) ->]. exists c, s.
    rewrite Paragraph_content_Ok. eauto.
Qed.

Lemma Paragraph_set_Ok d c s u s' :
  Paragraph_set d c s = Ok u s' <->
  exists x, heap s !! d = Some x /\
    s' = with_heap s
           (<[d := set_content x (removelast (content x) ++ [Paragraph c])]>
              (heap s)).
Proof.
  unfold Paragraph_set. rewrite bind_Ok. split.
  - intros (x & s1 & [H ->]%load_Ok & H'%store_Ok). eauto.
  - intros (x & H & ->). exists x, s. rewrite load_Ok, store_Ok. auto.
Qed.

Lemma Paragraph_append_Ok d i s u s' :
  Paragraph_append d i s = Ok u s' <->
  exists x c, heap s !! d = Some x /\ last (content x) = Some (Paragraph c) /\
    s' = with_heap s
           (<[d := set_content x
                     (removelast (content x) ++ [Paragraph (c ++ [i])])]>
              (heap s)).
Proof.
  unfold Paragraph_append. rewrite bind_Ok. split.
  - intros (c & s1 & [(x & H & Hl) ->]%Paragraph_content_Ok &
            (x' & H' & ->)%Paragraph_set_Ok).
    exists x, c. rewrite H in H'. inversion H'; subst. auto.
  - intros (x & c & H & Hl & ->). exists c, s.
    rewrite Paragraph_content_Ok, Paragraph_set_Ok. eauto 8.
Qed.

Lemma Paragraph_line_Ok d s l s' :
  Paragraph_line d s = Ok l s' <->
  line_in (length (heap s)) (heap s) d = inr l /\ s' = s.
Proof. unfold Paragraph_line, bind, get_heap. apply lift_Ok. Qed.

Lemma Line_append_Ok l src s u s' :
  Line_append l src s = Ok u s' <->
  exists d x c srcs, l = Some d /\ heap s !! d = Some x /\
    last (content x) = Some (Paragraph c) /\ last c = Some (Line srcs) /\
    s' = with_heap s
           (<[d := set_content x
                     (removelast (content x) ++
                        [Paragraph (removelast c ++ [Line (srcs ++ [src])])])]>
              (heap s)).
Proof.
  unfold Line_append. destruct l as [d|]; cycle 1.
  { split; [discriminate|]. intros (? & ? & ? & ? & ? & _). discriminate. }
  rewrite bind_Ok. split.
  - intros (c & s1 & [(x & H & Hl) ->]%Paragraph_content_Ok & H').
    destruct (last c) as [[srcs| | |]|] eqn:E; try discriminate.
    apply Paragraph_set_Ok in H' as (x' & H' & ->).
    rewrite H in H'. inversion H'; subst. eauto 10.
  - intros (d' & x & c & srcs & [= <-] & H & Hl & Hc & ->). exists c, s.
    rewrite Paragraph_content_Ok. split; [eauto|].
    rewrite Hc, Paragraph_set_Ok. eauto.
Qed.

(** ** White space and the patterns *)

Lemma is_blank_take n t : is_blank t = true -> is_blank (take n t) = true.
Proof.
  unfold is_blank. revert n. induction t as [|c t IH]; intros [|n]; cbn; auto.
  intros [-> H]%andb_prop. cbn. auto.
Qed.

Lemma is_blank_drop n t : is_blank t = true -> is_blank (drop n t) = true.
Proof.
  unfold is_blank. revert n. induction t as [|c t IH]; intros [|n]; cbn; auto.
  intros [_ H]%andb_prop. auto.
Qed.

Lemma span_all p t : forallb p t = true -> drop (span p t) t = [].
Proof.
  induction t as [|c t IH]; cbn; [auto|].
  intros [-> H]%andb_prop. cbn. auto.
Qed.

Lemma span_le p t : span p t <= length t.
Proof. induction t as [|c t IH]; cbn; [lia|]. destruct (p c); cbn; lia. Qed.

Lemma leading_space_pos t :
  0 < leading_space t -> exists c t', t = c :: t' /\ is_space c = true.
Proof.
  unfold leading_space. destruct t as [|c t]; cbn; [lia|].
  destruct (is_space c) eqn:E; [eauto|lia].
Qed.

Lemma indent_sum_valid (h : Store) st :
  Forall (fun d => is_Some (h !! d)) st -> exists n, indent_sum h st = inr n.
Proof.
  induction 1 as [|d st [x Hx] _ [n IH]]; cbn; [eauto|].
  rewrite Hx, IH. eauto.
Qed.

(** ** The scopes a line leaves *)

Lemma pop_loop_blank fuel t s :
  Forall (fun d => is_Some (heap s !! d)) (stack s) ->
  is_blank t = true -> pop_loop (S fuel) t s = Ok tt s.
Proof.
  intros Hv Hb. cbn [pop_loop]. unfold bind at 1, get_stack.
  destruct ((1 <? length (stack s)) && (0 <? length t)); [|reflexivity].
  destruct (indent_sum_valid _ _ Hv) as [n Hn].
  erewrite bind_run by (apply total_indent_Ok; eauto).
  rewrite is_blank_take by assumption. reflexivity.
Qed.

(** C6: a blank line, empty or of white space only, pops no scope,
    whatever the depth of the stack: the loop of line 171 leaves the state
    as it is. *)
Theorem C6_blank_line_pops_nothing t s :
  stack_valid s -> is_blank t = true -> pop_scopes t s = Ok tt s.
Proof.
  intros [Hne Hv] Hb. unfold pop_scopes, bind at 1, get_stack.
  destruct (stack s) as [|d st] eqn:E; [congruence|].
  cbn [length]. apply pop_loop_blank; [rewrite E|]; assumption.
Qed.

Lemma C6_blank_line_pops_nothing_witness :
  let s := {| heap := [new_document 0; new_document 2; new_document 3];
              stack := [0; 1; 2]; lineno := 0 |} in
  pop_scopes (str "   ") s = Ok tt s.
Proof.
  intros s. apply C6_blank_line_pops_nothing; [|reflexivity].
  split; [discriminate|]. repeat constructor; eexists; reflexivity.
Defined.

(** ** Leading white space in an empty scope *)

Lemma pop_scopes_kept t s n :
  stack s <> [] -> indent_sum (heap s) (stack s) = inr n ->
  is_blank (take n t) = true -> pop_scopes t s = Ok tt s.
Proof.
  intros Hne Hn Hb. unfold pop_scopes, bind at 1, get_stack.
  destruct (stack s) as [|d st] eqn:E; [congruence|].
  cbn [length pop_loop]. unfold bind at 1, get_stack.
  destruct ((1 <? length (stack s)) && (0 <? length t)); [|reflexivity].
  erewrite bind_run by (apply total_indent_Ok; rewrite E; eauto).
  rewrite Hb. reflexivity.
Qed.

Lemma pop_scopes_root t s r : stack s = [r] -> pop_scopes t s = Ok tt s.
Proof.
  intros E. unfold pop_scopes, bind at 1, get_stack. rewrite E.
  cbn [length pop_loop]. unfold bind at 1, get_stack. rewrite E. reflexivity.
Qed.

Lemma strip_indent_root ref t s r x n :
  stack s = [r] -> heap s !! r = Some x ->
  all_empty (content x) = inr true ->
  indent_sum (heap s) (stack s) = inr n ->
  0 < leading_space (drop n t) ->
  strip_indent ref t s = Raise (ValueError root_msg ref) s.
Proof.
  intros E Hx He Hn Hk. unfold strip_indent.
  erewrite bind_run by (eapply pop_scopes_root; eauto).
  erewrite bind_run by (apply total_indent_Ok; eauto).
  unfold claim_space.
  erewrite bind_run by (apply document_Ok; rewrite E; eauto).
  erewrite bind_run by (apply Document_empty_Ok; eauto).
  unfold bind at 1, get_stack. rewrite E.
  apply Nat.ltb_lt in Hk. rewrite Hk. reflexivity.
Qed.

(** C7: in an empty current document, white space that is left after the
    indent has been removed makes the line fail with [Invalid space on root
    document] when the document is the root, the only one on the stack (the
    handler raises the error again, so the loop over the lines fails with
    it); a nested empty document adds the width of that white space to its
    indent and the white space is removed from the line. *)
Theorem C7_leading_space ref t it s st d x n :
  stack s = st ++ [d] -> heap s !! d = Some x ->
  all_empty (content x) = inr true ->
  indent_sum (heap s) (stack s) = inr n ->
  is_blank (take n t) = true ->
  0 < leading_space (drop n t) ->
  (st = [] ->
     process_line ref t it s = Raise (ValueError root_msg ref) s /\
     forall fuel lines no, lines !! no = Some t ->
       for_lines (S fuel) lines ((no, t) :: it) s =
         Raise (ValueError root_msg (no + 1)) (with_lineno s no)) /\
  (st <> [] ->
     strip_indent ref t s =
       Ok (drop (leading_space (drop n t)) (drop n t))
          (with_heap s
             (<[d := set_indent x (indent x + leading_space (drop n t))]>
                (heap s)))).
Proof.
  intros E Hx He Hn Hb Hk. split.
  - intros ->. cbn in E. split.
    + unfold process_line. apply bind_raise. eapply strip_indent_root; eauto.
    + intros fuel lines no Hl. cbn [for_lines].
      unfold bind at 1, set_lineno. unfold bind at 1, try, process_line.
      erewrite bind_raise
        by (eapply (strip_indent_root _ _ (with_lineno s no)); eauto).
      unfold handler.
      erewrite bind_run by (apply total_indent_Ok; eauto).
      cbn [lineno with_lineno]. rewrite Hl.
      assert (n < length t) as ->%Nat.ltb_lt; [|reflexivity].
      apply leading_space_pos in Hk as (c & t' & Ht & _).
      destruct (decide (n < length t)) as [|Hge]; [assumption|].
      rewrite drop_ge in Ht by lia. discriminate.
  - intros Hst. unfold strip_indent.
    erewrite bind_run
      by (eapply pop_scopes_kept; eauto; rewrite E; destruct st; discriminate).
    erewrite bind_run by (apply total_indent_Ok; eauto).
    unfold claim_space.
    erewrite bind_run by (apply document_Ok; rewrite E, last_snoc; eauto).
    erewrite bind_run by (apply Document_empty_Ok; eauto).
    unfold bind at 1, get_stack. rewrite E, length_app. cbn [length].
    replace (length st + 1 =? 1) with false
      by (symmetry; apply Nat.eqb_neq; destruct st; cbn; [congruence|lia]).
    rewrite andb_false_r.
    erewrite bind_run by (apply document_Ok; rewrite E, last_snoc; eauto).
    erewrite bind_run by (apply load_Ok; eauto).
    erewrite (bind_run _ _ _ tt) by (apply store_Ok; eauto).
    reflexivity.
Qed.

Lemma C7_leading_space_witness :
  process_line 1 (str " x") [] initial =
    Raise (ValueError root_msg 1) initial /\
  let s := {| heap := [doc 0 [Paragraph [Aside PLAIN 1]]; new_document 2];
              stack := [0; 1]; lineno := 1 |} in
  strip_indent 2 (str "    x") s =
    Ok (str "x")
       (with_heap s [doc 0 [Paragraph [Aside PLAIN 1]]; new_document 4]).
Proof.
  split.
  - refine (proj1 (proj1 (C7_leading_space 1 (str " x") [] initial [] 0
                            (new_document 0) 0 _ _ _ _ _ _) _));
      try reflexivity. vm_compute. lia.
  - intros s.
    refine (proj2 (C7_leading_space 2 (str "    x") [] s [0] 1
                     (new_document 2) 2 _ _ _ _ _ _) _);
      try reflexivity; [vm_compute; lia|discriminate].
Defined.

(** ** Code blocks *)

(** C8, as the claim states it, fails inside a nested scope: the word of a
    line of the block is the line without the columns of the total indent,
    not the physical line. *)
Lemma C8_counterexample :
  parse (file_of ["- a"; "  ```"; "  code"; "  ```"]) =
    inr (Node (doc 0 [Paragraph [List_ (str "- ")
           (Node (doc 2 [Paragraph [Line [source 1 [word "a" NONE]];
                                    Block None [source 2 [word "code" BLOCK]]]]))]])) /\
  str "code" <> str "  code".
Proof. split; [vm_compute; reflexivity|discriminate]. Qed.

Lemma with_lineno_twice s a b : with_lineno (with_lineno s a) b = with_lineno s b.
Proof. reflexivity. Qed.

Lemma block_lines_spec ind body no close rest content s :
  indent_sum (heap s) (stack s) = inr ind ->
  Forall (fun l => is_block_end (drop ind (snd l)) = false) body ->
  is_block_end (drop ind close) = true ->
  block_lines (body ++ (no, close) :: rest) content s =
    Ok (content ++ map (block_word ind) body, rest) (with_lineno s no).
Proof.
  intros Hn Hbody Hclose. revert content s Hn.
  induction Hbody as [|[no' l] body Hl _ IH]; intros content s Hn;
    cbn [app block_lines map].
  - unfold bind at 1, set_lineno.
    erewrite bind_run by (apply total_indent_Ok; eauto).
    rewrite Hclose, app_nil_r. reflexivity.
  - unfold bind at 1, set_lineno.
    erewrite bind_run by (apply total_indent_Ok; eauto).
    cbn [snd] in Hl. rewrite Hl, IH by exact Hn.
    rewrite <- app_assoc. reflexivity.
Qed.

(** C8 (amended): after the line that opens a code block, every line up to
    the first one that is, without the columns of the total indent, the
    fence followed by white space only, becomes one source line of exactly
    one word with the modifier [BLOCK], whose text is the line without the
    columns of the total indent; the words are not tokenized and neither
    the documents nor the stack change.  The three lines of scenario B give
    a block of language [py] with the one source line [x=1]. *)
Theorem C8_block_lines ind body no close rest content s :
  indent_sum (heap s) (stack s) = inr ind ->
  Forall (fun l => is_block_end (drop ind (snd l)) = false) body ->
  is_block_end (drop ind close) = true ->
  block_lines (body ++ (no, close) :: rest) content s =
    Ok (content ++ map (block_word ind) body, rest) (with_lineno s no) /\
  parse (file_of ["```py"; "x=1"; "```"]) =
    inr (Node (doc 0 [Paragraph [Block (Some (str "py"))
                                   [source 1 [word "x=1" BLOCK]]]])).
Proof.
  intros Hn Hbody Hclose. split; [|vm_compute; reflexivity].
  apply block_lines_spec; assumption.
Qed.

Lemma C8_block_lines_witness :
  let s := {| heap := [doc 0 [Paragraph [List_ (str "- ") 1]];
                       doc 2 [Paragraph [Line [source 1 [word "a" NONE]]]]];
              stack := [0; 1]; lineno := 1 |} in
  block_lines [(2, str "  *code* here"); (3, str "  ```"); (4, str "  x")] [] s =
    Ok ([source 2 [word "*code* here" BLOCK]], [(4, str "  x")])
       (with_lineno s 3).
Proof.
  intros s.
  refine (proj1 (C8_block_lines 2 [(2, str "  *code* here")] 3 (str "  ```")
                   [(4, str "  x")] [] s _ _ _)); try reflexivity.
  repeat constructor.
Defined.

(** ** Blank lines *)

Lemma space_chars c :
  is_space c = true ->
  is_char ch_dash c = false /\ is_char ch_hash c = false /\
  is_char ch_tick c = false /\ is_char ch_gt c = false /\
  is_upper c = false /\ is_digit c = false.
Proof.
  destruct c as [[] [] [] [] [] [] [] []]; vm_compute; intros; try discriminate;
    repeat split.
Qed.

Section Blank.
Context (t : text) (Hb : is_blank t = true).

Lemma blank_cases : t = [] \/ exists c t', t = c :: t' /\ is_space c = true /\ is_blank t' = true.
Proof.
  destruct t as [|c t']; [auto|right]. apply andb_prop in Hb as [? ?]. eauto.
Qed.

Lemma blank_not_title : is_title t = false.
Proof.
  destruct blank_cases as [->|(c & t' & -> & Hc & _)]; [reflexivity|].
  apply space_chars in Hc as (Hd & _).
  change (is_title (c :: t')) with (is_char ch_dash c && starts_with (str "--") t').
  rewrite Hd. reflexivity.
Qed.

Lemma blank_not_heading : match_heading t = None.
Proof.
  unfold match_heading.
  destruct blank_cases as [->|(c & t' & -> & Hc & _)]; [reflexivity|].
  apply space_chars in Hc as (_ & Hh & _). cbn [span]. rewrite Hh. reflexivity.
Qed.

Lemma blank_not_block : match_block t = None.
Proof.
  unfold match_block.
  destruct blank_cases as [->|(c & t' & -> & Hc & _)]; [reflexivity|].
  apply space_chars in Hc as (_ & _ & Ht & _).
  change (starts_with fence (c :: t'))
    with (is_char ch_tick c && starts_with (str "``") t').
  rewrite Ht. reflexivity.
Qed.

Lemma blank_not_aside : match_aside t = None.
Proof.
  unfold match_aside.
  destruct blank_cases as [->|(c & t' & -> & Hc & Ht')]; [reflexivity|].
  apply space_chars in Hc as (_ & _ & _ & Hg & _). rewrite Hg.
  destruct t' as [|c' t'']; [reflexivity|].
  apply andb_prop in Ht' as [Hc' _].
  apply space_chars in Hc' as (_ & _ & _ & Hg' & _). rewrite Hg'. reflexivity.
Qed.

Lemma blank_not_list : match_list t = None.
Proof.
  unfold match_list, match_list_unit.
  destruct blank_cases as [->|(c & t' & E & Hc & _)]; [reflexivity|].
  rewrite (span_all is_space t Hb). rewrite E at 1.
  apply space_chars in Hc as (_ & _ & _ & _ & -> & ->). reflexivity.
Qed.

End Blank.

Lemma all_empty_snoc {R} (c : list (Entry R)) e :
  all_empty c = inr false -> all_empty (c ++ [e]) = inr false.
Proof.
  induction c as [|[[|i p]|l ti d] c IH]; cbn; try discriminate; auto.
Qed.

Lemma indent_sum_insert (h : Store) st d x y :
  h !! d = Some x -> indent y = indent x ->
  indent_sum (<[d := y]> h) st = indent_sum h st.
Proof.
  intros Hx Hi. induction st as [|d' st IH]; cbn; [reflexivity|].
  rewrite IH. destruct (decide (d = d')) as [<-|Hne].
  - rewrite list_lookup_insert_eq by (eapply lookup_lt_Some; eauto).
    rewrite Hx, Hi. reflexivity.
  - rewrite list_lookup_insert_ne by assumption. reflexivity.
Qed.

Lemma paragraph_in_here (h : Store) d x c :
  h !! d = Some x -> last (content x) = Some (Paragraph c) ->
  paragraph_in (length h) h d = inr d.
Proof.
  intros Hx Hl. pose proof (lookup_lt_Some _ _ _ Hx).
  destruct (length h) as [|f]; [lia|]. cbn. rewrite Hx, Hl. reflexivity.
Qed.

Lemma inline_blank ref t s :
  is_blank t = true -> inline_rules ref t s = break_paragraph s.
Proof.
  intros Hb. unfold inline_rules, open_aside, open_list.
  rewrite blank_not_aside by assumption. unfold bind at 1, ret.
  rewrite blank_not_list by assumption. unfold bind at 1, ret.
  rewrite Hb. reflexivity.
Qed.

Lemma strip_indent_kept ref t s d x n :
  stack s <> [] -> last (stack s) = Some d -> heap s !! d = Some x ->
  all_empty (content x) = inr false ->
  indent_sum (heap s) (stack s) = inr n ->
  is_blank (take n t) = true ->
  strip_indent ref t s = Ok (drop n t) s.
Proof.
  intros Hne Hd Hx He Hn Hb. unfold strip_indent.
  erewrite bind_run by (eapply pop_scopes_kept; eauto).
  erewrite bind_run by (apply total_indent_Ok; eauto).
  unfold claim_space.
  erewrite bind_run by (apply document_Ok; eauto).
  erewrite bind_run by (apply Document_empty_Ok; eauto).
  reflexivity.
Qed.

Lemma process_blank ref t it s d x n :
  stack s <> [] -> last (stack s) = Some d -> heap s !! d = Some x ->
  all_empty (content x) = inr false ->
  indent_sum (heap s) (stack s) = inr n ->
  is_blank t = true ->
  process_line ref t it s = (break_paragraph ;;; ret it) s.
Proof.
  intros Hne Hd Hx He Hn Hb. unfold process_line.
  erewrite bind_run
    by (eapply strip_indent_kept; eauto using is_blank_take).
  pose proof (is_blank_drop n t Hb) as Hb'.
  rewrite blank_not_title, blank_not_heading, blank_not_block by assumption.
  unfold bind. rewrite inline_blank by assumption. reflexivity.
Qed.

(** C4: inside a paragraph that is not empty, the first blank line appends
    one empty paragraph to the current document and changes nothing else:
    afterwards the content of the current document is its content before
    and one empty [Paragraph], its indent and title, the other documents
    and the stack are as before.  Every blank line after it leaves the
    documents and the stack as they are; so a run of one blank line and
    any number of further ones yields the state of one paragraph break. *)
Theorem C4_blank_lines s d x p y i c n :
  stack s <> [] -> last (stack s) = Some d -> heap s !! d = Some x ->
  all_empty (content x) = inr false ->
  indent_sum (heap s) (stack s) = inr n ->
  paragraph_in (length (heap s)) (heap s) d = inr p ->
  heap s !! p = Some y -> last (content y) = Some (Paragraph (i :: c)) ->
  (forall ref t it, is_blank t = true ->
     process_line ref t it s = Ok it (broken s d x)) /\
  (forall ref t it no, is_blank t = true ->
     process_line ref t it (with_lineno (broken s d x) no) =
       Ok it (with_lineno (broken s d x) no)) /\
  (forall lines no t blanks,
     is_blank t = true -> Forall (fun l => is_blank (snd l) = true) blanks ->
     exists k, for_lines (S (length blanks)) lines ((no, t) :: blanks) s =
                 Ok tt (with_lineno (broken s d x) k)) /\
  (forall ref t it s', is_blank t = true ->
     process_line ref t it s = Ok it s' ->
     (exists x', heap s' !! d = Some x' /\
                 content x' = content x ++ [Paragraph []] /\
                 length (content x') = S (length (content x)) /\
                 indent x' = indent x /\ title x' = title x) /\
     (forall d', d' <> d -> heap s' !! d' = heap s !! d') /\
     length (heap s') = length (heap s) /\
     stack s' = stack s /\ lineno s' = lineno s).
Proof.
  intros Hne Hd Hx He Hn Hp Hy Hl.
  assert (Hfirst : forall ref t it s0, heap s0 = heap s -> stack s0 = stack s ->
            is_blank t = true ->
            process_line ref t it s0 = Ok it (broken s0 d x)).
  { intros ref t it s0 Eh Es Hb.
    erewrite process_blank by (rewrite ?Eh, ?Es; eauto).
    unfold break_paragraph.
    erewrite (bind_run _ _ _ tt); cycle 1.
    { erewrite bind_run by (apply document_Ok; rewrite Es; eauto).
      erewrite bind_run by (apply Document_paragraph_Ok; rewrite Eh; eauto).
      erewrite (bind_run _ _ _ false)
        by (apply Paragraph_empty_Ok; rewrite Eh; split; [|reflexivity];
            exists y, (i :: c); auto).
      erewrite bind_run by (apply document_Ok; rewrite Es; eauto).
      apply Document_append_Ok. rewrite Eh. eauto. }
    unfold broken. rewrite Eh. reflexivity. }
  assert (Hd' : length (heap s) > d) by (eapply lookup_lt_Some; eauto).
  assert (Hnext : forall ref t it no, is_blank t = true ->
            process_line ref t it (with_lineno (broken s d x) no) =
              Ok it (with_lineno (broken s d x) no)).
  { intros ref t it no Hb.
    assert (Hx' : heap (with_lineno (broken s d x) no) !! d =
                  Some {| indent := indent x; title := title x;
                          content := content x ++ [Paragraph []] |}).
    { cbn. apply list_lookup_insert_eq. lia. }
    erewrite process_blank; eauto.
    - unfold break_paragraph.
      erewrite (bind_run _ _ _ tt); cycle 1.
      { erewrite bind_run by (apply document_Ok; eauto).
        erewrite bind_run; cycle 1.
        { apply Document_paragraph_Ok. split; [|reflexivity].
          eapply paragraph_in_here; [exact Hx'|].
          cbn [content]. apply last_snoc. }
        erewrite (bind_run _ _ _ true); cycle 1.
        { apply Paragraph_empty_Ok. split; [|reflexivity].
          eexists _, []. split; [exact Hx'|]. cbn [content].
          rewrite last_snoc. eauto. }
        reflexivity. }
      reflexivity.
    - cbn [content]. apply all_empty_snoc. assumption.
    - cbn [heap stack with_lineno broken].
      erewrite indent_sum_insert; eauto. }
  split; [|split; [|split]].
  - intros ref t it Hb. apply Hfirst; auto.
  - exact Hnext.
  - intros lines no t blanks Hb Hbs.
    cbn [for_lines]. unfold bind at 1, set_lineno. unfold bind at 1, try.
    rewrite (Hfirst (no + 1) t blanks (with_lineno s no)) by auto.
    change (broken (with_lineno s no) d x) with (with_lineno (broken s d x) no).
    clear Hb. generalize no. clear no.
    induction Hbs as [|[no' t'] blanks Hb' _ IH]; intros no.
    + cbn. eauto.
    + cbn [for_lines length]. unfold bind at 1, set_lineno.
      unfold bind at 1, try. rewrite with_lineno_twice.
      rewrite Hnext by exact Hb'. apply IH.
  - intros ref t it s' Hb E.
    rewrite (Hfirst ref t it s eq_refl eq_refl Hb) in E. injection E as <-.
    cbn [broken heap stack lineno]. repeat split.
    + eexists. split; [apply list_lookup_insert_eq; lia|].
      cbn [content indent title]. rewrite length_app. cbn [length].
      repeat split; [lia].
    + intros d' Hd''. apply list_lookup_insert_ne. congruence.
    + apply length_insert.
Qed.

Lemma C4_blank_lines_witness :
  exists k,
    for_lines 3 [str "x"; []; str "  "; []] [(1, []); (2, str "  "); (3, [])]
      {| heap := [{| indent := 0; title := None;
                     content := [Paragraph [Line [source 1 [word "x" NONE]]]] |}];
         stack := [0]; lineno := 0 |} =
      Ok tt
        {| heap := [{| indent := 0; title := None;
                       content := [Paragraph [Line [source 1 [word "x" NONE]]];
                                   Paragraph []] |}];
           stack := [0]; lineno := k |}.
Proof.
  refine (proj1 (proj2 (proj2 (C4_blank_lines
            {| heap := [{| indent := 0; title := None;
                 content := [Paragraph [Line [source 1 [word "x" NONE]]]] |}];
               stack := [0]; lineno := 0 |} 0
            {| indent := 0; title := None;
               content := [Paragraph [Line [source 1 [word "x" NONE]]]] |} 0
            {| indent := 0; title := None;
               content := [Paragraph [Line [source 1 [word "x" NONE]]]] |}
            (Line [source 1 [word "x" NONE]]) [] 0
            _ _ _ _ _ _ _ _)))
            [str "x"; []; str "  "; []] 1 [] [(2, str "  "); (3, [])] _ _);
    try reflexivity; [discriminate|repeat constructor].
Defined.

(** Two blank lines between two lines of text give two paragraphs. *)
Example blank_lines_between_text :
  parse (file_of ["x"; ""; "  "; "y"]) =
    inr (Node (doc 0 [Paragraph [Line [source 1 [word "x" NONE]]];
                      Paragraph [Line [source 4 [word "y" NONE]]]])).
Proof. vm_compute. reflexivity. Qed.

(** ** Words and list markers of the documents *)

Section Keeps.
Context (P : Store -> Prop).

Lemma keeps_bind {A B} (m : M A) (k : A -> M B) Q Q' :
  keeps P m Q -> (forall a, Q a -> keeps P (k a) Q') -> keeps P (bind m k) Q'.
Proof.
  intros Hm Hk s b s' HP (a & s1 & H1 & H2)%bind_Ok.
  destruct (Hm _ _ _ HP H1) as [HP1 HQ]. exact (Hk a HQ _ _ _ HP1 H2).
Qed.

Lemma keeps_ret {A} (a : A) (Q : A -> Prop) : Q a -> keeps P (ret a) Q.
Proof. intros HQ s a' s' HP [= <- <-]. auto. Qed.

Lemma keeps_raise {A} e (Q : A -> Prop) : keeps P (raise e) Q.
Proof. intros s a s' _ [=]. Qed.

Lemma keeps_weaken {A} (m : M A) (Q Q' : A -> Prop) :
  keeps P m Q -> (forall a, Q a -> Q' a) -> keeps P m Q'.
Proof. intros Hm HQ s a s' HP H. destruct (Hm _ _ _ HP H). auto. Qed.

Lemma keeps_lift {A} (r : Error + A) (Q : A -> Prop) :
  (forall a, r = inr a -> Q a) -> keeps P (lift r) Q.
Proof. intros HQ s a s' HP [-> ->]%lift_Ok. auto. Qed.

(** A computation that only reads. *)
Lemma keeps_read {A} (m : M A) :
  (forall s a s', m s = Ok a s' -> s' = s) -> keeps P m any.
Proof. intros Hm s a s' HP ->%Hm. split; [assumption|exact I]. Qed.

Lemma keeps_when b (m : M unit) : keeps P m any -> keeps P (when b m) any.
Proof. intros Hm. destruct b; [exact Hm|]. apply keeps_ret. exact I. Qed.

Lemma keeps_set_lineno n : keeps P (set_lineno n) any.
Proof. intros s a s' HP [= ? <-]. split; [exact HP|exact I]. Qed.

Lemma keeps_stack_push d : keeps P (stack_push d) any.
Proof. intros s a s' HP ->%stack_push_Ok. split; [exact HP|exact I]. Qed.

Lemma keeps_stack_pop : keeps P stack_pop any.
Proof. intros s a s' HP [_ ->]%stack_pop_Ok. split; [exact HP|exact I]. Qed.

Lemma keeps_try {A} (m : M A) h Q :
  keeps P m Q -> (forall e s a s', h e s <> Ok a s') -> keeps P (try m h) Q.
Proof.
  intros Hm Hh s a s' HP H. unfold try in H.
  destruct (m s) as [a1 s1|e s1] eqn:E.
  - inversion H; subst. eauto.
  - destruct (Hh _ _ _ _ H).
Qed.
End Keeps.

Lemma document_reads s a s' : document s = Ok a s' -> s' = s.
Proof. intros [_ ->]%document_Ok. reflexivity. Qed.
Lemma total_indent_reads s a s' : total_indent s = Ok a s' -> s' = s.
Proof. intros [_ ->]%total_indent_Ok. reflexivity. Qed.
Lemma get_stack_reads s a s' : get_stack s = Ok a s' -> s' = s.
Proof. intros [= _ <-]. reflexivity. Qed.
Lemma load_reads d s a s' : load d s = Ok a s' -> s' = s.
Proof. intros [_ ->]%load_Ok. reflexivity. Qed.
Lemma Document_empty_reads d s a s' : Document_empty d s = Ok a s' -> s' = s.
Proof. intros [_ ->]%Document_empty_Ok. reflexivity. Qed.
Lemma Document_paragraph_reads d s a s' :
  Document_paragraph d s = Ok a s' -> s' = s.
Proof. intros [_ ->]%Document_paragraph_Ok. reflexivity. Qed.
Lemma Paragraph_empty_reads d s a s' : Paragraph_empty d s = Ok a s' -> s' = s.
Proof. intros [_ ->]%Paragraph_empty_Ok. reflexivity. Qed.
Lemma Paragraph_line_reads d s a s' : Paragraph_line d s = Ok a s' -> s' = s.
Proof. intros [_ ->]%Paragraph_line_Ok. reflexivity. Qed.

Lemma handler_raises lines e s a s' : handler lines e s <> Ok a s'.
Proof.
  unfold handler, bind. destruct (total_indent s) as [n s1|]; [|discriminate].
  destruct (lines !! lineno s1); [destruct (n <? _)|]; discriminate.
Qed.

Lemma last_removelast {A} (l : list A) x :
  last l = Some x -> l = removelast l ++ [x].
Proof.
  intros (l' & ->)%last_Some. rewrite removelast_last. reflexivity.
Qed.

Lemma has_ALIGN m : has ALIGN m = N.testbit m 1.
Proof. destruct m as [|[[p|p|]|[p|p|]|]]; reflexivity. Qed.

Lemma mapping_no_align c applied (w : text) :
  mapping c = Some applied ->
  N.testbit (if (length w =? 2) || (applied =? QUOTES)%N
             then N.lor applied WITH_SPACES else applied) 1 = false.
Proof.
  unfold mapping.
  repeat (match goal with |- context [if is_char ?a c then _ else _] =>
            destruct (is_char a c) end);
    intros [= <-]; destruct (_ || _); reflexivity.
Qed.

Lemma words_loop_no_align ref ws m acc content :
  has ALIGN m = false -> Forall no_align acc ->
  words_loop ref ws m acc = inr content -> Forall no_align content.
Proof.
  revert m acc. induction ws as [|w ws IH]; intros m acc Hm Hacc; cbn.
  - intros [= <-]. assumption.
  - destruct w as [|c w']; [eauto|].
    destruct (mapping c) as [applied|] eqn:E.
    + apply IH; [|assumption]. rewrite has_ALIGN, N.lxor_spec.
      rewrite <- has_ALIGN, Hm.
      rewrite (mapping_no_align c applied (c :: w') E). reflexivity.
    + destruct (_ && _); [discriminate|]. rewrite Hm.
      apply IH; [assumption|]. apply Forall_app. split; [assumption|].
      repeat constructor. exact Hm.
Qed.

Lemma tokenize_no_align ref t src :
  tokenize ref t = inr src -> Forall no_align (src_content src).
Proof.
  unfold tokenize.
  destruct (words_loop _ _ _ _) as [|content] eqn:E; [discriminate|].
  intros [= <-]. eapply words_loop_no_align; [| |exact E]; [reflexivity|].
  constructor.
Qed.

Section StoreOk.
Context (Pw : Word -> Prop) (Pl : text -> nat -> Prop).
Context (HPw : forall w, no_align w -> Pw w).

Local Abbreviation P := (store_ok Pw Pl).

Lemma store_ok_lookup h d x : P h -> h !! d = Some x -> document_ok Pw Pl x.
Proof. intros H Hx. exact (Forall_lookup_1 _ _ _ _ H Hx). Qed.

Lemma keeps_load d : keeps P (load d) (document_ok Pw Pl).
Proof.
  intros s x s' HP [Hx ->]%load_Ok. eauto using store_ok_lookup.
Qed.

Lemma keeps_store d x : document_ok Pw Pl x -> keeps P (store d x) any.
Proof.
  intros Hx s u s' HP ->%store_Ok. split; [|exact I].
  apply Forall_insert; assumption.
Qed.

Lemma keeps_alloc n : keeps P (alloc (new_document n)) any.
Proof.
  intros s u s' HP [_ ->]%alloc_Ok. split; [|exact I].
  apply Forall_app. split; [assumption|].
  repeat constructor.
Qed.

Lemma keeps_Document_append d e :
  entry_ok Pw Pl e -> keeps P (Document_append d e) any.
Proof.
  intros He. unfold Document_append.
  eapply keeps_bind; [apply keeps_load|]. intros x [Hc Ht].
  apply keeps_store. split; [|exact Ht]. cbn.
  apply Forall_app. split; [assumption|]. repeat constructor. assumption.
Qed.

Lemma keeps_Document_pop d : keeps P (Document_pop d) (entry_ok Pw Pl).
Proof.
  unfold Document_pop.
  eapply keeps_bind; [apply keeps_load|]. intros x [Hc Ht].
  destruct (last (content x)) as [e|] eqn:E; [|apply keeps_raise].
  rewrite (last_removelast _ _ E) in Hc. apply Forall_app in Hc as [Hc He].
  eapply keeps_bind; [apply keeps_store; split; [exact Hc|exact Ht]|].
  intros _ _. apply keeps_ret. rewrite Forall_singleton in He. exact He.
Qed.

Lemma keeps_Paragraph_content d :
  keeps P (Paragraph_content d) (Forall (item_ok Pw Pl)).
Proof.
  unfold Paragraph_content.
  eapply keeps_bind; [apply keeps_load|]. intros x [Hc Ht].
  destruct (last (content x)) as [[c|]|] eqn:E; try apply keeps_raise.
  apply keeps_ret. rewrite (last_removelast _ _ E) in Hc.
  apply Forall_app in Hc as [_ Hc]. rewrite Forall_singleton in Hc. exact Hc.
Qed.

Lemma keeps_Paragraph_set d c :
  Forall (item_ok Pw Pl) c -> keeps P (Paragraph_set d c) any.
Proof.
  intros Hc. unfold Paragraph_set.
  eapply keeps_bind; [apply keeps_load|]. intros x [Hx Ht].
  apply keeps_store. split; [|exact Ht]. cbn.
  apply Forall_app. split.
  - destruct (last (content x)) as [e|] eqn:E.
    + rewrite (last_removelast _ _ E) in Hx. apply Forall_app in Hx. tauto.
    + apply last_None in E. rewrite E. constructor.
  - repeat constructor. exact Hc.
Qed.

Lemma keeps_Paragraph_append d i :
  item_ok Pw Pl i -> keeps P (Paragraph_append d i) any.
Proof.
  intros Hi. unfold Paragraph_append.
  eapply keeps_bind; [apply keeps_Paragraph_content|]. intros c Hc.
  apply keeps_Paragraph_set. apply Forall_app. split; [assumption|].
  repeat constructor. assumption.
Qed.

Lemma keeps_Line_append l src :
  source_ok Pw src -> keeps P (Line_append l src) any.
Proof.
  intros Hs. unfold Line_append. destruct l as [d|]; [|apply keeps_raise].
  eapply keeps_bind; [apply keeps_Paragraph_content|]. intros c Hc.
  destruct (last c) as [[srcs| | |]|] eqn:E; try apply keeps_raise.
  rewrite (last_removelast _ _ E) in Hc. apply Forall_app in Hc as [Hc Hl].
  rewrite Forall_singleton in Hl.
  apply keeps_Paragraph_set. apply Forall_app. split; [assumption|].
  repeat constructor. cbn in *. apply Forall_app. split; [assumption|].
  repeat constructor. assumption.
Qed.

Lemma keeps_pop_one : keeps P pop_one any.
Proof.
  unfold pop_one.
  eapply keeps_bind; [apply keeps_stack_pop|]. intros previous _.
  eapply keeps_bind; [apply keeps_read, Document_empty_reads|]. intros e _.
  destruct e; [apply keeps_ret; exact I|].
  eapply keeps_bind; [apply keeps_read, Document_paragraph_reads|]. intros p _.
  eapply keeps_bind; [apply keeps_read, Paragraph_empty_reads|]. intros pe _.
  apply keeps_when.
  eapply keeps_bind; [apply keeps_read, document_reads|]. intros d _.
  eapply keeps_bind; [apply keeps_Document_pop|]. intros x Hx.
  apply keeps_Document_append. assumption.
Qed.

Lemma keeps_pop_loop fuel t : keeps P (pop_loop fuel t) any.
Proof.
  induction fuel as [|fuel IH]; cbn [pop_loop]; [apply keeps_raise|].
  eapply keeps_bind; [apply keeps_read, get_stack_reads|]. intros st _.
  destruct (_ && _); [|apply keeps_ret; exact I].
  eapply keeps_bind; [apply keeps_read, total_indent_reads|]. intros ind _.
  destruct (negb _); [|apply keeps_ret; exact I].
  eapply keeps_bind; [apply keeps_pop_one|]. intros _ _. exact IH.
Qed.

Lemma rest_of_refl t : rest_of t t.
Proof. exists 0. reflexivity. Qed.

Lemma rest_of_drop t t' n : rest_of t t' -> rest_of t (drop n t').
Proof. intros [j ->]. exists (j + n). apply drop_drop. Qed.

Lemma keeps_claim_space ref t0 t :
  rest_of t0 t -> keeps P (claim_space ref t) (rest_of t0).
Proof.
  intros Ht. unfold claim_space.
  eapply keeps_bind; [apply keeps_read, document_reads|]. intros d _.
  eapply keeps_bind; [apply keeps_read, Document_empty_reads|]. intros e _.
  destruct e; [|apply keeps_ret; assumption].
  eapply keeps_bind; [apply keeps_read, get_stack_reads|]. intros st _.
  destruct (_ && _); [apply keeps_raise|].
  eapply keeps_bind; [apply keeps_read, document_reads|]. intros d' _.
  eapply keeps_bind; [apply keeps_load|]. intros x Hx.
  eapply keeps_bind; [apply keeps_store; exact Hx|]. intros _ _.
  apply keeps_ret. apply rest_of_drop. assumption.
Qed.

Lemma keeps_strip_indent ref t : keeps P (strip_indent ref t) (rest_of t).
Proof.
  unfold strip_indent, pop_scopes.
  eapply keeps_bind.
  { eapply keeps_bind; [apply keeps_read, get_stack_reads|]. intros st _.
    apply keeps_pop_loop. }
  intros _ _.
  eapply keeps_bind; [apply keeps_read, total_indent_reads|]. intros ind _.
  apply keeps_claim_space. apply rest_of_drop, rest_of_refl.
Qed.

Lemma keeps_mark_title : keeps P mark_title any.
Proof.
  unfold mark_title.
  eapply keeps_bind; [apply keeps_read, document_reads|]. intros d _.
  eapply keeps_bind; [apply keeps_Document_pop|]. intros e He.
  eapply keeps_bind; [apply keeps_read, document_reads|]. intros d' _.
  eapply keeps_bind; [apply keeps_load|]. intros x [Hx _].
  eapply keeps_bind; [apply keeps_store; split; [exact Hx|exact He]|].
  intros _ _.
  eapply keeps_bind; [apply keeps_read, document_reads|]. intros d'' _.
  apply keeps_Document_append. constructor.
Qed.

Lemma keeps_open_section level pad title :
  keeps P (open_section level pad title) any.
Proof.
  unfold open_section.
  eapply keeps_bind; [apply keeps_read, document_reads|]. intros d _.
  eapply keeps_bind; [apply keeps_read, Document_paragraph_reads|]. intros p _.
  eapply keeps_bind; [apply keeps_read, Paragraph_empty_reads|]. intros pe _.
  eapply keeps_bind.
  { apply keeps_when.
    eapply keeps_bind; [apply keeps_read, document_reads|]. intros d' _.
    eapply keeps_bind; [apply keeps_Document_pop|]. intros e _.
    apply keeps_ret. exact I. }
  intros _ _.
  eapply keeps_bind; [apply keeps_alloc|]. intros v _.
  eapply keeps_bind; [apply keeps_read, document_reads|]. intros d' _.
  eapply keeps_bind; [apply keeps_Document_append; exact I|]. intros _ _.
  apply keeps_stack_push.
Qed.

Lemma keeps_block_lines it content :
  Forall (source_ok Pw) content ->
  keeps P (block_lines it content)
    (fun r => Forall (source_ok Pw) (fst r) /\ snd r `suffix_of` it).
Proof.
  revert content. induction it as [|[no t] it IH]; intros content Hc;
    cbn [block_lines]; [apply keeps_raise|].
  eapply keeps_bind; [apply keeps_set_lineno|]. intros _ _.
  eapply keeps_bind; [apply keeps_read, total_indent_reads|]. intros ind _.
  destruct (is_block_end _).
  { apply keeps_ret. split; [assumption|]. apply suffix_cons_r. reflexivity. }
  eapply keeps_weaken.
  { apply IH. apply Forall_app. split; [assumption|]. repeat constructor.
    apply HPw. reflexivity. }
  intros r [H1 H2]. split; [assumption|]. apply suffix_cons_r. assumption.
Qed.

Lemma keeps_read_block language it :
  keeps P (read_block language it) (fun it' => it' `suffix_of` it).
Proof.
  unfold read_block.
  eapply keeps_bind; [apply keeps_block_lines; constructor|]. intros r [Hr Hs].
  eapply keeps_bind; [apply keeps_read, document_reads|]. intros d _.
  eapply keeps_bind; [apply keeps_read, Document_paragraph_reads|]. intros p _.
  eapply keeps_bind; [apply keeps_Paragraph_append; exact Hr|]. intros _ _.
  apply keeps_ret. assumption.
Qed.

Lemma keeps_open_aside t0 t :
  rest_of t0 t -> keeps P (open_aside t) (rest_of t0).
Proof.
  intros Ht. unfold open_aside.
  destruct (match_aside t) as [[n kind]|]; [|apply keeps_ret; assumption].
  eapply keeps_bind; [apply keeps_alloc|]. intros v _.
  eapply keeps_bind; [apply keeps_read, document_reads|]. intros d _.
  eapply keeps_bind; [apply keeps_read, Document_paragraph_reads|]. intros p _.
  eapply keeps_bind; [apply keeps_Paragraph_append; exact I|]. intros _ _.
  eapply keeps_bind; [apply keeps_stack_push|]. intros _ _.
  apply keeps_ret. apply rest_of_drop. assumption.
Qed.

Lemma keeps_open_list t0 t :
  (forall m d, consumed t0 m -> Pl m d) ->
  rest_of t0 t -> keeps P (open_list t) any.
Proof.
  intros HPl [j ->]. unfold open_list.
  destruct (match_list _) as [n|] eqn:E; [|apply keeps_ret; exact I].
  eapply keeps_bind; [apply keeps_alloc|]. intros v _.
  eapply keeps_bind; [apply keeps_read, document_reads|]. intros d _.
  eapply keeps_bind; [apply keeps_read, Document_paragraph_reads|]. intros p _.
  eapply keeps_bind.
  { apply keeps_Paragraph_append. cbn. apply HPl. exists j, n. auto. }
  intros _ _.
  eapply keeps_bind; [apply keeps_stack_push|]. intros _ _.
  apply keeps_ret. exact I.
Qed.

Lemma keeps_break_paragraph : keeps P break_paragraph any.
Proof.
  unfold break_paragraph.
  eapply keeps_bind; [apply keeps_read, document_reads|]. intros d _.
  eapply keeps_bind; [apply keeps_read, Document_paragraph_reads|]. intros p _.
  eapply keeps_bind; [apply keeps_read, Paragraph_empty_reads|]. intros pe _.
  destruct pe; [apply keeps_ret; exact I|].
  eapply keeps_bind; [apply keeps_read, document_reads|]. intros d' _.
  apply keeps_Document_append. constructor.
Qed.

Lemma keeps_open_line ref t : keeps P (open_line ref t) any.
Proof.
  unfold open_line.
  eapply keeps_bind; [apply keeps_read, document_reads|]. intros d _.
  eapply keeps_bind; [apply keeps_read, Document_paragraph_reads|]. intros p _.
  destruct (starts_nonspace t).
  - eapply keeps_bind; [apply keeps_Paragraph_append; constructor|].
    intros _ _. apply keeps_ret. exact I.
  - eapply keeps_bind; [apply keeps_read, Paragraph_empty_reads|]. intros pe _.
    destruct pe; [apply keeps_raise|apply keeps_ret; exact I].
Qed.

Lemma keeps_append_words ref t : keeps P (append_words ref t) any.
Proof.
  unfold append_words.
  eapply keeps_bind.
  { apply keeps_lift with (Q := source_ok Pw). intros src Hs.
    eapply Forall_impl; [exact (tokenize_no_align ref t src Hs)|exact HPw]. }
  intros src Hs.
  eapply keeps_bind; [apply keeps_read, document_reads|]. intros d _.
  eapply keeps_bind; [apply keeps_read, Document_paragraph_reads|]. intros p _.
  eapply keeps_bind; [apply keeps_read, Paragraph_line_reads|]. intros l _.
  apply keeps_Line_append. assumption.
Qed.

Lemma keeps_process_line ref t it :
  (forall m d, consumed t m -> Pl m d) ->
  keeps P (process_line ref t it) (fun it' => it' `suffix_of` it).
Proof.
  intros HPl. unfold process_line.
  eapply keeps_bind; [apply keeps_strip_indent|]. intros t1 Ht1.
  destruct (is_title t1).
  { eapply keeps_bind; [apply keeps_mark_title|]. intros _ _.
    apply keeps_ret. reflexivity. }
  destruct (match_heading t1) as [[[level pad] title]|].
  { eapply keeps_bind; [apply keeps_open_section|]. intros _ _.
    apply keeps_ret. reflexivity. }
  destruct (match_block t1) as [language|]; [apply keeps_read_block|].
  eapply keeps_bind; [|intros _ _; apply keeps_ret; reflexivity].
  unfold inline_rules.
  eapply keeps_bind; [apply keeps_open_aside; exact Ht1|]. intros t2 Ht2.
  eapply keeps_bind; [apply (keeps_open_list t t2); assumption|]. intros t3 _.
  destruct (is_blank t3); [apply keeps_break_paragraph|].
  eapply keeps_bind; [apply keeps_open_line|]. intros t4 _.
  apply keeps_append_words.
Qed.

Lemma keeps_for_lines fuel lines it :
  (forall l m d, l ∈ it -> consumed (snd l) m -> Pl m d) ->
  keeps P (for_lines fuel lines it) any.
Proof.
  revert it. induction fuel as [|fuel IH]; intros [|[no t] it] HPl;
    cbn [for_lines]; try (apply keeps_ret; exact I); [apply keeps_raise|].
  eapply keeps_bind; [apply keeps_set_lineno|]. intros _ _.
  eapply keeps_bind.
  { apply keeps_try; [|apply handler_raises].
    apply keeps_process_line. intros m d. apply (HPl (no, t)). left. }
  intros it' Hs. apply IH. intros l m d Hl. apply HPl. right.
  destruct Hs as [k ->]. apply elem_of_app. auto.
Qed.

End StoreOk.

(** ** From the store to the tree *)

Section Transfer.
Context {R : Type} (Pw : Word -> Prop) (Pl : text -> R -> Prop).

Lemma entry_ok_words (e : Entry R) w :
  entry_ok Pw Pl e -> In w (entry_words e) -> Pw w.
Proof.
  destruct e as [c|]; cbn; [|intros _ []].
  intros Hc (ws & (i & <- & Hi)%in_map_iff & Hw)%in_concat.
  rewrite Forall_forall in Hc. specialize (Hc i (proj2 (list_elem_of_In _ _) Hi)).
  destruct i as [srcs| | |l srcs]; cbn in *; try (destruct Hw);
    apply in_concat in Hw as (ws' & (src & <- & Hs)%in_map_iff & Hw);
    rewrite Forall_forall in Hc;
    specialize (Hc src (proj2 (list_elem_of_In _ _) Hs));
    unfold source_ok in Hc; rewrite Forall_forall in Hc;
    apply Hc, list_elem_of_In; assumption.
Qed.

Lemma document_ok_words (x : Document R) w :
  document_ok Pw Pl x -> w ∈ document_words x -> Pw w.
Proof.
  intros [Hc Ht] [Hw|Hw]%elem_of_app.
  - apply list_elem_of_In, in_concat in Hw as (ws & (e & <- & He)%in_map_iff & Hw).
    rewrite Forall_forall in Hc.
    eapply entry_ok_words; [apply Hc, list_elem_of_In|]; eassumption.
  - destruct (title x); [|apply elem_of_nil in Hw; destruct Hw].
    eapply entry_ok_words; [|apply list_elem_of_In]; eassumption.
Qed.

End Transfer.

Section Reify.
Context (Pw : Word -> Prop) (Pl : text -> nat -> Prop).
Context (r : nat -> option Tree).

Local Abbreviation Pl' := (fun (m : text) (_ : Tree) => exists d, Pl m d).

Lemma reify_item_ok i i' :
  reify_item r i = Some i' -> item_ok Pw Pl i -> item_ok Pw Pl' i'.
Proof.
  destruct i as [c|k d|m d|l c]; cbn.
  - intros [= <-]. auto.
  - destruct (r d); cbn; [|discriminate]. intros [= <-]. auto.
  - destruct (r d); cbn; [|discriminate]. intros [= <-]. cbn. eauto.
  - intros [= <-]. auto.
Qed.

Lemma reify_entry_ok e e' :
  reify_entry r e = Some e' -> entry_ok Pw Pl e -> entry_ok Pw Pl' e'.
Proof.
  destruct e as [c|l t d]; cbn.
  - destruct (mapM _ c) as [c'|] eqn:E; cbn; [|discriminate]. intros [= <-].
    apply mapM_Some in E. cbn. intros Hc.
    induction E as [|i i' c c' Hi _ IH]; [constructor|].
    inversion Hc; subst. constructor; eauto using reify_item_ok.
  - destruct (r d); cbn; [|discriminate]. intros [= <-]. auto.
Qed.

Lemma reify_content_ok c c' :
  mapM (reify_entry r) c = Some c' ->
  Forall (entry_ok Pw Pl) c -> Forall (entry_ok Pw Pl') c'.
Proof.
  intros E%mapM_Some Hc. induction E as [|e e' c c' He _ IH]; [constructor|].
  inversion Hc; subst. constructor; eauto using reify_entry_ok.
Qed.
End Reify.

Lemma reify_S fuel h d x :
  reify (S fuel) h d = Some (Node x) <->
  exists y, h !! d = Some y /\ indent x = indent y /\
    mapM (reify_entry (reify fuel h)) (content y) = Some (content x) /\
    match title y with
    | Some e => exists e', reify_entry (reify fuel h) e = Some e' /\
                           title x = Some e'
    | None => title x = None
    end.
Proof.
  cbn [reify]. split.
  - destruct (h !! d) as [y|]; cbn; [|discriminate].
    destruct (mapM _ _) as [c|] eqn:Ec; cbn; [|discriminate].
    destruct (title y) as [e|] eqn:Et; cbn.
    + destruct (reify_entry _ e) as [e'|] eqn:Ee; cbn; [|discriminate].
      intros [= <-]. exists y. rewrite Et. cbn. eauto 10.
    + intros [= <-]. exists y. rewrite Et. cbn. eauto 10.
  - intros (y & Hd & Hi & Hc & Ht). rewrite Hd. cbn. rewrite Hc. cbn.
    destruct x as [i t c]. cbn in *. subst i. destruct (title y) as [e|].
    + destruct Ht as (e' & -> & ->). reflexivity.
    + subst t. reflexivity.
Qed.

Lemma reify_refers fuel h d y t :
  reify (S fuel) h d = Some (Node y) -> refers y t ->
  exists d', reify fuel h d' = Some t.
Proof.
  intros (y0 & Hd & _ & Hc & Ht)%reify_S (e & He & Hr).
  assert (exists e0, reify_entry (reify fuel h) e0 = Some e) as [e0 He0].
  { destruct He as [He|He].
    - apply mapM_Some in Hc.
      apply list_elem_of_lookup in He as [i Hi].
      destruct (Forall2_lookup_r _ _ _ _ _ Hc Hi) as (e0 & _ & ?). eauto.
    - rewrite He in Ht. destruct (title y0) as [e0|]; [|discriminate].
      destruct Ht as (e' & ? & [= <-]). eauto. }
  destruct e0 as [c0|l0 t0 d0]; cbn in He0.
  - destruct (mapM _ c0) as [c|] eqn:E; cbn in He0; [|discriminate].
    injection He0 as <-. destruct Hr as (i & Hi & Hr).
    apply mapM_Some in E. apply list_elem_of_lookup in Hi as [j Hj].
    destruct (Forall2_lookup_r _ _ _ _ _ E Hj) as (i0 & _ & Hi0).
    destruct i0 as [|k d'|m d'|]; cbn in Hi0;
      try (injection Hi0 as <-; destruct Hr);
      destruct (reify fuel h d') eqn:E'; cbn in Hi0; try discriminate;
      injection Hi0 as <-; subst; eauto.
  - destruct (reify fuel h d0) eqn:E'; cbn in He0; [|discriminate].
    injection He0 as <-. subst. eauto.
Qed.

Lemma in_tree_reify h x t :
  in_tree x t -> forall fuel d, reify fuel h d = Some t ->
  exists fuel' d', reify (S fuel') h d' = Some (Node x).
Proof.
  induction 1 as [x|x y t Hr _ IH]; intros [|fuel] d E; try discriminate.
  - eauto.
  - destruct (reify_refers _ _ _ _ _ E Hr) as [d' E']. eauto.
Qed.

Lemma reify_document_ok Pw (Pl : text -> nat -> Prop) h fuel d x :
  store_ok Pw Pl h -> reify (S fuel) h d = Some (Node x) ->
  document_ok Pw (fun m (_ : Tree) => exists d, Pl m d) x.
Proof.
  intros Hh (y & Hy & _ & Hc & Ht)%reify_S.
  destruct (Forall_lookup_1 _ _ _ _ Hh Hy) as [Hyc Hyt]. split.
  - eapply reify_content_ok; eauto.
  - destruct (title y) as [e|].
    + destruct Ht as (e' & He' & ->). eapply reify_entry_ok; eauto.
    + rewrite Ht. exact I.
Qed.

(** What holds of every document of the store after the loop holds of
    every document of the tree. *)
Lemma parse_document_ok Pw (Pl : text -> nat -> Prop) file t x :
  (forall w, no_align w -> Pw w) ->
  (forall l m d, l ∈ splitlines file -> consumed l m -> Pl m d) ->
  parse file = inr t -> in_tree x t ->
  document_ok Pw (fun m (_ : Tree) => exists d, Pl m d) x.
Proof.
  intros HPw HPl Hp Hx. unfold parse in Hp.
  destruct (parse_lines _ _) as [root s|] eqn:E; [|discriminate].
  destruct (reify _ _ root) as [t'|] eqn:E'; [|discriminate].
  injection Hp as ->.
  destruct (in_tree_reify _ _ _ Hx _ _ E') as (fuel & d & Hd).
  eapply reify_document_ok; [|exact Hd].
  unfold parse_lines in E. apply bind_Ok in E as (u & s1 & E & E1).
  assert (heap s = heap s1) as ->.
  { unfold bind, get_stack in E1. destruct (stack s1); inversion E1; auto. }
  eapply (keeps_for_lines Pw Pl HPw); [| |exact E].
  - intros [no l] m d' Hl. apply HPl.
    clear -Hl. unfold enumerate in Hl. revert Hl. generalize 0.
    induction (splitlines file) as [|l' ls IH]; intros n; cbn;
      [intros []%elem_of_nil|].
    intros [[= -> ->]|Hl]%elem_of_cons; [left|right; eauto].
  - repeat constructor.
Qed.

(** ** No word is aligned *)

(** C10: no sigil of [mapping] toggles [ALIGN]; hence no word that the
    tokenizer emits carries it (a word carries the running modifier, so the
    test of line 312 is false at every word and the branch that clears the
    flag never runs), and no word of any document of the tree that [parse]
    returns, root or nested, in a content or in a title, carries it. *)
Theorem C10_no_align :
  (forall c applied, mapping c = Some applied -> has ALIGN applied = false) /\
  (forall ref t src w,
     tokenize ref t = inr src -> w ∈ src_content src ->
     has ALIGN (modifier w) = false) /\
  (forall file t x w,
     parse file = inr t -> in_tree x t -> w ∈ document_words x ->
     has ALIGN (modifier w) = false).
Proof.
  split; [|split].
  - intros c applied. unfold mapping.
    repeat (match goal with |- context [if is_char ?a c then _ else _] =>
              destruct (is_char a c) end);
      intros [= <-]; reflexivity.
  - intros ref t src w Hs Hw. pose proof (tokenize_no_align _ _ _ Hs) as H.
    rewrite Forall_forall in H. exact (H w Hw).
  - intros file t x w Hp Hx Hw.
    eapply (document_ok_words no_align); [|exact Hw].
    eapply (parse_document_ok no_align (fun _ _ => True)); eauto.
Qed.

Lemma C10_no_align_witness :
  has ALIGN (modifier (word "bold" BOLD)) = false.
Proof.
  refine (proj2 (proj2 C10_no_align) (file_of ["*bold* plain"]) _
            (doc 0 [Paragraph [Line [source 1 [word "bold" BOLD; word " " NONE;
                                               word "plain" NONE]]]])
            (word "bold" BOLD) _ _ _).
  - vm_compute. reflexivity.
  - constructor.
  - left.
Defined.

(** ** List markers *)





(** ** Trailing empty paragraphs *)

Section Full.
Context {R : Type}.
Implicit Types (c : list (Entry R)) (e : Entry R).


Lemma Forall_removelast {A} (P : A -> Prop) (l : list A) :
  Forall P l -> Forall P (removelast l).
Proof.
  induction 1 as [|x l Hx Hl IH]; cbn; [constructor|].
  destruct l; [constructor|]. constructor; assumption.
Qed.






End Full.







Lemma stack_snoc (st : list nat) d : last st = Some d -> st = removelast st ++ [d].
Proof. apply last_removelast. Qed.


Lemma below_or_top (st : list nat) d d' :
  last st = Some d -> d' ∈ st -> d' = d \/ d' ∈ removelast st.
Proof.
  intros Hl Hd. rewrite (stack_snoc _ _ Hl) in Hd.
  apply elem_of_app in Hd as [?|Hd]; [auto|].
  apply list_elem_of_singleton in Hd. auto.
Qed.


























Lemma when_Ok b (m : M unit) s u s' :
  when b m s = Ok u s' -> (b = true /\ m s = Ok u s') \/ (b = false /\ s' = s).
Proof. destruct b; cbn; [auto|]. intros [= _ <-]. auto. Qed.







Lemma block_lines_state it content s r s' :
  block_lines it content s = Ok r s' -> heap s' = heap s /\ stack s' = stack s.
Proof.
  revert content s. induction it as [|[no t] it IH]; intros content s E;
    cbn [block_lines] in E; [discriminate|].
  apply bind_Ok in E as (u & s1 & [= _ <-] & E).
  apply bind_Ok in E as (ind & s1 & [_ ->]%total_indent_Ok & E).
  destruct (is_block_end _).
  - injection E as _ <-. auto.
  - apply IH in E as [-> ->]. auto.
Qed.




















(** ** The list marker is matched within its fuel *)

Lemma match_list_unit_pos t k : match_list_unit t = Some k -> 0 < k.
Proof.
  unfold match_list_unit. destruct t as [|c t]; [discriminate|].
  repeat match goal with
         | |- context [if ?b then _ else _] => destruct b
         | |- context [match drop ?n ?l with _ => _ end] => destruct (drop n l)
         end; intros H; inversion H; lia.
Qed.

(** Every unit takes a character at least, so the repetition ends before
    a fuel of the length of the text does: more fuel changes nothing. *)
Lemma match_list_rest_fuel fuel fuel' t :
  length t <= fuel -> length t <= fuel' ->
  match_list_rest fuel t = match_list_rest fuel' t.
Proof.
  revert fuel' t. induction fuel as [|fuel IH]; intros [|fuel'] t H H';
    try reflexivity;
    try (destruct t; [reflexivity|cbn in H, H'; lia]).
  cbn [match_list_rest]. destruct (match_list_unit t) as [k|] eqn:E;
    [|reflexivity].
  apply match_list_unit_pos in E.
  rewrite (IH fuel' (drop k t)); [reflexivity| |];
    rewrite length_drop; lia.
Qed.

(** ** The references never dangle *)

Lemma runs_bind {A B} (m : M A) (k : A -> M B) Q R s :
  runs Q (m s) -> (forall a s1, wf s1 -> Q a s1 -> runs R (k a s1)) ->
  runs R (bind m k s).
Proof.
  unfold bind. destruct (m s) as [a s1|e s1]; cbn; [|auto].
  intros [Hw HQ] Hk. auto.
Qed.

Lemma runs_weaken {A} (Q R : A -> State -> Prop) o :
  runs Q o -> (forall a s, wf s -> Q a s -> R a s) -> runs R o.
Proof. destruct o; cbn; [|auto]. intros [Hw HQ] HR. auto. Qed.

Lemma runs_lift {A} (r : Error + A) (Q : A -> State -> Prop) s :
  wf s -> r <> inl Stuck -> (forall a, r = inr a -> Q a s) -> runs Q (lift r s).
Proof.
  intros Hw Hr HQ. destruct r as [e|a]; cbn.
  - split; [congruence|assumption].
  - auto.
Qed.

Section Bounded.
Implicit Types (e : Entry nat) (i : Item nat) (x : Document nat).

Lemma item_bounded_mono lo hi lo' hi' i :
  lo' <= lo -> hi <= hi' -> item_bounded lo hi i -> item_bounded lo' hi' i.
Proof. destruct i; cbn; auto; lia. Qed.

Lemma entry_bounded_mono lo hi lo' hi' e :
  lo' <= lo -> hi <= hi' -> entry_bounded lo hi e -> entry_bounded lo' hi' e.
Proof.
  intros ? ?. destruct e as [c|]; cbn; [|lia].
  intros Hc. eapply Forall_impl; [exact Hc|]. eauto using item_bounded_mono.
Qed.

Lemma document_bounded_mono lo hi hi' x :
  hi <= hi' -> document_bounded lo hi x -> document_bounded lo hi' x.
Proof.
  intros ? [Hc Ht]. split.
  - eapply Forall_impl; [exact Hc|]. eauto using entry_bounded_mono.
  - destruct (title x); eauto using entry_bounded_mono.
Qed.

Lemma document_bounded_last lo hi x e :
  document_bounded lo hi x -> last (content x) = Some e -> entry_bounded lo hi e.
Proof.
  intros [Hc _] Hl. rewrite Forall_forall in Hc. apply Hc.
  eapply last_Some_elem_of; eauto.
Qed.

Lemma Forall_last_removelast {A} (P : A -> Prop) (l : list A) a :
  Forall P l -> last l = Some a -> Forall P (removelast l) /\ P a.
Proof.
  intros H Hl. rewrite (last_removelast _ _ Hl) in H.
  apply Forall_app in H as [H1 H2]. rewrite Forall_singleton in H2. auto.
Qed.
End Bounded.

Lemma refs_below_insert B h d x y :
  refs_below B h -> h !! d = Some x -> document_bounded d B y ->
  refs_below B (<[d := y]> h).
Proof.
  intros H Hx Hy d' x'. destruct (decide (d = d')) as [<-|Hne].
  - rewrite list_lookup_insert_eq by (eapply lookup_lt_Some; eauto).
    intros [= <-]. assumption.
  - rewrite list_lookup_insert_ne by assumption. apply H.
Qed.

Lemma wf_insert s d x y :
  wf s -> heap s !! d = Some x -> document_bounded d (length (heap s)) y ->
  wf (with_heap s (<[d := y]> (heap s))).
Proof.
  intros (Hl & Hr & Hs) Hx Hy. unfold wf, wf_at. cbn.
  rewrite length_insert. split; [lia|]. split; [|assumption].
  eapply refs_below_insert; eauto.
Qed.

Lemma wf_lookup s d : wf s -> d < length (heap s) ->
  exists x, heap s !! d = Some x /\ document_bounded d (length (heap s)) x.
Proof.
  intros (_ & Hr & _) Hd. destruct (lookup_lt_is_Some_2 _ _ Hd) as [x Hx].
  eauto.
Qed.

Lemma wf_top s d : wf s -> last (stack s) = Some d -> d < length (heap s).
Proof.
  intros (_ & _ & _ & _ & Hb) Hd. rewrite Forall_forall in Hb. apply Hb.
  eapply last_Some_elem_of; eauto.
Qed.

Lemma wf_ext s s' : heap s' = heap s -> stack s' = stack s -> wf s -> wf s'.
Proof. unfold wf, wf_at. intros -> ->. auto. Qed.

Lemma runs_ret {A} (a : A) (Q : A -> State -> Prop) s :
  wf s -> Q a s -> runs Q (ret a s).
Proof. cbn. auto. Qed.

Lemma runs_raise {A} e (Q : A -> State -> Prop) s :
  wf s -> e <> Stuck -> runs Q (raise e s).
Proof. cbn. auto. Qed.

(** A computation that reads the state and does not get stuck. *)
Lemma runs_read {A} (m : M A) (Q : A -> State -> Prop) s :
  wf s -> (forall e s', m s = Raise e s' -> e <> Stuck /\ s' = s) ->
  (forall a s', m s = Ok a s' -> s' = s /\ Q a s) ->
  runs (fun a s' => s' = s /\ Q a s) (m s).
Proof.
  intros Hw He Ha. destruct (m s) as [a s'|e s'] eqn:E; cbn.
  - destruct (Ha _ _ eq_refl) as [-> ?]. auto.
  - destruct (He _ _ eq_refl) as [? ->]. auto.
Qed.

Lemma runs_document s :
  wf s ->
  runs (fun d s' => s' = s /\ last (stack s) = Some d /\ d < length (heap s))
       (document s).
Proof.
  intros Hw. unfold document, bind, get_stack.
  destruct (last (stack s)) as [d|] eqn:E; cbn.
  - eauto using wf_top.
  - split; [discriminate|assumption].
Qed.

Lemma runs_total_indent s :
  wf s -> runs (fun _ s' => s' = s) (total_indent s).
Proof.
  intros Hw. unfold total_indent, bind, get_heap, get_stack.
  destruct (indent_sum_valid (heap s) (stack s)) as [n Hn].
  { destruct Hw as (_ & _ & _ & _ & Hb).
    eapply Forall_impl; [exact Hb|]. intros d Hd.
    apply lookup_lt_is_Some_2. exact Hd. }
  rewrite Hn. cbn. auto.
Qed.

Lemma runs_load s d :
  wf s -> d < length (heap s) ->
  runs (fun x s' => s' = s /\ heap s !! d = Some x /\
                    document_bounded d (length (heap s)) x) (load d s).
Proof.
  intros Hw Hd. destruct (wf_lookup _ _ Hw Hd) as (x & Hx & Hb).
  unfold load, bind, get_heap. rewrite Hx. cbn. auto.
Qed.

Lemma runs_store s d x y :
  wf s -> heap s !! d = Some x -> document_bounded d (length (heap s)) y ->
  runs (fun _ s' => s' = with_heap s (<[d := y]> (heap s))) (store d y s).
Proof.
  intros Hw Hx Hy. unfold store, bind, get_heap, set_heap. cbn.
  split; [|reflexivity]. eapply wf_insert; eauto.
Qed.

Lemma all_empty_not_stuck {R} (c : list (Entry R)) : all_empty c <> inl Stuck.
Proof.
  induction c as [|[[|i c']|l t d] c IH]; cbn; try discriminate; assumption.
Qed.

Lemma runs_Document_empty s d :
  wf s -> d < length (heap s) ->
  runs (fun _ s' => s' = s) (Document_empty d s).
Proof.
  intros Hw Hd. unfold Document_empty.
  eapply runs_bind; [apply runs_load; assumption|].
  intros x s1 _ (-> & _ & _).
  apply runs_lift; auto using all_empty_not_stuck.
Qed.

Lemma paragraph_in_runs B h fuel d :
  refs_below B h -> B <= length h -> d < B -> B - d <= fuel ->
  match paragraph_in fuel h d with
  | inr p => d <= p < B /\ ends_in_paragraph h p
  | inl e => e <> Stuck
  end.
Proof.
  intros Hr HB. revert d. induction fuel as [|fuel IH]; intros d Hd Hf;
    [lia|]. cbn [paragraph_in].
  assert (Hlt : d < length h) by lia.
  destruct (lookup_lt_is_Some_2 h d Hlt) as [x Hx]. rewrite Hx.
  destruct (last (content x)) as [[c|l t d']|] eqn:E; [| |discriminate].
  - split; [lia|]. exists x, c. auto.
  - pose proof (document_bounded_last _ _ _ _ (Hr _ _ Hx) E) as Hb. cbn in Hb.
    assert (H1 : d' < B) by lia. assert (H2 : B - d' <= fuel) by lia.
    specialize (IH d' H1 H2).
    destruct (paragraph_in fuel h d'); [assumption|].
    destruct IH as [? ?]. split; [lia|assumption].
Qed.

Lemma runs_Document_paragraph B s d :
  wf s -> refs_below B (heap s) -> B <= length (heap s) -> d < B ->
  runs (fun p s' => s' = s /\ p < B /\ ends_in_paragraph (heap s) p)
       (Document_paragraph d s).
Proof.
  intros Hw Hr HB Hd. unfold Document_paragraph, bind, get_heap.
  assert (Hf : B - d <= length (heap s)) by lia.
  pose proof (paragraph_in_runs B (heap s) (length (heap s)) d Hr HB Hd Hf)
    as H.
  destruct (paragraph_in _ _ d) as [e|p]; cbn; [auto|].
  destruct H as [[? ?] ?]. auto.
Qed.

Lemma line_in_runs h fuel p :
  refs_below (length h) h -> p < length h -> length h - p <= fuel ->
  ends_in_paragraph h p ->
  match line_in fuel h p with
  | inr l => forall d, l = Some d -> ends_in_line h d
  | inl e => e <> Stuck
  end.
Proof.
  intros Hr. revert p. induction fuel as [|fuel IH];
    intros p Hp Hf (x & c & Hx & Hl); [lia|]. cbn [line_in].
  rewrite Hx, Hl.
  assert (Hnested : forall d', item_bounded p (length h) (Aside PLAIN d') ->
            match match paragraph_in fuel h d' with
                  | inl e => inl e
                  | inr d'' => line_in fuel h d''
                  end with
            | inr l => forall d, l = Some d -> ends_in_line h d
            | inl e => e <> Stuck
            end).
  { intros d' Hb. cbn in Hb.
    assert (H1 : length h <= length h) by lia.
    assert (H2 : d' < length h) by lia.
    assert (H3 : length h - d' <= fuel) by lia.
    pose proof (paragraph_in_runs (length h) h fuel d' Hr H1 H2 H3) as H.
    destruct (paragraph_in fuel h d') as [e|d'']; [assumption|].
    destruct H as [? ?]. apply IH; [lia|lia|assumption]. }
  destruct (last c) as [[srcs|k d'|m d'|lang srcs]|] eqn:E.
  - intros d [= <-]. exists x, c, srcs. auto.
  - apply Hnested.
    pose proof (document_bounded_last _ _ _ _ (Hr _ _ Hx) Hl) as Hb.
    cbn in Hb. rewrite Forall_forall in Hb.
    apply (Hb (Aside k d')). eapply last_Some_elem_of; eauto.
  - apply Hnested.
    pose proof (document_bounded_last _ _ _ _ (Hr _ _ Hx) Hl) as Hb.
    cbn in Hb. rewrite Forall_forall in Hb.
    apply (Hb (List_ m d')). eapply last_Some_elem_of; eauto.
  - discriminate.
  - discriminate.
Qed.

Lemma runs_Paragraph_line s p :
  wf s -> p < length (heap s) -> ends_in_paragraph (heap s) p ->
  runs (fun l s' => s' = s /\ forall d, l = Some d -> ends_in_line (heap s) d)
       (Paragraph_line p s).
Proof.
  intros Hw Hp He. unfold Paragraph_line, bind, get_heap.
  assert (Hf : length (heap s) - p <= length (heap s)) by lia.
  pose proof (line_in_runs (heap s) (length (heap s)) p
                (proj1 (proj2 Hw)) Hp Hf He) as H.
  destruct (line_in _ _ p) as [e|l]; cbn; auto.
Qed.

Lemma runs_Paragraph_empty s p :
  wf s -> ends_in_paragraph (heap s) p ->
  runs (fun _ s' => s' = s) (Paragraph_empty p s).
Proof.
  intros Hw (x & c & Hx & Hl).
  assert (E : Paragraph_empty p s = Ok (length c =? 0) s)
    by (apply Paragraph_empty_Ok; eauto 10).
  rewrite E. cbn. auto.
Qed.

(** The last paragraph of [p] gets the content [c']. *)
Lemma wf_set_paragraph s p x c c' :
  wf s -> heap s !! p = Some x -> last (content x) = Some (Paragraph c) ->
  Forall (item_bounded p (length (heap s))) c' ->
  wf (with_heap s (<[p := set_content x
                            (removelast (content x) ++ [Paragraph c'])]>
                     (heap s))).
Proof.
  intros Hw Hx Hl Hc'. eapply wf_insert; eauto.
  destruct Hw as (_ & Hr & _). destruct (Hr _ _ Hx) as [Hc Ht].
  split; [|exact Ht]. cbn.
  apply Forall_app. split.
  - exact (proj1 (Forall_last_removelast _ _ _ Hc Hl)).
  - apply Forall_singleton. exact Hc'.
Qed.

Lemma last_paragraph_bounded s p x c :
  wf s -> heap s !! p = Some x -> last (content x) = Some (Paragraph c) ->
  Forall (item_bounded p (length (heap s))) c.
Proof.
  intros (_ & Hr & _) Hx Hl.
  exact (document_bounded_last _ _ _ _ (Hr _ _ Hx) Hl).
Qed.

Lemma runs_Paragraph_append s p i :
  wf s -> ends_in_paragraph (heap s) p ->
  item_bounded p (length (heap s)) i ->
  runs (fun _ s' => same_shape s s') (Paragraph_append p i s).
Proof.
  intros Hw (x & c & Hx & Hl) Hi.
  erewrite (proj2 (Paragraph_append_Ok p i s tt _)) by eauto 10.
  split.
  - eapply wf_set_paragraph; eauto. apply Forall_app. split.
    + eapply last_paragraph_bounded; eauto.
    + apply Forall_singleton. exact Hi.
  - split; [reflexivity|]. cbn. apply length_insert.
Qed.

Lemma runs_Line_append s l src :
  wf s -> (forall d, l = Some d -> ends_in_line (heap s) d) ->
  runs (fun _ s' => same_shape s s') (Line_append l src s).
Proof.
  intros Hw Hl. destruct l as [d|]; [|cbn; split; [discriminate|assumption]].
  destruct (Hl d eq_refl) as (x & c & srcs & Hx & Hc & Hs).
  erewrite (proj2 (Line_append_Ok (Some d) src s tt _)) by eauto 10.
  split.
  - eapply wf_set_paragraph; eauto. apply Forall_app. split.
    + apply Forall_removelast. eapply last_paragraph_bounded; eauto.
    + apply Forall_singleton. exact I.
  - split; [reflexivity|]. cbn. apply length_insert.
Qed.

Lemma runs_Document_append s d e :
  wf s -> d < length (heap s) -> entry_bounded d (length (heap s)) e ->
  runs (fun _ s' => same_shape s s') (Document_append d e s).
Proof.
  intros Hw Hd He. unfold Document_append.
  eapply runs_bind; [apply runs_load; assumption|].
  intros x s1 _ (-> & Hx & [Hc Ht]).
  eapply runs_weaken.
  - eapply runs_store; eauto. split; [|exact Ht]. cbn.
    apply Forall_app. split; [assumption|]. apply Forall_singleton. exact He.
  - intros _ s' _ ->. split; [reflexivity|]. cbn. apply length_insert.
Qed.

Lemma runs_Document_pop s d :
  wf s -> d < length (heap s) ->
  runs (fun e s' => same_shape s s' /\ entry_bounded d (length (heap s)) e)
       (Document_pop d s).
Proof.
  intros Hw Hd. unfold Document_pop.
  eapply runs_bind; [apply runs_load; assumption|].
  intros x s1 _ (-> & Hx & [Hc Ht]).
  destruct (last (content x)) as [e|] eqn:E;
    [|apply runs_raise; [assumption|discriminate]].
  destruct (Forall_last_removelast _ _ _ Hc E) as [Hc' He].
  eapply runs_bind.
  - eapply runs_store; eauto. split; [exact Hc'|exact Ht].
  - intros _ s' Hw' ->. apply runs_ret; [assumption|].
    split; [|exact He]. split; [reflexivity|]. cbn. apply length_insert.
Qed.

Lemma wf_same_shape s s' B :
  same_shape s s' -> wf_stack B (stack s) -> wf_stack B (stack s').
Proof. intros [-> _]. auto. Qed.

Lemma runs_when (Q : unit -> State -> Prop) b (m : M unit) s :
  wf s -> (b = true -> runs Q (m s)) -> (b = false -> Q tt s) ->
  runs Q (when b m s).
Proof. intros Hw Hm Hq. destruct b; cbn; auto. Qed.

Lemma runs_stack_pop s :
  wf s -> 1 < length (stack s) ->
  runs (fun prev s' =>
          heap s' = heap s /\ stack s = stack s' ++ [prev] /\
          prev < length (heap s) /\ Forall (fun d => d < prev) (stack s'))
       (stack_pop s).
Proof.
  intros (Hl & Hr & Hne & Hs & Hb) Hlen.
  unfold stack_pop, bind, get_stack, set_stack.
  destruct (last (stack s)) as [prev|] eqn:E; cbn; cycle 1.
  { apply last_None in E. congruence. }
  pose proof (stack_snoc _ _ E) as Hst. rewrite Hst in Hs, Hb.
  apply StronglySorted_app in Hs as (Hlt & Hs & _).
  apply Forall_app in Hb as [Hb Hp]. rewrite Forall_singleton in Hp.
  split; [split; [assumption|split; [assumption|split; [|split]]]|].
  - intros Hnil. cbn in Hnil. rewrite Hnil in Hst. rewrite Hst in Hlen.
    cbn in Hlen. lia.
  - assumption.
  - assumption.
  - split; [reflexivity|]. split; [assumption|]. split; [assumption|].
    apply Forall_forall. intros d Hd. apply Hlt; [assumption|left].
Qed.

Lemma runs_stack_push s v :
  wf s -> v < length (heap s) -> Forall (fun d => d < v) (stack s) ->
  runs (fun _ s' => heap s' = heap s /\ stack s' = stack s ++ [v])
       (stack_push v s).
Proof.
  intros (Hl & Hr & Hne & Hs & Hb) Hv Hlt.
  unfold stack_push, bind, get_stack, set_stack. cbn.
  split; [|auto]. split; [assumption|split; [assumption|split; [|split]]].
  - destruct (stack s); discriminate.
  - apply StronglySorted_app_2; [|assumption|repeat constructor].
    intros d1 d2 Hd1 ->%list_elem_of_singleton.
    rewrite Forall_forall in Hlt. auto.
  - apply Forall_app. split; [assumption|]. apply Forall_singleton. assumption.
Qed.

Lemma refs_below_alloc B h n :
  B <= S (length h) -> length h <= B ->
  refs_below (length h) h -> refs_below B (h ++ [new_document n]).
Proof.
  intros HB HB' Hr d x Hx. destruct (decide (d < length h)) as [Hd|Hd].
  - rewrite lookup_app_l in Hx by assumption.
    eapply document_bounded_mono; [|eauto]. assumption.
  - rewrite lookup_app_r in Hx by lia.
    destruct (d - length h) as [|k]; cbn in Hx; [|discriminate].
    injection Hx as <-. split; cbn; [|exact I]. repeat constructor.
Qed.

Lemma runs_alloc s n :
  wf s ->
  runs (fun v s' => v = length (heap s) /\ S v = length (heap s') /\
                    stack s' = stack s /\ wf_at v s')
       (alloc (new_document n) s).
Proof.
  intros (Hl & Hr & Hne & Hs & Hb).
  unfold alloc, bind, get_heap, set_heap, ret. cbn.
  assert (Hlen : length (heap s ++ [new_document n]) = S (length (heap s)))
    by (rewrite length_app; cbn; lia).
  split; [|split; [reflexivity|split; [auto|split; [reflexivity|]]]].
  - unfold wf, wf_at. cbn. rewrite Hlen.
    split; [lia|]. split; [apply refs_below_alloc; auto|].
    split; [assumption|split; [assumption|]].
    eapply Forall_impl; [exact Hb|]. cbn. lia.
  - unfold wf_at. cbn. rewrite Hlen. split; [lia|].
    split; [apply refs_below_alloc; auto|]. split; auto.
Qed.

Lemma runs_current_paragraph s d :
  wf s -> d < length (heap s) ->
  runs (fun p s' => s' = s /\ p < length (heap s) /\
                    ends_in_paragraph (heap s) p)
       (Document_paragraph d s).
Proof.
  intros Hw Hd.
  apply runs_Document_paragraph;
    [assumption|exact (proj1 (proj2 Hw))|lia|assumption].
Qed.

Lemma wf_lineno s n : wf s -> wf (with_lineno s n).
Proof. apply wf_ext; reflexivity. Qed.

Lemma runs_pop_one s :
  wf s -> 1 < length (stack s) ->
  runs (fun _ s' => length (stack s') < length (stack s)) (pop_one s).
Proof.
  intros Hw Hlen. unfold pop_one.
  eapply runs_bind; [apply runs_stack_pop; assumption|].
  intros prev s1 Hw1 (Hh & Hst & Hp & Hlt). rewrite <- Hh in Hp.
  assert (Hshort : length (stack s1) < length (stack s))
    by (rewrite Hst, length_app; cbn; lia).
  eapply runs_bind; [apply runs_Document_empty; assumption|].
  intros e s2 _ ->. destruct e; [apply runs_ret; assumption|].
  eapply runs_bind; [apply runs_current_paragraph; assumption|].
  intros p s2 _ (-> & Hpl & Hpe).
  eapply runs_bind; [apply runs_Paragraph_empty; assumption|].
  intros pe s2 _ ->. apply runs_when; [assumption| |auto].
  intros _. eapply runs_bind; [apply runs_document; assumption|].
  intros d s2 _ (-> & Hd & Hdl).
  eapply runs_bind; [apply runs_Document_pop; assumption|].
  intros x s2 Hw2 ([Hs2 Hl2] & Hx).
  eapply runs_weaken.
  - apply runs_Document_append; [assumption|lia|].
    rewrite Hl2. eapply entry_bounded_mono; [| |exact Hx]; [|lia].
    rewrite Forall_forall in Hlt.
    assert (d < prev); [|lia]. apply Hlt. eapply last_Some_elem_of; eauto.
  - intros u0 s3 _ [Hs3 _]. rewrite Hs3, Hs2. assumption.
Qed.

Lemma runs_pop_loop fuel t s :
  wf s -> length (stack s) <= fuel ->
  runs (fun _ _ => True) (pop_loop fuel t s).
Proof.
  revert s. induction fuel as [|fuel IH]; intros s Hw Hf.
  { destruct Hw as (_ & _ & Hne & _). destruct (stack s); [congruence|].
    cbn in Hf. lia. }
  cbn [pop_loop]. unfold bind at 1, get_stack.
  destruct (1 <? length (stack s)) eqn:E1; cbn [andb];
    [|apply runs_ret; auto].
  destruct (0 <? length t); [|apply runs_ret; auto].
  apply Nat.ltb_lt in E1.
  eapply runs_bind; [apply runs_total_indent; assumption|].
  intros ind s1 _ ->.
  destruct (negb _); [|apply runs_ret; auto].
  eapply runs_bind; [apply runs_pop_one; assumption|].
  intros u0 s1 Hw1 Hlt. cbv beta in Hlt. apply IH; [assumption|lia].
Qed.

Lemma runs_claim_space ref t s :
  wf s -> runs (fun _ _ => True) (claim_space ref t s).
Proof.
  intros Hw. unfold claim_space.
  eapply runs_bind; [apply runs_document; assumption|].
  intros d s1 _ (-> & Hd & Hdl).
  eapply runs_bind; [apply runs_Document_empty; assumption|].
  intros e s1 _ ->. destruct e; [|apply runs_ret; auto].
  unfold bind at 1, get_stack.
  destruct (_ && _); [apply runs_raise; [assumption|discriminate]|].
  eapply runs_bind; [apply runs_document; assumption|].
  intros d' s1 _ (-> & Hd' & Hdl').
  eapply runs_bind; [apply runs_load; assumption|].
  intros x s1 _ (-> & Hx & Hb).
  eapply runs_bind; [eapply runs_store; eauto|].
  intros u0 s1 Hw1 _. apply runs_ret; auto.
Qed.

Lemma runs_strip_indent ref t s :
  wf s -> runs (fun _ _ => True) (strip_indent ref t s).
Proof.
  intros Hw. unfold strip_indent, pop_scopes.
  eapply runs_bind.
  { unfold bind, get_stack. apply runs_pop_loop; [assumption|lia]. }
  intros u0 s1 Hw1 _.
  eapply runs_bind; [apply runs_total_indent; assumption|].
  intros ind s2 _ ->. apply runs_claim_space. assumption.
Qed.

Lemma runs_mark_title s : wf s -> runs (fun _ _ => True) (mark_title s).
Proof.
  intros Hw. unfold mark_title.
  eapply runs_bind; [apply runs_document; assumption|].
  intros d s1 _ (-> & Hd & Hdl).
  eapply runs_bind; [apply runs_Document_pop; assumption|].
  intros e s1 Hw1 ([Hs1 Hl1] & He).
  eapply runs_bind; [apply runs_document; assumption|].
  intros d' s2 _ (-> & Hd' & Hdl').
  rewrite Hs1, Hd in Hd'. injection Hd' as <-.
  eapply runs_bind; [apply runs_load; assumption|].
  intros x s2 _ (-> & Hx & [Hc Ht]).
  eapply runs_bind.
  { eapply runs_store; eauto. split; [exact Hc|]. cbn. rewrite Hl1. exact He. }
  intros u0 s2 Hw2 ->.
  eapply runs_bind; [apply runs_document; assumption|].
  intros d2 s3 _ (-> & Hd2 & Hdl2).
  eapply runs_weaken;
    [apply runs_Document_append; [assumption|assumption|constructor]|auto].
Qed.

(** A new scope: a new document, a node for it in the current paragraph,
    and the document on the stack. *)
Lemma runs_open_scope {A} n (node : nat -> Item nat) (k : M A) Q s :
  wf s -> (forall p v, p < v -> item_bounded p (S v) (node v)) ->
  (forall s', wf s' -> runs Q (k s')) ->
  runs Q
    ((virtual_document <- alloc (new_document n) ;;
      d <- document ;;
      p <- Document_paragraph d ;;
      Paragraph_append p (node virtual_document) ;;;
      stack_push virtual_document ;;;
      k) s).
Proof.
  intros Hw Hnode Hk.
  eapply runs_bind; [apply runs_alloc; assumption|].
  intros v s1 Hw1 (Hv & Hlen & Hst & (HB & Hr & Hne & Hs & Hb)).
  eapply runs_bind; [apply runs_document; assumption|].
  intros d s2 _ (-> & Hd & Hdl).
  assert (Hdv : d < v).
  { rewrite Forall_forall in Hb. apply Hb. eapply last_Some_elem_of; eauto. }
  eapply runs_bind; [apply (runs_Document_paragraph v); assumption|].
  intros p s2 _ (-> & Hp & Hpe).
  eapply runs_bind.
  { apply runs_Paragraph_append; [assumption|assumption|].
    rewrite <- Hlen. apply Hnode. assumption. }
  intros u s2 Hw2 [Hs2 Hl2].
  eapply runs_bind.
  { apply runs_stack_push; [assumption| |].
    - rewrite Hl2, <- Hlen. lia.
    - rewrite Hs2. assumption. }
  intros u' s3 Hw3 _. apply Hk. assumption.
Qed.

Lemma runs_open_aside t s : wf s -> runs (fun _ _ => True) (open_aside t s).
Proof.
  intros Hw. unfold open_aside.
  destruct (match_aside t) as [[n kind]|]; [|apply runs_ret; auto].
  apply (runs_open_scope n (Aside kind)); [assumption| |].
  - intros p v Hpv. cbn. lia.
  - intros s' Hw'. apply runs_ret; auto.
Qed.

Lemma runs_open_list t s : wf s -> runs (fun _ _ => True) (open_list t s).
Proof.
  intros Hw. unfold open_list.
  destruct (match_list t) as [n|]; [|apply runs_ret; auto].
  apply (runs_open_scope (length (take n t)) (List_ (take n t)));
    [assumption| |].
  - intros p v Hpv. cbn. lia.
  - intros s' Hw'. apply runs_ret; auto.
Qed.

Lemma runs_open_section level pad title s :
  wf s -> runs (fun _ _ => True) (open_section level pad title s).
Proof.
  intros Hw. unfold open_section.
  eapply runs_bind; [apply runs_document; assumption|].
  intros d s1 _ (-> & Hd & Hdl).
  eapply runs_bind; [apply runs_current_paragraph; assumption|].
  intros p s1 _ (-> & Hp & Hpe).
  eapply runs_bind; [apply runs_Paragraph_empty; assumption|].
  intros pe s1 _ ->.
  eapply runs_bind.
  { apply runs_when with (Q := fun _ _ => True); [assumption| |auto].
    intros _. eapply runs_bind; [apply runs_document; assumption|].
    intros d' s1 _ (-> & Hd' & Hdl').
    eapply runs_bind; [apply runs_Document_pop; assumption|].
    intros e s1 Hw1 _. apply runs_ret; auto. }
  intros u s1 Hw1 _.
  eapply runs_bind; [apply runs_alloc; assumption|].
  intros v s2 Hw2 (Hv & Hlen & Hst & (HB & Hr & Hne & Hs & Hb)).
  eapply runs_bind; [apply runs_document; assumption|].
  intros d' s3 _ (-> & Hd' & Hdl').
  assert (Hdv : d' < v).
  { rewrite Forall_forall in Hb. apply Hb. eapply last_Some_elem_of; eauto. }
  eapply runs_bind.
  { apply runs_Document_append; [assumption|assumption|].
    cbn. rewrite <- Hlen. lia. }
  intros u' s3 Hw3 [Hs3 Hl3].
  eapply runs_weaken.
  - apply runs_stack_push; [assumption| |].
    + rewrite Hl3, <- Hlen. lia.
    + rewrite Hs3. assumption.
  - auto.
Qed.

Lemma runs_block_lines it content s :
  wf s -> runs (fun r _ => snd r `suffix_of` it) (block_lines it content s).
Proof.
  revert content s. induction it as [|[no t] it IH]; intros content s Hw;
    cbn [block_lines]; [apply runs_raise; [assumption|discriminate]|].
  unfold bind at 1, set_lineno.
  eapply runs_bind; [apply runs_total_indent, wf_lineno; assumption|].
  intros ind s1 Hw1 ->.
  destruct (is_block_end _).
  - apply runs_ret; [assumption|]. cbn. apply suffix_cons_r. reflexivity.
  - eapply runs_weaken; [apply IH; assumption|].
    intros r s2 _ Hr. apply suffix_cons_r. assumption.
Qed.

Lemma runs_read_block language it s :
  wf s -> runs (fun it' _ => it' `suffix_of` it) (read_block language it s).
Proof.
  intros Hw. unfold read_block.
  eapply runs_bind; [apply runs_block_lines; assumption|].
  intros r s1 Hw1 Hr.
  eapply runs_bind; [apply runs_document; assumption|].
  intros d s2 _ (-> & Hd & Hdl).
  eapply runs_bind; [apply runs_current_paragraph; assumption|].
  intros p s2 _ (-> & Hp & Hpe).
  eapply runs_bind;
    [apply runs_Paragraph_append; [assumption|assumption|exact I]|].
  intros u s2 Hw2 _. apply runs_ret; assumption.
Qed.

Lemma runs_break_paragraph s :
  wf s -> runs (fun _ _ => True) (break_paragraph s).
Proof.
  intros Hw. unfold break_paragraph.
  eapply runs_bind; [apply runs_document; assumption|].
  intros d s1 _ (-> & Hd & Hdl).
  eapply runs_bind; [apply runs_current_paragraph; assumption|].
  intros p s1 _ (-> & Hp & Hpe).
  eapply runs_bind; [apply runs_Paragraph_empty; assumption|].
  intros pe s1 _ ->.
  destruct pe; [apply runs_ret; auto|].
  eapply runs_bind; [apply runs_document; assumption|].
  intros d' s1 _ (-> & Hd' & Hdl').
  eapply runs_weaken;
    [apply runs_Document_append; [assumption|assumption|constructor]|auto].
Qed.

Lemma runs_open_line ref t s :
  wf s -> runs (fun _ _ => True) (open_line ref t s).
Proof.
  intros Hw. unfold open_line.
  eapply runs_bind; [apply runs_document; assumption|].
  intros d s1 _ (-> & Hd & Hdl).
  eapply runs_bind; [apply runs_current_paragraph; assumption|].
  intros p s1 _ (-> & Hp & Hpe).
  destruct (starts_nonspace t).
  - eapply runs_bind;
      [apply runs_Paragraph_append; [assumption|assumption|exact I]|].
    intros u s1 Hw1 _. apply runs_ret; auto.
  - eapply runs_bind; [apply runs_Paragraph_empty; assumption|].
    intros pe s1 _ ->.
    destruct pe; [apply runs_raise; [assumption|discriminate]|].
    apply runs_ret; auto.
Qed.

Lemma words_loop_not_stuck ref ws m acc : words_loop ref ws m acc <> inl Stuck.
Proof.
  revert m acc. induction ws as [|w ws IH]; intros m acc; cbn; [discriminate|].
  destruct w as [|c w']; [apply IH|].
  destruct (mapping c); [apply IH|].
  destruct (_ && _); [discriminate|apply IH].
Qed.

Lemma tokenize_not_stuck ref t : tokenize ref t <> inl Stuck.
Proof.
  unfold tokenize.
  pose proof (words_loop_not_stuck ref (re_split (Plain []) (rstrip t)) NONE [])
    as H.
  destruct (words_loop _ _ _ _); [congruence|discriminate].
Qed.

Lemma runs_append_words ref t s :
  wf s -> runs (fun _ _ => True) (append_words ref t s).
Proof.
  intros Hw. unfold append_words.
  eapply runs_bind.
  { apply runs_lift with (Q := fun _ s' => s' = s);
      [assumption|apply tokenize_not_stuck|intros; reflexivity]. }
  intros src s1 _ ->.
  eapply runs_bind; [apply runs_document; assumption|].
  intros d s1 _ (-> & Hd & Hdl).
  eapply runs_bind; [apply runs_current_paragraph; assumption|].
  intros p s1 _ (-> & Hp & Hpe).
  eapply runs_bind; [apply runs_Paragraph_line; assumption|].
  intros l s1 _ (-> & Hl).
  eapply runs_weaken; [apply runs_Line_append; assumption|auto].
Qed.

Lemma runs_inline_rules ref t s :
  wf s -> runs (fun _ _ => True) (inline_rules ref t s).
Proof.
  intros Hw. unfold inline_rules.
  eapply runs_bind; [apply runs_open_aside; assumption|].
  intros t1 s1 Hw1 _.
  eapply runs_bind; [apply runs_open_list; assumption|].
  intros t2 s2 Hw2 _.
  destruct (is_blank t2); [apply runs_break_paragraph; assumption|].
  eapply runs_bind; [apply runs_open_line; assumption|].
  intros t3 s3 Hw3 _. apply runs_append_words. assumption.
Qed.

Lemma runs_process_line ref t it s :
  wf s -> runs (fun it' _ => it' `suffix_of` it) (process_line ref t it s).
Proof.
  intros Hw. unfold process_line.
  eapply runs_bind; [apply runs_strip_indent; assumption|].
  intros t1 s1 Hw1 _.
  destruct (is_title t1).
  { eapply runs_bind; [apply runs_mark_title; assumption|].
    intros u s2 Hw2 _. apply runs_ret; [assumption|reflexivity]. }
  destruct (match_heading t1) as [[[level pad] title]|].
  { eapply runs_bind; [apply runs_open_section; assumption|].
    intros u s2 Hw2 _. apply runs_ret; [assumption|reflexivity]. }
  destruct (match_block t1) as [language|];
    [apply runs_read_block; assumption|].
  eapply runs_bind; [apply runs_inline_rules; assumption|].
  intros u s2 Hw2 _. apply runs_ret; [assumption|reflexivity].
Qed.

Lemma runs_handler lines e (Q : Lines -> State -> Prop) s :
  wf s -> e <> Stuck -> runs Q (handler lines e s).
Proof.
  intros Hw He. unfold handler.
  eapply runs_bind; [apply runs_total_indent; assumption|].
  intros ind s1 _ ->. cbv beta.
  destruct (lines !! lineno s) as [l|]; [destruct (ind <? length l)|];
    cbn; split; auto; discriminate.
Qed.

Lemma runs_try (m : M Lines) lines Q s :
  runs Q (m s) -> runs Q (try m (handler lines) s).
Proof.
  unfold try. destruct (m s) as [a s'|e s']; [auto|].
  intros [He Hw]. apply runs_handler; assumption.
Qed.

Lemma runs_for_lines fuel lines it s :
  wf s -> length it <= fuel ->
  runs (fun _ _ => True) (for_lines fuel lines it s).
Proof.
  revert it s. induction fuel as [|fuel IH]; intros [|[no t] it] s Hw Hf;
    cbn [for_lines]; try (apply runs_ret; auto).
  - cbn in Hf. lia.
  - unfold bind at 1, set_lineno.
    eapply runs_bind;
      [apply runs_try, runs_process_line, wf_lineno; assumption|].
    intros it' s1 Hw1 Hs. apply IH; [assumption|].
    apply suffix_length in Hs. cbn in Hf. lia.
Qed.

Lemma enumerate_from_length start lines :
  length (enumerate_from start lines) = length lines.
Proof.
  revert start. induction lines as [|l lines IH]; intros start; cbn;
    [reflexivity|]. rewrite IH. reflexivity.
Qed.

Lemma wf_initial : wf initial.
Proof.
  unfold wf, wf_at, initial. cbn. split; [lia|]. split.
  - intros d x Hx. destruct d as [|d]; cbn in Hx; [|discriminate].
    injection Hx as <-. split; cbn; [repeat constructor|exact I].
  - split; [discriminate|]. split; repeat constructor.
Qed.

Lemma runs_parse_lines lines :
  runs (fun root s => root < length (heap s)) (parse_lines lines initial).
Proof.
  unfold parse_lines.
  eapply runs_bind.
  { apply runs_for_lines; [apply wf_initial|].
    unfold enumerate. rewrite enumerate_from_length. lia. }
  intros u s1 Hw1 _. unfold bind, get_stack.
  destruct (stack s1) as [|root st] eqn:E; cbn.
  - split; [discriminate|assumption].
  - split; [assumption|]. destruct Hw1 as (_ & _ & _ & _ & Hb).
    rewrite E in Hb. inversion Hb. assumption.
Qed.

Section ReifyTotal.
Context (r : nat -> option Tree) (lo hi : nat).
Context (Hr : forall d, lo < d < hi -> is_Some (r d)).

Lemma reify_item_total i : item_bounded lo hi i -> is_Some (reify_item r i).
Proof.
  destruct i as [c|k d|m d|l c]; cbn; intros Hb; eauto;
    destruct (Hr d Hb) as [t ->]; cbn; eauto.
Qed.

Lemma reify_entry_total e : entry_bounded lo hi e -> is_Some (reify_entry r e).
Proof.
  destruct e as [c|l t d]; cbn; intros Hb.
  - assert (is_Some (mapM (reify_item r) c)) as [c' ->]; [|cbn; eauto].
    apply mapM_is_Some. eapply Forall_impl; [exact Hb|].
    intros i Hi. apply reify_item_total. assumption.
  - destruct (Hr d Hb) as [t' ->]. cbn. eauto.
Qed.
End ReifyTotal.

Lemma reify_total h fuel d :
  refs_below (length h) h -> d < length h -> length h - d <= fuel ->
  is_Some (reify fuel h d).
Proof.
  intros Hr. revert d. induction fuel as [|fuel IH]; intros d Hd Hf; [lia|].
  cbn [reify]. destruct (lookup_lt_is_Some_2 h d Hd) as [x Hx].
  rewrite Hx. cbn. destruct (Hr _ _ Hx) as [Hc Ht].
  assert (Hsub : forall d', d < d' < length h -> is_Some (reify fuel h d')).
  { intros d' Hd'. apply IH; lia. }
  assert (is_Some (mapM (reify_entry (reify fuel h)) (content x))) as [c ->].
  { apply mapM_is_Some. eapply Forall_impl; [exact Hc|].
    intros e He. eapply reify_entry_total; eauto. }
  cbn. destruct (title x) as [e|]; cbn; [|eauto].
  destruct (reify_entry_total _ _ _ Hsub e Ht) as [e' ->]. cbn. eauto.
Qed.

(** The embedding never answers with [Stuck]: every reference that
    [parse] follows denotes a document, the recursion through the
    references ends within the fuel that the embedding gives it, and so
    do the loops.  So [parse] returns a tree or raises an exception of
    Python. *)
Theorem parse_not_stuck file : parse file <> inl Stuck.
Proof.
  unfold parse. pose proof (runs_parse_lines (splitlines file)) as H.
  destruct (parse_lines _ _) as [root s|e s]; cbn in H.
  - destruct H as [Hw Hroot].
    assert (Hf : length (heap s) - root <= length (heap s)) by lia.
    destruct (reify_total (heap s) (length (heap s)) root
                (proj1 (proj2 Hw)) Hroot Hf) as [t ->].
    discriminate.
  - destruct H as [He _]. congruence.
Qed.

(** * Further properties of the parser *)

(** ** What the tokenizer emits *)

Lemma mapping_is_mark c : mapping c = None <-> is_mark c = false.
Proof.
  unfold mapping, is_mark, is_sigil, is_bracket.
  repeat match goal with
         | |- context [is_char ?a c] => destruct (is_char a c)
         end; cbn; split; congruence.
Qed.

Lemma space_not_mark c : is_space c = true -> is_mark c = false.
Proof. intros H. apply mapping_is_mark, space_not_mapped, H. Qed.

Lemma plain_not_mark c : is_plain c = true -> is_mark c = false.
Proof. unfold is_plain. destruct (is_mark c); [discriminate|reflexivity]. Qed.

Lemma forallb_rev_true {A} (p : A -> bool) l :
  forallb p l = true -> forallb p (rev l) = true.
Proof.
  rewrite !forallb_forall. intros H x Hx. apply H, in_rev. exact Hx.
Qed.

Lemma forallb_drop_true {A} (p : A -> bool) n l :
  forallb p l = true -> forallb p (drop n l) = true.
Proof.
  revert l. induction n as [|n IH]; intros [|x l]; cbn; auto.
  intros [_ H]%andb_prop. auto.
Qed.

Lemma forallb_rstrip p t : forallb p t = true -> forallb p (rstrip t) = true.
Proof.
  intros H. unfold rstrip, lstrip.
  apply forallb_rev_true, forallb_drop_true, forallb_rev_true, H.
Qed.

Lemma forallb_weaken {A} (p q : A -> bool) l :
  (forall x, p x = true -> q x = true) ->
  forallb p l = true -> forallb q l = true.
Proof. rewrite !forallb_forall. auto. Qed.

Lemma piece_ok_nil : piece_ok [].
Proof. left. reflexivity. Qed.

Lemma pending_piece p : pending_ok p -> piece_ok (pending_text p).
Proof.
  destruct p as [cur|run]; intros H; [right; right|right; left];
    apply forallb_rev_true, H.
Qed.

Lemma out_pieces p (l : list text) :
  pending_ok p -> Forall piece_ok l ->
  Forall piece_ok
    match p with
    | Plain cur => rev cur :: l
    | Space run => rev run :: [] :: l
    end /\
  concat match p with
         | Plain cur => rev cur :: l
         | Space run => rev run :: [] :: l
         end = pending_text p ++ concat l.
Proof.
  intros Hp Hl. pose proof (pending_piece p Hp) as H.
  destruct p; cbn in *; split; auto using piece_ok_nil.
Qed.

Lemma mark_piece (w : text) : forallb is_mark w = true -> piece_ok w.
Proof. left. assumption. Qed.

Lemma re_split_pieces n : forall t p,
  length t <= n -> pending_ok p ->
  Forall piece_ok (re_split p t) /\
  concat (re_split p t) = pending_text p ++ t.
Proof.
  induction n as [|n IH]; intros [|c t] p Hn Hp; cbn in Hn; try lia;
    try (destruct (out_pieces p [] Hp) as [H1 H2]; [constructor|];
         destruct p; cbn in *; split; auto; fail).
  assert (Hplain0 : pending_ok (Plain [])) by reflexivity.
  assert (Hmark : forall (w : text) t',
            forallb is_mark w = true -> length t' <= n ->
            Forall piece_ok
              match p with
              | Plain cur => rev cur :: w :: re_split (Plain []) t'
              | Space run => rev run :: [] :: w :: re_split (Plain []) t'
              end /\
            concat match p with
                   | Plain cur => rev cur :: w :: re_split (Plain []) t'
                   | Space run => rev run :: [] :: w :: re_split (Plain []) t'
                   end = pending_text p ++ w ++ t').
  { intros w t' Hw Ht'. destruct (IH t' (Plain []) Ht' Hplain0) as [H1 H2].
    destruct (out_pieces p (w :: re_split (Plain []) t') Hp) as [H3 H4].
    - constructor; [apply mark_piece, Hw|exact H1].
    - split; [exact H3|]. rewrite H4. cbn [concat]. rewrite H2. reflexivity. }
  cbn [re_split]. destruct (is_sigil c) eqn:Es.
  { assert (Hc : is_mark c = true) by (unfold is_mark; rewrite Es; reflexivity).
    destruct t as [|c' t'].
    - apply (Hmark [c] []); [cbn; rewrite Hc; reflexivity|cbn; lia].
    - destruct (is_sigil c') eqn:Es'.
      + apply (Hmark [c; c'] t'); [|cbn in Hn; lia].
        cbn. unfold is_mark at 2. rewrite Hc, Es'. reflexivity.
      + apply (Hmark [c] (c' :: t')); [cbn; rewrite Hc; reflexivity|lia]. }
  destruct (is_bracket c) eqn:Eb.
  { apply (Hmark [c] t); [|lia].
    cbn. unfold is_mark. rewrite Eb, orb_true_r. reflexivity. }
  destruct (is_space c) eqn:Ew.
  { destruct p as [cur|run].
    - destruct (IH t (Space [c]) ltac:(lia)) as [H1 H2];
        [cbn; rewrite Ew; reflexivity|].
      cbn [pending_text concat app] in *. rewrite H2. split.
      + constructor; [exact (pending_piece (Plain cur) Hp)|exact H1].
      + reflexivity.
    - destruct (IH t (Space (c :: run)) ltac:(lia)) as [H1 H2];
        [cbn; rewrite Ew; exact Hp|].
      cbn [pending_text rev] in *. rewrite H2, <- app_assoc.
      split; [exact H1|reflexivity]. }
  assert (Hc : is_plain c = true).
  { unfold is_plain, is_mark. rewrite Es, Eb, Ew. reflexivity. }
  destruct p as [cur|run].
  - destruct (IH t (Plain (c :: cur)) ltac:(lia)) as [H1 H2];
      [cbn; rewrite Hc; exact Hp|].
    cbn [pending_text rev] in *. rewrite H2, <- app_assoc.
    split; [exact H1|reflexivity].
  - destruct (IH t (Plain [c]) ltac:(lia)) as [H1 H2];
      [cbn; rewrite Hc; reflexivity|].
    cbn [pending_text concat app] in *. rewrite H2. split.
    + constructor; [exact (pending_piece (Space run) Hp)|exact H1].
    + reflexivity.
Qed.

Lemma re_split_text t :
  Forall piece_ok (re_split (Plain []) t) /\
  concat (re_split (Plain []) t) = t.
Proof. apply (re_split_pieces (length t) t (Plain [])); [lia|reflexivity]. Qed.

(** The words are the pieces that are neither empty nor delimiters, in
    their order. *)
Lemma words_loop_values ref ws m acc content :
  words_loop ref ws m acc = inr content ->
  map value content = map value acc ++ List.filter is_word_piece ws.
Proof.
  revert m acc. induction ws as [|w ws IH]; intros m acc; cbn [words_loop].
  - intros [= <-]. cbn. rewrite app_nil_r. reflexivity.
  - destruct w as [|c w']; [apply IH|].
    cbn [List.filter is_word_piece].
    destruct (mapping c) as [applied|] eqn:E.
    + assert (is_mark c = true) as ->.
      { destruct (is_mark c) eqn:Ec; [reflexivity|].
        apply mapping_is_mark in Ec. congruence. }
      apply IH.
    + apply mapping_is_mark in E. rewrite E. cbn [negb].
      destruct (_ && _); [discriminate|].
      intros H. apply IH in H. rewrite H, map_app, <- app_assoc. reflexivity.
Qed.

Lemma piece_filter (w : text) :
  piece_ok w ->
  List.filter (fun c => negb (is_mark c)) w = if is_word_piece w then w else [].
Proof.
  intros H. destruct (is_word_piece w) eqn:E.
  - apply forallb_filter_id. destruct w as [|c w]; [discriminate|].
    cbn in E. destruct H as [H|[H|H]].
    + cbn in H. apply andb_prop in H as [H _]. rewrite H in E. discriminate.
    + revert H. apply forallb_weaken. intros x Hx.
      rewrite (space_not_mark x Hx). reflexivity.
    + revert H. apply forallb_weaken. intros x Hx.
      rewrite (plain_not_mark x Hx). reflexivity.
  - destruct w as [|c w]; [reflexivity|]. cbn in E.
    apply negb_false_iff in E. destruct H as [H|[H|H]].
    + clear E. induction (c :: w) as [|x l IHl]; [reflexivity|].
      cbn in *. apply andb_prop in H as [H1 H2]. rewrite H1. cbn. auto.
    + cbn in H. apply andb_prop in H as [H _].
      rewrite (space_not_mark c H) in E. discriminate.
    + cbn in H. apply andb_prop in H as [H _].
      rewrite (plain_not_mark c H) in E. discriminate.
Qed.

Lemma pieces_filter (ws : list text) :
  Forall piece_ok ws ->
  concat (List.filter is_word_piece ws) =
    List.filter (fun c => negb (is_mark c)) (concat ws).
Proof.
  induction 1 as [|w ws Hw _ IH]; [reflexivity|].
  cbn [concat List.filter]. rewrite List.filter_app, <- IH, (piece_filter w Hw).
  destruct (is_word_piece w); reflexivity.
Qed.

Lemma tokenize_concat ref t src :
  tokenize ref t = inr src ->
  concat (map value (src_content src)) =
    List.filter (fun c => negb (is_mark c)) (rstrip t).
Proof.
  unfold tokenize.
  destruct (words_loop _ _ _ _) as [|content] eqn:E; [discriminate|].
  intros [= <-]. cbn [src_content].
  apply words_loop_values in E. rewrite E. cbn [map app].
  destruct (re_split_text (rstrip t)) as [H1 H2].
  rewrite (pieces_filter _ H1), H2. reflexivity.
Qed.

(** X1: the tokenizer loses the sigils, the quotes and the brackets, and
    nothing else: the values of the words of a line, one after the other,
    are the text of the line, without the white space at its end and
    without those characters. *)
Theorem X1_tokenize_values ref t src :
  tokenize ref t = inr src ->
  concat (map value (src_content src)) =
    List.filter (fun c => negb (is_mark c)) (rstrip t).
Proof. apply tokenize_concat. Qed.

Lemma X1_tokenize_values_witness :
  concat (map value [word "a" BOLD; word " " NONE; word "b" NONE]) =
    List.filter (fun c => negb (is_mark c)) (rstrip (str "*a* b  ")).
Proof.
  apply (X1_tokenize_values 1 (str "*a* b  ")
           (source 1 [word "a" BOLD; word " " NONE; word "b" NONE])).
  reflexivity.
Defined.

Lemma land_lxor (a b c : N) :
  N.land a c = a -> N.land b c = b -> N.land (N.lxor a b) c = N.lxor a b.
Proof.
  intros Ha Hb. apply N.bits_inj. intros n.
  apply (f_equal (fun x => N.testbit x n)) in Ha, Hb.
  rewrite N.land_spec in Ha, Hb. rewrite N.land_spec, !N.lxor_spec.
  destruct (N.testbit a n), (N.testbit b n), (N.testbit c n);
    cbn in *; congruence.
Qed.

Lemma mapping_inline c applied (w : text) :
  mapping c = Some applied ->
  N.land (if (length w =? 2) || (applied =? QUOTES)%N
          then N.lor applied WITH_SPACES else applied) inline_flags =
    (if (length w =? 2) || (applied =? QUOTES)%N
     then N.lor applied WITH_SPACES else applied).
Proof.
  unfold mapping.
  repeat (match goal with |- context [if is_char ?a c then _ else _] =>
            destruct (is_char a c) end);
    intros [= <-]; destruct (_ || _); reflexivity.
Qed.

Lemma inline_no_align m : N.land m inline_flags = m -> has ALIGN m = false.
Proof.
  intros H. rewrite has_ALIGN, <- H, N.land_spec. apply andb_false_r.
Qed.

Lemma words_loop_inline ref ws m acc content :
  Forall piece_ok ws -> N.land m inline_flags = m -> Forall inline_word acc ->
  words_loop ref ws m acc = inr content -> Forall inline_word content.
Proof.
  intros Hws. revert m acc.
  induction Hws as [|w ws Hw _ IH]; intros m acc Hm Hacc; cbn [words_loop].
  - intros [= <-]. assumption.
  - destruct w as [|c w']; [apply IH; assumption|].
    destruct (mapping c) as [applied|] eqn:E.
    + apply IH; [|assumption].
      apply land_lxor; [assumption|]. apply (mapping_inline c applied (c :: w') E).
    + destruct (_ && _) eqn:Echeck; [discriminate|].
      rewrite (inline_no_align m Hm). apply IH; [assumption|].
      apply Forall_app. split; [assumption|]. apply Forall_singleton.
      apply mapping_is_mark in E.
      repeat split; cbn [value modifier].
      * discriminate.
      * destruct Hw as [Hw|[Hw|Hw]]; [|auto..].
        cbn in Hw. rewrite E in Hw. discriminate.
      * assumption.
      * intros Hb. cbn in Hb. apply andb_prop in Hb as [Hb _].
        rewrite Hb, andb_true_r in Echeck.
        destruct (m =? NONE)%N eqn:E0; [left; apply N.eqb_eq, E0|].
        right. cbn in Echeck. apply negb_false_iff in Echeck. exact Echeck.
Qed.

Lemma tokenize_inline ref t src :
  tokenize ref t = inr src ->
  reference src = ref /\ Forall inline_word (src_content src).
Proof.
  unfold tokenize.
  destruct (words_loop _ _ _ _) as [|content] eqn:E; [discriminate|].
  intros [= <-]. split; [reflexivity|]. cbn [src_content].
  eapply words_loop_inline; [| | |exact E];
    [apply re_split_text|reflexivity|constructor].
Qed.

(** X2: a source line of the tokenizer carries the reference it was
    given, and every word of it is a run of white space or a piece of text
    without white space and sigils, carries flags of the sigils only
    (neither [ALIGN] nor [BLOCK]), and is white space only outside the spans
    or where [WITH_SPACES] is set. *)
Theorem X2_tokenize_words ref t src :
  tokenize ref t = inr src ->
  reference src = ref /\ Forall inline_word (src_content src).
Proof. apply tokenize_inline. Qed.

Lemma X2_tokenize_words_witness :
  Forall inline_word [word "a" BOLD; word " " NONE; word "b" NONE].
Proof.
  apply (X2_tokenize_words 1 (str "*a* b  ")
           (source 1 [word "a" BOLD; word " " NONE; word "b" NONE])).
  reflexivity.
Defined.

Lemma forallb_concat {A} (p : A -> bool) (l : list (list A)) :
  forallb p (concat l) = true -> Forall (fun w => forallb p w = true) l.
Proof.
  induction l as [|w l IH]; cbn; [constructor|].
  rewrite forallb_app. intros [H1 H2]%andb_prop. constructor; auto.
Qed.

Lemma words_loop_plain ref ws acc :
  Forall (fun w => forallb (fun c => negb (is_mark c)) w = true) ws ->
  Forall (fun w => modifier w = NONE) acc ->
  exists content, words_loop ref ws NONE acc = inr content /\
                  Forall (fun w => modifier w = NONE) content.
Proof.
  intros Hws. revert acc.
  induction Hws as [|w ws Hw _ IH]; intros acc Hacc; cbn [words_loop].
  - eauto.
  - destruct w as [|c w']; [apply IH; assumption|].
    cbn in Hw. apply andb_prop in Hw as [Hc _].
    apply negb_true_iff, mapping_is_mark in Hc. rewrite Hc. cbn.
    apply IH. apply Forall_app. split; [assumption|].
    apply Forall_singleton. reflexivity.
Qed.

Lemma tokenize_plain_words ref t :
  forallb (fun c => negb (is_mark c)) t = true ->
  exists ws, tokenize ref t = inr (source ref ws) /\
             Forall (fun w => modifier w = NONE) ws /\
             concat (map value ws) = rstrip t.
Proof.
  intros Ht. apply forallb_rstrip in Ht.
  destruct (re_split_text (rstrip t)) as [_ Hc].
  destruct (words_loop_plain ref (re_split (Plain []) (rstrip t)) [])
    as (ws & E & Hws); [|constructor|].
  { apply forallb_concat. rewrite Hc. exact Ht. }
  exists ws. assert (Htok : tokenize ref t = inr (source ref ws)).
  { unfold tokenize. rewrite E. reflexivity. }
  split; [exact Htok|]. split; [exact Hws|].
  pose proof (tokenize_concat ref t _ Htok) as Hv. cbn [src_content source] in Hv.
  rewrite Hv. apply forallb_filter_id, Ht.
Qed.

(** X3: a line without sigils, quotes and brackets is tokenized without
    error: every word carries [Modifier.NONE], and the values of the words
    make up the line, without the white space at its end. *)
Theorem X3_tokenize_plain ref t :
  forallb (fun c => negb (is_mark c)) t = true ->
  exists ws, tokenize ref t = inr (source ref ws) /\
             Forall (fun w => modifier w = NONE) ws /\
             concat (map value ws) = rstrip t.
Proof. apply tokenize_plain_words. Qed.

Lemma X3_tokenize_plain_witness :
  exists ws, tokenize 3 (str "a < b  ") = inr (source 3 ws) /\
             Forall (fun w => modifier w = NONE) ws /\
             concat (map value ws) = rstrip (str "a < b  ").
Proof. apply X3_tokenize_plain. reflexivity. Defined.

(** ** The words of the tree *)

Section Words.
Context (Pw : Word -> Prop) (Pl : text -> nat -> Prop).
Context (HPb : forall v, Pw {| value := v; modifier := BLOCK |}).
Context (HPt : forall ref t src,
            tokenize ref t = inr src -> Forall Pw (src_content src)).

Local Abbreviation P := (store_ok Pw Pl).

Lemma words_block_lines it content :
  Forall (source_ok Pw) content ->
  keeps P (block_lines it content)
    (fun r => Forall (source_ok Pw) (fst r) /\ snd r `suffix_of` it).
Proof.
  revert content. induction it as [|[no t] it IH]; intros content Hc;
    cbn [block_lines]; [apply keeps_raise|].
  eapply keeps_bind; [apply keeps_set_lineno|]. intros _ _.
  eapply keeps_bind; [apply keeps_read, total_indent_reads|]. intros ind _.
  destruct (is_block_end _).
  { apply keeps_ret. split; [assumption|]. apply suffix_cons_r. reflexivity. }
  eapply keeps_weaken.
  { apply IH. apply Forall_app. split; [assumption|]. repeat constructor.
    apply HPb. }
  intros r [H1 H2]. split; [assumption|]. apply suffix_cons_r. assumption.
Qed.

Lemma words_read_block language it :
  keeps P (read_block language it) (fun it' => it' `suffix_of` it).
Proof.
  unfold read_block.
  eapply keeps_bind; [apply words_block_lines; constructor|]. intros r [Hr Hs].
  eapply keeps_bind; [apply keeps_read, document_reads|]. intros d _.
  eapply keeps_bind; [apply keeps_read, Document_paragraph_reads|]. intros p _.
  eapply keeps_bind; [apply keeps_Paragraph_append; exact Hr|]. intros _ _.
  apply keeps_ret. assumption.
Qed.

Lemma words_append_words ref t : keeps P (append_words ref t) any.
Proof.
  unfold append_words.
  eapply keeps_bind.
  { apply keeps_lift with (Q := source_ok Pw). intros src Hs.
    exact (HPt ref t src Hs). }
  intros src Hs.
  eapply keeps_bind; [apply keeps_read, document_reads|]. intros d _.
  eapply keeps_bind; [apply keeps_read, Document_paragraph_reads|]. intros p _.
  eapply keeps_bind; [apply keeps_read, Paragraph_line_reads|]. intros l _.
  apply keeps_Line_append. assumption.
Qed.

Lemma words_process_line ref t it :
  (forall m d, consumed t m -> Pl m d) ->
  keeps P (process_line ref t it) (fun it' => it' `suffix_of` it).
Proof.
  intros HPl. unfold process_line.
  eapply keeps_bind; [apply keeps_strip_indent|]. intros t1 Ht1.
  destruct (is_title t1).
  { eapply keeps_bind; [apply keeps_mark_title|]. intros _ _.
    apply keeps_ret. reflexivity. }
  destruct (match_heading t1) as [[[level pad] title]|].
  { eapply keeps_bind; [apply keeps_open_section|]. intros _ _.
    apply keeps_ret. reflexivity. }
  destruct (match_block t1) as [language|]; [apply words_read_block|].
  eapply keeps_bind; [|intros _ _; apply keeps_ret; reflexivity].
  unfold inline_rules.
  eapply keeps_bind; [apply keeps_open_aside; exact Ht1|]. intros t2 Ht2.
  eapply keeps_bind; [apply (keeps_open_list Pw Pl t t2); assumption|].
  intros t3 _.
  destruct (is_blank t3); [apply keeps_break_paragraph|].
  eapply keeps_bind; [apply keeps_open_line|]. intros t4 _.
  apply words_append_words.
Qed.

Lemma words_for_lines fuel lines it :
  (forall l m d, l ∈ it -> consumed (snd l) m -> Pl m d) ->
  keeps P (for_lines fuel lines it) any.
Proof.
  revert it. induction fuel as [|fuel IH]; intros [|[no t] it] HPl;
    cbn [for_lines]; try (apply keeps_ret; exact I); [apply keeps_raise|].
  eapply keeps_bind; [apply keeps_set_lineno|]. intros _ _.
  eapply keeps_bind.
  { apply keeps_try; [|apply handler_raises].
    apply words_process_line. intros m d. apply (HPl (no, t)). left. }
  intros it' Hs. apply IH. intros l m d Hl. apply HPl. right.
  destruct Hs as [k ->]. apply elem_of_app. auto.
Qed.

Lemma elem_of_enumerate no l lines start :
  (no, l) ∈ enumerate_from start lines -> l ∈ lines.
Proof.
  revert start. induction lines as [|l' ls IH]; intros n; cbn;
    [intros []%elem_of_nil|].
  intros [[= -> ->]|Hl]%elem_of_cons; [left|right; eauto].
Qed.

(** What holds of the words of the tokenizer and of the words of the
    blocks holds of every word of the tree. *)
Lemma parse_words_ok file t x :
  (forall l m d, l ∈ splitlines file -> consumed l m -> Pl m d) ->
  parse file = inr t -> in_tree x t ->
  document_ok Pw (fun m (_ : Tree) => exists d, Pl m d) x.
Proof.
  intros HPl Hp Hx. unfold parse in Hp.
  destruct (parse_lines _ _) as [root s|] eqn:E; [|discriminate].
  destruct (reify _ _ root) as [t'|] eqn:E'; [|discriminate].
  injection Hp as ->.
  destruct (in_tree_reify _ _ _ Hx _ _ E') as (fuel & d & Hd).
  eapply reify_document_ok; [|exact Hd].
  unfold parse_lines in E. apply bind_Ok in E as (u & s1 & E & E1).
  assert (heap s = heap s1) as ->.
  { unfold bind, get_stack in E1. destruct (stack s1); inversion E1; auto. }
  eapply words_for_lines; [| |exact E].
  - intros [no l] m d' Hl. apply HPl. eapply elem_of_enumerate, Hl.
  - repeat constructor.
Qed.
End Words.

(** X4: every word of every document of the tree that [parse] returns,
    root or nested, in a content or in a title, is a word of a code block,
    which carries [BLOCK] and nothing else, or a word as the tokenizer
    emits it. *)
Theorem X4_parse_words file t x w :
  parse file = inr t -> in_tree x t -> w ∈ document_words x ->
  block_only w \/ inline_word w.
Proof.
  intros Hp Hx Hw.
  eapply (document_ok_words (fun w => block_only w \/ inline_word w));
    [|exact Hw].
  eapply (parse_words_ok _ (fun _ _ => True)); eauto.
  - intros v. left. reflexivity.
  - intros ref t0 src Hs. eapply Forall_impl; [apply (tokenize_inline ref t0 src Hs)|].
    intros w0 Hw0. right. exact Hw0.
Qed.

Lemma X4_parse_words_witness :
  block_only (word "x = 1" BLOCK) \/ inline_word (word "x = 1" BLOCK).
Proof.
  refine (X4_parse_words (file_of ["*bold* plain"; "```"; "x = 1"; "```"]) _
            (doc 0 [Paragraph [Line [source 1 [word "bold" BOLD; word " " NONE;
                                               word "plain" NONE]];
                               Block None [source 2 [word "x = 1" BLOCK]]]])
            (word "x = 1" BLOCK) _ _ _).
  - vm_compute. reflexivity.
  - constructor.
  - do 3 right. left.
Defined.

(** ** What the nodes of the tree are made of *)

Section MadeStore.
Context (Psrc Pblk : SourceLine -> Prop) (Pm : text -> Prop)
        (Psec : nat -> option text -> Prop) (Pt : Prop).

Local Abbreviation made := (document_made Psrc Pblk Pm Psec Pt).
Local Abbreviation P := (Forall (document_made Psrc Pblk Pm Psec Pt)).

Lemma made_load d : keeps P (load d) made.
Proof.
  intros s x s' HP [Hx ->]%load_Ok. split; [assumption|].
  exact (Forall_lookup_1 _ _ _ _ HP Hx).
Qed.

Lemma made_store d x : made x -> keeps P (store d x) any.
Proof.
  intros Hx s u s' HP ->%store_Ok. split; [|exact I].
  apply Forall_insert; assumption.
Qed.

Lemma made_alloc n : keeps P (alloc (new_document n)) any.
Proof.
  intros s u s' HP [_ ->]%alloc_Ok. split; [|exact I].
  apply Forall_app. split; [assumption|].
  repeat constructor.
Qed.

Lemma made_Document_append d e :
  entry_made Psrc Pblk Pm Psec e -> keeps P (Document_append d e) any.
Proof.
  intros He. unfold Document_append.
  eapply keeps_bind; [apply made_load|]. intros x [Hc Ht].
  apply made_store. split; [|exact Ht]. cbn.
  apply Forall_app. split; [assumption|]. repeat constructor. assumption.
Qed.

Lemma made_Document_pop d :
  keeps P (Document_pop d) (entry_made Psrc Pblk Pm Psec).
Proof.
  unfold Document_pop.
  eapply keeps_bind; [apply made_load|]. intros x [Hc Ht].
  destruct (last (content x)) as [e|] eqn:E; [|apply keeps_raise].
  rewrite (last_removelast _ _ E) in Hc. apply Forall_app in Hc as [Hc He].
  eapply keeps_bind; [apply made_store; split; [exact Hc|exact Ht]|].
  intros _ _. apply keeps_ret. rewrite Forall_singleton in He. exact He.
Qed.

Lemma made_Paragraph_content d :
  keeps P (Paragraph_content d) (Forall (item_made Psrc Pblk Pm)).
Proof.
  unfold Paragraph_content.
  eapply keeps_bind; [apply made_load|]. intros x [Hc Ht].
  destruct (last (content x)) as [[c|]|] eqn:E; try apply keeps_raise.
  apply keeps_ret. rewrite (last_removelast _ _ E) in Hc.
  apply Forall_app in Hc as [_ Hc]. rewrite Forall_singleton in Hc. exact Hc.
Qed.

Lemma made_Paragraph_set d c :
  Forall (item_made Psrc Pblk Pm) c -> keeps P (Paragraph_set d c) any.
Proof.
  intros Hc. unfold Paragraph_set.
  eapply keeps_bind; [apply made_load|]. intros x [Hx Ht].
  apply made_store. split; [|exact Ht]. cbn.
  apply Forall_app. split.
  - destruct (last (content x)) as [e|] eqn:E.
    + rewrite (last_removelast _ _ E) in Hx. apply Forall_app in Hx. tauto.
    + apply last_None in E. rewrite E. constructor.
  - repeat constructor. exact Hc.
Qed.

Lemma made_Paragraph_append d i :
  item_made Psrc Pblk Pm i -> keeps P (Paragraph_append d i) any.
Proof.
  intros Hi. unfold Paragraph_append.
  eapply keeps_bind; [apply made_Paragraph_content|]. intros c Hc.
  apply made_Paragraph_set. apply Forall_app. split; [assumption|].
  repeat constructor. assumption.
Qed.

Lemma made_Line_append l src : Psrc src -> keeps P (Line_append l src) any.
Proof.
  intros Hs. unfold Line_append. destruct l as [d|]; [|apply keeps_raise].
  eapply keeps_bind; [apply made_Paragraph_content|]. intros c Hc.
  destruct (last c) as [[srcs| | |]|] eqn:E; try apply keeps_raise.
  rewrite (last_removelast _ _ E) in Hc. apply Forall_app in Hc as [Hc Hl].
  rewrite Forall_singleton in Hl.
  apply made_Paragraph_set. apply Forall_app. split; [assumption|].
  repeat constructor. cbn in *. apply Forall_app. split; [assumption|].
  repeat constructor. assumption.
Qed.

Lemma made_pop_one : keeps P pop_one any.
Proof.
  unfold pop_one.
  eapply keeps_bind; [apply keeps_stack_pop|]. intros previous _.
  eapply keeps_bind; [apply keeps_read, Document_empty_reads|]. intros e _.
  destruct e; [apply keeps_ret; exact I|].
  eapply keeps_bind; [apply keeps_read, Document_paragraph_reads|]. intros p _.
  eapply keeps_bind; [apply keeps_read, Paragraph_empty_reads|]. intros pe _.
  apply keeps_when.
  eapply keeps_bind; [apply keeps_read, document_reads|]. intros d _.
  eapply keeps_bind; [apply made_Document_pop|]. intros x Hx.
  apply made_Document_append. assumption.
Qed.

Lemma made_pop_loop fuel t : keeps P (pop_loop fuel t) any.
Proof.
  induction fuel as [|fuel IH]; cbn [pop_loop]; [apply keeps_raise|].
  eapply keeps_bind; [apply keeps_read, get_stack_reads|]. intros st _.
  destruct (_ && _); [|apply keeps_ret; exact I].
  eapply keeps_bind; [apply keeps_read, total_indent_reads|]. intros ind _.
  destruct (negb _); [|apply keeps_ret; exact I].
  eapply keeps_bind; [apply made_pop_one|]. intros _ _. exact IH.
Qed.

Lemma made_claim_space ref t0 t :
  rest_of t0 t -> keeps P (claim_space ref t) (rest_of t0).
Proof.
  intros Ht. unfold claim_space.
  eapply keeps_bind; [apply keeps_read, document_reads|]. intros d _.
  eapply keeps_bind; [apply keeps_read, Document_empty_reads|]. intros e _.
  destruct e; [|apply keeps_ret; assumption].
  eapply keeps_bind; [apply keeps_read, get_stack_reads|]. intros st _.
  destruct (_ && _); [apply keeps_raise|].
  eapply keeps_bind; [apply keeps_read, document_reads|]. intros d' _.
  eapply keeps_bind; [apply made_load|]. intros x Hx.
  eapply keeps_bind; [apply made_store; exact Hx|]. intros _ _.
  apply keeps_ret. apply rest_of_drop. assumption.
Qed.

Lemma made_strip_indent ref t : keeps P (strip_indent ref t) (rest_of t).
Proof.
  unfold strip_indent, pop_scopes.
  eapply keeps_bind.
  { eapply keeps_bind; [apply keeps_read, get_stack_reads|]. intros st _.
    apply made_pop_loop. }
  intros _ _.
  eapply keeps_bind; [apply keeps_read, total_indent_reads|]. intros ind _.
  apply made_claim_space. apply rest_of_drop, rest_of_refl.
Qed.

Lemma made_mark_title : Pt -> keeps P mark_title any.
Proof.
  intros HPt. unfold mark_title.
  eapply keeps_bind; [apply keeps_read, document_reads|]. intros d _.
  eapply keeps_bind; [apply made_Document_pop|]. intros e He.
  eapply keeps_bind; [apply keeps_read, document_reads|]. intros d' _.
  eapply keeps_bind; [apply made_load|]. intros x [Hx _].
  eapply keeps_bind; [apply made_store; split; [exact Hx|split; assumption]|].
  intros _ _.
  eapply keeps_bind; [apply keeps_read, document_reads|]. intros d'' _.
  apply made_Document_append. constructor.
Qed.

Lemma made_open_section level pad title :
  Psec level title -> keeps P (open_section level pad title) any.
Proof.
  intros Hsec. unfold open_section.
  eapply keeps_bind; [apply keeps_read, document_reads|]. intros d _.
  eapply keeps_bind; [apply keeps_read, Document_paragraph_reads|]. intros p _.
  eapply keeps_bind; [apply keeps_read, Paragraph_empty_reads|]. intros pe _.
  eapply keeps_bind.
  { apply keeps_when.
    eapply keeps_bind; [apply keeps_read, document_reads|]. intros d' _.
    eapply keeps_bind; [apply made_Document_pop|]. intros e _.
    apply keeps_ret. exact I. }
  intros _ _.
  eapply keeps_bind; [apply made_alloc|]. intros v _.
  eapply keeps_bind; [apply keeps_read, document_reads|]. intros d' _.
  eapply keeps_bind; [apply made_Document_append; exact Hsec|]. intros _ _.
  apply keeps_stack_push.
Qed.

Lemma made_block_lines it content :
  Forall Pblk content ->
  (forall l ind, l ∈ it -> Pblk (block_word ind l)) ->
  keeps P (block_lines it content)
    (fun r => Forall Pblk (fst r) /\ snd r `suffix_of` it).
Proof.
  revert content. induction it as [|[no t] it IH]; intros content Hc Hit;
    cbn [block_lines]; [apply keeps_raise|].
  eapply keeps_bind; [apply keeps_set_lineno|]. intros _ _.
  eapply keeps_bind; [apply keeps_read, total_indent_reads|]. intros ind _.
  destruct (is_block_end _).
  { apply keeps_ret. split; [assumption|]. apply suffix_cons_r. reflexivity. }
  eapply keeps_weaken.
  { apply IH.
    - apply Forall_app. split; [assumption|]. repeat constructor.
      apply (Hit (no, t) ind). left.
    - intros l ind' Hl. apply Hit. right. exact Hl. }
  intros r [H1 H2]. split; [assumption|]. apply suffix_cons_r. assumption.
Qed.

Lemma made_read_block language it :
  (forall l ind, l ∈ it -> Pblk (block_word ind l)) ->
  keeps P (read_block language it) (fun it' => it' `suffix_of` it).
Proof.
  intros Hit. unfold read_block.
  eapply keeps_bind; [apply made_block_lines; [constructor|exact Hit]|].
  intros r [Hr Hs].
  eapply keeps_bind; [apply keeps_read, document_reads|]. intros d _.
  eapply keeps_bind; [apply keeps_read, Document_paragraph_reads|]. intros p _.
  eapply keeps_bind; [apply made_Paragraph_append; exact Hr|]. intros _ _.
  apply keeps_ret. assumption.
Qed.

Lemma made_open_aside t0 t :
  rest_of t0 t -> keeps P (open_aside t) (rest_of t0).
Proof.
  intros Ht. unfold open_aside.
  destruct (match_aside t) as [[n kind]|]; [|apply keeps_ret; assumption].
  eapply keeps_bind; [apply made_alloc|]. intros v _.
  eapply keeps_bind; [apply keeps_read, document_reads|]. intros d _.
  eapply keeps_bind; [apply keeps_read, Document_paragraph_reads|]. intros p _.
  eapply keeps_bind; [apply made_Paragraph_append; exact I|]. intros _ _.
  eapply keeps_bind; [apply keeps_stack_push|]. intros _ _.
  apply keeps_ret. apply rest_of_drop. assumption.
Qed.

Lemma made_open_list t0 t :
  (forall m, consumed t0 m -> Pm m) ->
  rest_of t0 t -> keeps P (open_list t) (rest_of t0).
Proof.
  intros HPm Ht. unfold open_list.
  destruct (match_list t) as [n|] eqn:E; [|apply keeps_ret; assumption].
  eapply keeps_bind; [apply made_alloc|]. intros v _.
  eapply keeps_bind; [apply keeps_read, document_reads|]. intros d _.
  eapply keeps_bind; [apply keeps_read, Document_paragraph_reads|]. intros p _.
  eapply keeps_bind.
  { apply made_Paragraph_append. cbn. apply HPm.
    destruct Ht as [j ->]. exists j, n. auto. }
  intros _ _.
  eapply keeps_bind; [apply keeps_stack_push|]. intros _ _.
  apply keeps_ret. apply rest_of_drop. assumption.
Qed.

Lemma made_break_paragraph : keeps P break_paragraph any.
Proof.
  unfold break_paragraph.
  eapply keeps_bind; [apply keeps_read, document_reads|]. intros d _.
  eapply keeps_bind; [apply keeps_read, Document_paragraph_reads|]. intros p _.
  eapply keeps_bind; [apply keeps_read, Paragraph_empty_reads|]. intros pe _.
  destruct pe; [apply keeps_ret; exact I|].
  eapply keeps_bind; [apply keeps_read, document_reads|]. intros d' _.
  apply made_Document_append. constructor.
Qed.

Lemma made_open_line ref t0 t :
  rest_of t0 t -> keeps P (open_line ref t) (rest_of t0).
Proof.
  intros Ht. unfold open_line.
  eapply keeps_bind; [apply keeps_read, document_reads|]. intros d _.
  eapply keeps_bind; [apply keeps_read, Document_paragraph_reads|]. intros p _.
  destruct (starts_nonspace t).
  - eapply keeps_bind; [apply made_Paragraph_append; constructor|].
    intros _ _. apply keeps_ret. assumption.
  - eapply keeps_bind; [apply keeps_read, Paragraph_empty_reads|]. intros pe _.
    destruct pe; [apply keeps_raise|]. apply keeps_ret.
    apply rest_of_drop. assumption.
Qed.

Lemma made_append_words ref t :
  (forall src, tokenize ref t = inr src -> Psrc src) ->
  keeps P (append_words ref t) any.
Proof.
  intros Hsrc. unfold append_words.
  eapply keeps_bind; [apply keeps_lift with (Q := Psrc); exact Hsrc|].
  intros src Hs.
  eapply keeps_bind; [apply keeps_read, document_reads|]. intros d _.
  eapply keeps_bind; [apply keeps_read, Document_paragraph_reads|]. intros p _.
  eapply keeps_bind; [apply keeps_read, Paragraph_line_reads|]. intros l _.
  apply made_Line_append. assumption.
Qed.

(** A line keeps the nodes as they are made, when what the rules make of
    this line is as the properties say. *)
Lemma made_process_line ref t it :
  (forall t' src, rest_of t t' -> tokenize ref t' = inr src -> Psrc src) ->
  (forall l ind, l ∈ it -> Pblk (block_word ind l)) ->
  (forall m, consumed t m -> Pm m) ->
  (forall t' level pad title,
     rest_of t t' -> match_heading t' = Some (level, pad, title) ->
     Psec level title) ->
  (forall t', rest_of t t' -> is_title t' = true -> Pt) ->
  keeps P (process_line ref t it) (fun it' => it' `suffix_of` it).
Proof.
  intros Hsrc Hblk HPm Hsec HPt. unfold process_line.
  eapply keeps_bind; [apply made_strip_indent|]. intros t1 Ht1.
  destruct (is_title t1) eqn:Et.
  { eapply keeps_bind; [apply made_mark_title; eauto|]. intros _ _.
    apply keeps_ret. reflexivity. }
  destruct (match_heading t1) as [[[level pad] title]|] eqn:Eh.
  { eapply keeps_bind; [apply made_open_section; eauto|]. intros _ _.
    apply keeps_ret. reflexivity. }
  destruct (match_block t1) as [language|]; [apply made_read_block, Hblk|].
  eapply keeps_bind; [|intros _ _; apply keeps_ret; reflexivity].
  unfold inline_rules.
  eapply keeps_bind; [apply made_open_aside; exact Ht1|]. intros t2 Ht2.
  eapply keeps_bind; [apply (made_open_list t t2); assumption|]. intros t3 Ht3.
  destruct (is_blank t3); [apply made_break_paragraph|].
  eapply keeps_bind; [apply made_open_line; exact Ht3|]. intros t4 Ht4.
  apply made_append_words. eauto.
Qed.

Lemma made_for_lines fuel lines it :
  (forall l t' src, l ∈ it -> rest_of (snd l) t' ->
     tokenize (fst l + 1) t' = inr src -> Psrc src) ->
  (forall l ind, l ∈ it -> Pblk (block_word ind l)) ->
  (forall l m, l ∈ it -> consumed (snd l) m -> Pm m) ->
  (forall l t' level pad title, l ∈ it ->
     rest_of (snd l) t' -> match_heading t' = Some (level, pad, title) ->
     Psec level title) ->
  (forall l t', l ∈ it -> rest_of (snd l) t' -> is_title t' = true -> Pt) ->
  keeps P (for_lines fuel lines it) any.
Proof.
  revert it.
  induction fuel as [|fuel IH]; intros [|[no t] it] Hsrc Hblk HPm Hsec HPt;
    cbn [for_lines]; try (apply keeps_ret; exact I); [apply keeps_raise|].
  eapply keeps_bind; [apply keeps_set_lineno|]. intros _ _.
  assert (Hin : forall it' l, it' `suffix_of` it -> l ∈ it' -> l ∈ (no, t) :: it).
  { intros it' l [k ->] Hl. right. apply elem_of_app. auto. }
  eapply keeps_bind.
  { apply keeps_try; [|apply handler_raises]. apply made_process_line.
    - intros t' src. apply (Hsrc (no, t)). left.
    - intros l ind Hl. apply Hblk. right. exact Hl.
    - intros m. apply (HPm (no, t)). left.
    - intros t' level pad title. apply (Hsec (no, t)). left.
    - intros t'. apply (HPt (no, t)). left. }
  intros it' Hs. cbv beta in Hs. apply IH.
  - intros l t' src Hl. apply Hsrc. eapply Hin; eassumption.
  - intros l ind Hl. apply Hblk. eapply Hin; eassumption.
  - intros l m Hl. apply HPm. eapply Hin; eassumption.
  - intros l t' level pad title Hl. apply Hsec. eapply Hin; eassumption.
  - intros l t' Hl. apply HPt. eapply Hin; eassumption.
Qed.
End MadeStore.

Section MadeTree.
Context (Psrc Pblk : SourceLine -> Prop) (Pm : text -> Prop)
        (Psec : nat -> option text -> Prop).
Context (r : nat -> option Tree).

Lemma reify_item_made i i' :
  reify_item r i = Some i' ->
  item_made Psrc Pblk Pm i -> item_made Psrc Pblk Pm i'.
Proof.
  destruct i as [c|k d|m d|l c]; cbn.
  - intros [= <-]. auto.
  - destruct (r d); cbn; [|discriminate]. intros [= <-]. auto.
  - destruct (r d); cbn; [|discriminate]. intros [= <-]. auto.
  - intros [= <-]. auto.
Qed.

Lemma reify_entry_made e e' :
  reify_entry r e = Some e' ->
  entry_made Psrc Pblk Pm Psec e -> entry_made Psrc Pblk Pm Psec e'.
Proof.
  destruct e as [c|l t d]; cbn.
  - destruct (mapM _ c) as [c'|] eqn:E; cbn; [|discriminate]. intros [= <-].
    apply mapM_Some in E. cbn. intros Hc.
    induction E as [|i i' c c' Hi _ IH]; [constructor|].
    inversion Hc; subst. constructor; eauto using reify_item_made.
  - destruct (r d); cbn; [|discriminate]. intros [= <-]. auto.
Qed.

Lemma reify_content_made c c' :
  mapM (reify_entry r) c = Some c' ->
  Forall (entry_made Psrc Pblk Pm Psec) c ->
  Forall (entry_made Psrc Pblk Pm Psec) c'.
Proof.
  intros E%mapM_Some Hc. induction E as [|e e' c c' He _ IH]; [constructor|].
  inversion Hc; subst. constructor; eauto using reify_entry_made.
Qed.
End MadeTree.

Lemma reify_document_made Psrc Pblk Pm Psec Pt h fuel d x :
  Forall (document_made Psrc Pblk Pm Psec Pt) h ->
  reify (S fuel) h d = Some (Node x) -> document_made Psrc Pblk Pm Psec Pt x.
Proof.
  intros Hh (y & Hy & _ & Hc & Ht)%reify_S.
  destruct (Forall_lookup_1 _ _ _ _ Hh Hy) as [Hyc Hyt]. split.
  - eapply reify_content_made; eauto.
  - destruct (title y) as [e|].
    + destruct Ht as (e' & He' & ->). destruct Hyt as [HPt Hyt].
      split; [exact HPt|]. eapply reify_entry_made; eauto.
    + rewrite Ht. exact I.
Qed.

Lemma enumerate_from_lookup lines : forall start no l,
  (no, l) ∈ enumerate_from start lines ->
  start <= no /\ lines !! (no - start) = Some l.
Proof.
  induction lines as [|l' ls IH]; intros start no l; cbn;
    [intros []%elem_of_nil|].
  intros [[= -> ->]|Hl]%elem_of_cons.
  - rewrite Nat.sub_diag. auto.
  - apply IH in Hl as [Hle Hl]. split; [lia|].
    replace (no - start) with (S (no - S start)) by lia. exact Hl.
Qed.

(** Every node of every document of the tree is what a rule made of a
    line of the file. *)
Lemma parse_made file t x :
  parse file = inr t -> in_tree x t ->
  document_made (tokenized (splitlines file)) (block_line (splitlines file))
    (marked (splitlines file)) (headed (splitlines file))
    (titled (splitlines file)) x.
Proof.
  intros Hp Hx. unfold parse in Hp.
  destruct (parse_lines _ _) as [root s|] eqn:E; [|discriminate].
  destruct (reify _ _ root) as [t'|] eqn:E'; [|discriminate].
  injection Hp as ->.
  destruct (in_tree_reify _ _ _ Hx _ _ E') as (fuel & d & Hd).
  eapply reify_document_made; [|exact Hd].
  unfold parse_lines in E. apply bind_Ok in E as (u & s1 & E & E1).
  assert (heap s = heap s1) as ->.
  { unfold bind, get_stack in E1. destruct (stack s1); inversion E1; auto. }
  assert (Hl : forall l, l ∈ enumerate (splitlines file) ->
                 splitlines file !! fst l = Some (snd l)).
  { intros [no l] [_ H]%enumerate_from_lookup. rewrite Nat.sub_0_r in H.
    exact H. }
  eapply made_for_lines; [| | | | | |exact E].
  - intros [no l] t' src Hin Hr Ht. exists no, l, t'.
    split; [exact (Hl _ Hin)|]. split; assumption.
  - intros [no l] ind Hin. exists no, l, ind.
    split; [exact (Hl _ Hin)|reflexivity].
  - intros [no l] m Hin Hc. exists l. split; [|exact Hc].
    eapply list_elem_of_lookup_2, (Hl _ Hin).
  - intros [no l] t' level pad title Hin Hr Hm. exists l, t', pad.
    split; [|auto]. eapply list_elem_of_lookup_2, (Hl _ Hin).
  - intros [no l] t' Hin Hr Ht. exists l, t'.
    split; [|auto]. eapply list_elem_of_lookup_2, (Hl _ Hin).
  - repeat constructor.
Qed.

(** X16: every node of the tree that [parse] returns is what a rule made
    of a line of the file.  In every document of the tree, in the content
    and in the title: a source line of a [Line] is the tokenizer's, for
    what is left of a line of the file from some column on, and refers to
    that line, counted from 1; a source line of a [Block] is one word with
    [BLOCK], a line of the file from some column on, and refers to that
    line, counted from 0; the marker of a [List] is what the list rule
    matched on a line; the level and the title of a [Section] are what the
    heading rule matched on a line; and a document has a title only when
    the title rule matched on a line. *)
Theorem X16_nodes_made file t x :
  parse file = inr t -> in_tree x t ->
  document_made (tokenized (splitlines file)) (block_line (splitlines file))
    (marked (splitlines file)) (headed (splitlines file))
    (titled (splitlines file)) x.
Proof. apply parse_made. Qed.

Lemma X16_nodes_made_witness :
  document_made (tokenized (splitlines (file_of ["- a"; "  ```"; "  b"; "  ```"])))
    (block_line (splitlines (file_of ["- a"; "  ```"; "  b"; "  ```"])))
    (marked (splitlines (file_of ["- a"; "  ```"; "  b"; "  ```"])))
    (headed (splitlines (file_of ["- a"; "  ```"; "  b"; "  ```"])))
    (titled (splitlines (file_of ["- a"; "  ```"; "  b"; "  ```"])))
    (doc 2 [Paragraph [Line [source 1 [word "a" NONE]];
                       Block None [source 2 [word "b" BLOCK]]]] : Document Tree).
Proof.
  refine (X16_nodes_made (file_of ["- a"; "  ```"; "  b"; "  ```"])
            (Node (doc 0 [Paragraph [List_ (str "- ")
               (Node (doc 2 [Paragraph [Line [source 1 [word "a" NONE]];
                                        Block None [source 2 [word "b" BLOCK]]]]))]]))
            _ _ _).
  - vm_compute. reflexivity.
  - eapply in_tree_nested; [|constructor].
    eexists. split; [left; left|]. eexists. split; [left|]. reflexivity.
Defined.

(** ** The exceptions of [parse] *)

Lemma raises_ret {A} E (a : A) : raises E (ret a).
Proof. intros s e s' [=]. Qed.

Lemma raises_raise {A} (E : Error -> Prop) e : E e -> raises E (@raise A e).
Proof. intros He s e' s' [= <- _]. exact He. Qed.

Lemma raises_bind {A B} E (m : M A) (k : A -> M B) :
  raises E m -> (forall a, raises E (k a)) -> raises E (bind m k).
Proof.
  intros Hm Hk s e s'. unfold bind. destruct (m s) as [a s1|e1 s1] eqn:Em.
  - apply Hk.
  - intros [= <- _]. eapply Hm, Em.
Qed.

Lemma raises_bind_post {A B} E (Q : A -> Prop) (m : M A) (k : A -> M B) :
  raises E m -> (forall s a s', m s = Ok a s' -> Q a) ->
  (forall a, Q a -> raises E (k a)) -> raises E (bind m k).
Proof.
  intros Hm HQ Hk s e s'. unfold bind. destruct (m s) as [a s1|e1 s1] eqn:Em.
  - apply Hk. eapply HQ, Em.
  - intros [= <- _]. eapply Hm, Em.
Qed.

Lemma raises_weaken {A} (E E' : Error -> Prop) (m : M A) :
  raises E m -> (forall e, E e -> E' e) -> raises E' m.
Proof. intros Hm HE s e s' H. eapply HE, Hm, H. Qed.

Lemma raises_lift {A} (E : Error -> Prop) (r : Error + A) :
  (forall e, r = inl e -> E e) -> raises E (lift r).
Proof.
  intros Hr. destruct r as [e|a]; cbn.
  - apply raises_raise, Hr. reflexivity.
  - apply raises_ret.
Qed.

Lemma raises_when E b m : raises E m -> raises E (when b m).
Proof. intros Hm. destruct b; [exact Hm|apply raises_ret]. Qed.

Lemma all_empty_error {R} (c : list (Entry R)) e :
  all_empty c = inl e -> e = AttributeError.
Proof.
  induction c as [|[[|]|] c IH]; cbn; try discriminate; [exact IH|].
  intros [= <-]. reflexivity.
Qed.

Lemma indent_sum_error h st e : indent_sum h st = inl e -> e = Stuck.
Proof.
  induction st as [|d st IH]; cbn; [discriminate|].
  destruct (h !! d); [|intros [= <-]; reflexivity].
  destruct (indent_sum h st); [|discriminate]. intros [= <-]. auto.
Qed.

Lemma paragraph_in_error fuel h : forall d e,
  paragraph_in fuel h d = inl e -> e = Stuck \/ e = IndexError.
Proof.
  induction fuel as [|fuel IH]; intros d e; cbn; [intros [= <-]; auto|].
  destruct (h !! d) as [x|]; [|intros [= <-]; auto].
  destruct (last (content x)) as [[|]|]; try discriminate;
    [apply IH|intros [= <-]; auto].
Qed.

Lemma line_in_error fuel h : forall d e,
  line_in fuel h d = inl e -> e = Stuck \/ e = IndexError.
Proof.
  induction fuel as [|fuel IH]; intros d e; cbn; [intros [= <-]; auto|].
  destruct (h !! d) as [x|]; [|intros [= <-]; auto].
  destruct (last (content x)) as [[c|]|]; try (intros [= <-]; auto).
  destruct (last c) as [[| | |]|]; try discriminate;
    (destruct (paragraph_in fuel h _) as [e'|d'] eqn:Ep;
     [intros [= <-]; eapply paragraph_in_error, Ep|apply IH]).
Qed.

Lemma words_loop_error ref : forall words modifier content e,
  words_loop ref words modifier content = inl e ->
  e = ValueError spaces_msg ref.
Proof.
  induction words as [|w words IH]; intros modifier content e; cbn;
    [discriminate|].
  destruct w as [|c w]; [apply IH|].
  destruct (mapping c); [apply IH|].
  destruct (_ && _); [intros [= <-]; reflexivity|apply IH].
Qed.

Lemma tokenize_error ref t e :
  tokenize ref t = inl e -> e = ValueError spaces_msg ref.
Proof.
  unfold tokenize. destruct (words_loop _ _ _ _) eqn:E; [|discriminate].
  intros [= <-]. eapply words_loop_error, E.
Qed.

(** The exceptions of the methods: none is a [ValueError] or a
    [StopIteration]. *)
Section Raises.
Context (E : Error -> Prop).
Context (HA : E AttributeError) (HI : E IndexError) (HS : E Stuck).

Local Ltac raises_step :=
  first
    [ apply raises_ret
    | apply raises_raise; assumption
    | apply raises_when
    | apply raises_bind; [|intros ?]
    | match goal with
      | |- raises _ (match ?x with _ => _ end) => destruct x
      end ].

Lemma raises_get_heap : raises E get_heap.
Proof. intros s e s' [=]. Qed.
Lemma raises_get_stack : raises E get_stack.
Proof. intros s e s' [=]. Qed.
Lemma raises_set_heap h : raises E (set_heap h).
Proof. intros s e s' [=]. Qed.
Lemma raises_set_stack st : raises E (set_stack st).
Proof. intros s e s' [=]. Qed.
Lemma raises_set_lineno n : raises E (set_lineno n).
Proof. intros s e s' [=]. Qed.

Lemma raises_load d : raises E (load d).
Proof. unfold load. apply raises_bind; [apply raises_get_heap|]. intros h. repeat raises_step. Qed.

Lemma raises_store d x : raises E (store d x).
Proof.
  unfold store. apply raises_bind; [apply raises_get_heap|]. intros h.
  apply raises_set_heap.
Qed.

Lemma raises_alloc x : raises E (alloc x).
Proof.
  unfold alloc. apply raises_bind; [apply raises_get_heap|]. intros h.
  apply raises_bind; [apply raises_set_heap|]. intros _. apply raises_ret.
Qed.

Lemma raises_Document_empty d : raises E (Document_empty d).
Proof.
  unfold Document_empty. apply raises_bind; [apply raises_load|]. intros x.
  apply raises_lift. intros e ->%all_empty_error. exact HA.
Qed.

Lemma raises_Document_append d e : raises E (Document_append d e).
Proof.
  unfold Document_append. apply raises_bind; [apply raises_load|]. intros x.
  apply raises_store.
Qed.

Lemma raises_Document_pop d : raises E (Document_pop d).
Proof.
  unfold Document_pop. apply raises_bind; [apply raises_load|]. intros x.
  destruct (last (content x)); [|apply raises_raise, HI].
  apply raises_bind; [apply raises_store|]. intros _. apply raises_ret.
Qed.

Lemma raises_Document_paragraph d : raises E (Document_paragraph d).
Proof.
  unfold Document_paragraph. apply raises_bind; [apply raises_get_heap|].
  intros h. apply raises_lift. intros e [->| ->]%paragraph_in_error; assumption.
Qed.

Lemma raises_Paragraph_content d : raises E (Paragraph_content d).
Proof.
  unfold Paragraph_content. apply raises_bind; [apply raises_load|]. intros x.
  repeat raises_step.
Qed.

Lemma raises_Paragraph_empty d : raises E (Paragraph_empty d).
Proof.
  unfold Paragraph_empty. apply raises_bind; [apply raises_Paragraph_content|].
  intros c. apply raises_ret.
Qed.

Lemma raises_Paragraph_set d c : raises E (Paragraph_set d c).
Proof.
  unfold Paragraph_set. apply raises_bind; [apply raises_load|]. intros x.
  apply raises_store.
Qed.

Lemma raises_Paragraph_append d i : raises E (Paragraph_append d i).
Proof.
  unfold Paragraph_append. apply raises_bind; [apply raises_Paragraph_content|].
  intros c. apply raises_Paragraph_set.
Qed.

Lemma raises_Paragraph_line d : raises E (Paragraph_line d).
Proof.
  unfold Paragraph_line. apply raises_bind; [apply raises_get_heap|].
  intros h. apply raises_lift. intros e [->| ->]%line_in_error; assumption.
Qed.

Lemma raises_Line_append l src : raises E (Line_append l src).
Proof.
  unfold Line_append. destruct l as [d|]; [|apply raises_raise, HA].
  apply raises_bind; [apply raises_Paragraph_content|]. intros c.
  destruct (last c) as [[| | |]|]; try (apply raises_raise, HS).
  apply raises_Paragraph_set.
Qed.

Lemma raises_document : raises E document.
Proof.
  unfold document. apply raises_bind; [apply raises_get_stack|]. intros st.
  repeat raises_step.
Qed.

Lemma raises_total_indent : raises E total_indent.
Proof.
  unfold total_indent. apply raises_bind; [apply raises_get_heap|]. intros h.
  apply raises_bind; [apply raises_get_stack|]. intros st.
  apply raises_lift. intros e ->%indent_sum_error. exact HS.
Qed.

Lemma raises_stack_pop : raises E stack_pop.
Proof.
  unfold stack_pop. apply raises_bind; [apply raises_get_stack|]. intros st.
  destruct (last st); [|apply raises_raise, HI].
  apply raises_bind; [apply raises_set_stack|]. intros _. apply raises_ret.
Qed.

Lemma raises_stack_push d : raises E (stack_push d).
Proof.
  unfold stack_push. apply raises_bind; [apply raises_get_stack|]. intros st.
  apply raises_set_stack.
Qed.

Lemma raises_pop_one : raises E pop_one.
Proof.
  unfold pop_one. apply raises_bind; [apply raises_stack_pop|]. intros previous.
  apply raises_bind; [apply raises_Document_empty|]. intros e.
  destruct e; [apply raises_ret|].
  apply raises_bind; [apply raises_Document_paragraph|]. intros p.
  apply raises_bind; [apply raises_Paragraph_empty|]. intros pe.
  apply raises_when.
  apply raises_bind; [apply raises_document|]. intros d.
  apply raises_bind; [apply raises_Document_pop|]. intros x.
  apply raises_Document_append.
Qed.

Lemma raises_pop_loop fuel t : raises E (pop_loop fuel t).
Proof.
  induction fuel as [|fuel IH]; cbn [pop_loop]; [apply raises_raise, HS|].
  apply raises_bind; [apply raises_get_stack|]. intros st.
  destruct (_ && _); [|apply raises_ret].
  apply raises_bind; [apply raises_total_indent|]. intros ind.
  destruct (negb _); [|apply raises_ret].
  apply raises_bind; [apply raises_pop_one|]. intros _. exact IH.
Qed.

Lemma raises_pop_scopes t : raises E (pop_scopes t).
Proof.
  unfold pop_scopes. apply raises_bind; [apply raises_get_stack|]. intros st.
  apply raises_pop_loop.
Qed.

Lemma raises_mark_title : raises E mark_title.
Proof.
  unfold mark_title.
  apply raises_bind; [apply raises_document|]. intros d.
  apply raises_bind; [apply raises_Document_pop|]. intros x.
  apply raises_bind; [apply raises_document|]. intros d'.
  apply raises_bind; [apply raises_load|]. intros y.
  apply raises_bind; [apply raises_store|]. intros _.
  apply raises_bind; [apply raises_document|]. intros d''.
  apply raises_Document_append.
Qed.

Lemma raises_open_section level pad title :
  raises E (open_section level pad title).
Proof.
  unfold open_section.
  apply raises_bind; [apply raises_document|]. intros d.
  apply raises_bind; [apply raises_Document_paragraph|]. intros p.
  apply raises_bind; [apply raises_Paragraph_empty|]. intros pe.
  apply raises_bind.
  { apply raises_when.
    apply raises_bind; [apply raises_document|]. intros d'.
    apply raises_bind; [apply raises_Document_pop|]. intros x.
    apply raises_ret. }
  intros _.
  apply raises_bind; [apply raises_alloc|]. intros v.
  apply raises_bind; [apply raises_document|]. intros d'.
  apply raises_bind; [apply raises_Document_append|]. intros _.
  apply raises_stack_push.
Qed.

Lemma raises_open_aside t : raises E (open_aside t).
Proof.
  unfold open_aside. destruct (match_aside t) as [[n kind]|]; [|apply raises_ret].
  apply raises_bind; [apply raises_alloc|]. intros v.
  apply raises_bind; [apply raises_document|]. intros d.
  apply raises_bind; [apply raises_Document_paragraph|]. intros p.
  apply raises_bind; [apply raises_Paragraph_append|]. intros _.
  apply raises_bind; [apply raises_stack_push|]. intros _.
  apply raises_ret.
Qed.

Lemma raises_open_list t : raises E (open_list t).
Proof.
  unfold open_list. destruct (match_list t) as [n|]; [|apply raises_ret].
  apply raises_bind; [apply raises_alloc|]. intros v.
  apply raises_bind; [apply raises_document|]. intros d.
  apply raises_bind; [apply raises_Document_paragraph|]. intros p.
  apply raises_bind; [apply raises_Paragraph_append|]. intros _.
  apply raises_bind; [apply raises_stack_push|]. intros _.
  apply raises_ret.
Qed.

Lemma raises_break_paragraph : raises E break_paragraph.
Proof.
  unfold break_paragraph.
  apply raises_bind; [apply raises_document|]. intros d.
  apply raises_bind; [apply raises_Document_paragraph|]. intros p.
  apply raises_bind; [apply raises_Paragraph_empty|]. intros pe.
  destruct pe; [apply raises_ret|].
  apply raises_bind; [apply raises_document|]. intros d'.
  apply raises_Document_append.
Qed.

(** The three places of a [ValueError], and the one of a
    [StopIteration]. *)
Lemma raises_claim_space ref t :
  E (ValueError root_msg ref) -> raises E (claim_space ref t).
Proof.
  intros HV. unfold claim_space.
  apply raises_bind; [apply raises_document|]. intros d.
  apply raises_bind; [apply raises_Document_empty|]. intros e.
  destruct e; [|apply raises_ret].
  apply raises_bind; [apply raises_get_stack|]. intros st.
  destruct (_ && _); [apply raises_raise, HV|].
  apply raises_bind; [apply raises_document|]. intros d'.
  apply raises_bind; [apply raises_load|]. intros x.
  apply raises_bind; [apply raises_store|]. intros _.
  apply raises_ret.
Qed.

Lemma raises_strip_indent ref t :
  E (ValueError root_msg ref) -> raises E (strip_indent ref t).
Proof.
  intros HV. unfold strip_indent.
  apply raises_bind; [apply raises_pop_scopes|]. intros _.
  apply raises_bind; [apply raises_total_indent|]. intros ind.
  apply raises_claim_space, HV.
Qed.

Lemma raises_open_line ref t :
  E (ValueError indentation_msg ref) -> raises E (open_line ref t).
Proof.
  intros HV. unfold open_line.
  apply raises_bind; [apply raises_document|]. intros d.
  apply raises_bind; [apply raises_Document_paragraph|]. intros p.
  destruct (starts_nonspace t).
  - apply raises_bind; [apply raises_Paragraph_append|]. intros _.
    apply raises_ret.
  - apply raises_bind; [apply raises_Paragraph_empty|]. intros pe.
    destruct pe; [apply raises_raise, HV|apply raises_ret].
Qed.

Lemma raises_append_words ref t :
  E (ValueError spaces_msg ref) -> raises E (append_words ref t).
Proof.
  intros HV. unfold append_words.
  apply raises_bind.
  { apply raises_lift. intros e ->%tokenize_error. exact HV. }
  intros src.
  apply raises_bind; [apply raises_document|]. intros d.
  apply raises_bind; [apply raises_Document_paragraph|]. intros p.
  apply raises_bind; [apply raises_Paragraph_line|]. intros l.
  apply raises_Line_append.
Qed.

Lemma raises_inline_rules ref t :
  E (ValueError indentation_msg ref) -> E (ValueError spaces_msg ref) ->
  raises E (inline_rules ref t).
Proof.
  intros HV1 HV2. unfold inline_rules.
  apply raises_bind; [apply raises_open_aside|]. intros t1.
  apply raises_bind; [apply raises_open_list|]. intros t2.
  destruct (is_blank t2); [apply raises_break_paragraph|].
  apply raises_bind; [apply raises_open_line, HV1|]. intros t3.
  apply raises_append_words, HV2.
Qed.

Lemma raises_block_lines it : forall content,
  E StopIteration -> raises E (block_lines it content).
Proof.
  induction it as [|[no t] it IH]; intros content HV; cbn [block_lines];
    [apply raises_raise, HV|].
  apply raises_bind; [apply raises_set_lineno|]. intros _.
  apply raises_bind; [apply raises_total_indent|]. intros ind.
  destruct (is_block_end _); [apply raises_ret|apply IH, HV].
Qed.

Lemma raises_read_block language it :
  E StopIteration -> raises E (read_block language it).
Proof.
  intros HV. unfold read_block.
  apply raises_bind; [apply raises_block_lines, HV|]. intros r.
  apply raises_bind; [apply raises_document|]. intros d.
  apply raises_bind; [apply raises_Document_paragraph|]. intros p.
  apply raises_bind; [apply raises_Paragraph_append|]. intros _.
  apply raises_ret.
Qed.

Lemma raises_handler lines e : E e -> raises E (handler lines e).
Proof.
  intros He. unfold handler.
  apply raises_bind; [apply raises_total_indent|]. intros ind s e' s'.
  destruct (lines !! lineno s); [destruct (ind <? _)|]; intros [= <- _];
    assumption.
Qed.

Lemma raises_try {A} (m : M A) h :
  raises E m -> (forall e, E e -> raises E (h e)) -> raises E (try m h).
Proof.
  intros Hm Hh s e s'. unfold try. destruct (m s) as [a s1|e1 s1] eqn:Em;
    [discriminate|].
  apply Hh. eapply Hm, Em.
Qed.
End Raises.

Lemma made_trivial (h : Store) :
  Forall (document_made (fun _ => True) (fun _ => True) (fun _ => True)
            (fun _ _ => True) True) h.
Proof.
  assert (Hi : forall c : list (Item nat),
            Forall (item_made (fun _ => True) (fun _ => True) (fun _ => True)) c).
  { intros c. apply Forall_forall. intros [| | |] _; cbn; try exact I;
      apply Forall_forall; intros; exact I. }
  assert (He : forall e : Entry nat,
            entry_made (fun _ => True) (fun _ => True) (fun _ => True)
              (fun _ _ => True) e).
  { intros [c|]; cbn; [apply Hi|exact I]. }
  apply Forall_forall. intros x _. split.
  - apply Forall_forall. intros e _. apply He.
  - destruct (title x); [split; [exact I|apply He]|exact I].
Qed.

Lemma strip_indent_rest ref t s t1 s1 :
  strip_indent ref t s = Ok t1 s1 -> rest_of t t1.
Proof.
  intros H.
  exact (proj2 (made_strip_indent (fun _ => True) (fun _ => True)
                  (fun _ => True) (fun _ _ => True) True ref t s t1 s1
                  (made_trivial _) H)).
Qed.

Lemma process_line_suffix ref t it s it' s' :
  process_line ref t it s = Ok it' s' -> it' `suffix_of` it.
Proof.
  intros H.
  refine (proj2 (made_process_line (fun _ => True) (fun _ => True)
                   (fun _ => True) (fun _ _ => True) True ref t it
                   _ _ _ _ _ s it' s' (made_trivial _) H)); intros; exact I.
Qed.

(** The exceptions of a line. *)
Lemma raises_process_line ref t it :
  raises (line_error ref t) (process_line ref t it).
Proof.
  assert (HV : forall msg, parse_msg msg -> line_error ref t (ValueError msg ref)).
  { intros msg Hm. split; [reflexivity|exact Hm]. }
  unfold process_line.
  apply raises_bind_post with (Q := rest_of t).
  { apply raises_strip_indent; try exact I. apply HV. right. left. reflexivity. }
  { intros s a s'. apply strip_indent_rest. }
  intros t1 Ht1.
  destruct (is_title t1).
  { apply raises_bind; [apply raises_mark_title; exact I|]. intros _.
    apply raises_ret. }
  destruct (match_heading t1) as [[[level pad] title]|].
  { apply raises_bind; [apply raises_open_section; exact I|]. intros _.
    apply raises_ret. }
  destruct (match_block t1) as [language|] eqn:Eb.
  { apply raises_read_block; try exact I. exists t1. rewrite Eb. eauto. }
  apply raises_bind; [|intros _; apply raises_ret].
  apply raises_inline_rules; try exact I; apply HV.
  - right. right. reflexivity.
  - left. reflexivity.
Qed.

Lemma raises_for_lines fuel lines : forall it,
  lines_of lines it ->
  raises (fun e => e = Stuck \/ file_error lines e) (for_lines fuel lines it).
Proof.
  induction fuel as [|fuel IH]; intros [|[no t] it] Hit; cbn [for_lines];
    try apply raises_ret; [apply raises_raise; auto|].
  apply Forall_cons in Hit as [Ht Hit]. cbn in Ht.
  apply raises_bind; [apply raises_set_lineno|]. intros _.
  apply raises_bind_post with (Q := fun it' => it' `suffix_of` it).
  - apply raises_try.
    + eapply raises_weaken; [apply raises_process_line|].
      intros [msg r| | | |]; cbn; auto.
      * intros [-> Hm]. right. replace (no + 1 - 1) with no by lia.
        rewrite Ht. split; [eauto|]. split; [lia|exact Hm].
      * intros (t' & Hr & Hb). right. exists t, t'.
        split; [eapply list_elem_of_lookup_2, Ht|]. auto.
    + intros e He. apply raises_handler; cbn; auto.
  - intros s a s' H. unfold try in H.
    destruct (process_line _ _ _ s) as [a' s1|e s1] eqn:Ep.
    + injection H as -> ->. eapply process_line_suffix, Ep.
    + destruct (handler_raises _ _ _ _ _ H).
  - intros it' [k ->]. apply IH. apply Forall_app in Hit. tauto.
Qed.

Lemma lines_of_enumerate lines : lines_of lines (enumerate lines).
Proof.
  apply Forall_forall. intros [no l] [_ H]%enumerate_from_lookup.
  rewrite Nat.sub_0_r in H. exact H.
Qed.

Lemma parse_errors file e :
  parse file = inl e -> file_error (splitlines file) e.
Proof.
  intros Hp.
  assert (Hs : e <> Stuck).
  { intros ->. exact (parse_not_stuck _ Hp). }
  unfold parse in Hp.
  destruct (parse_lines _ _) as [root s|e' s] eqn:E.
  { destruct (reify _ _ _); [discriminate|]. injection Hp as <-. congruence. }
  injection Hp as ->.
  assert (Hr : raises (fun e => e = Stuck \/ file_error (splitlines file) e)
                 (parse_lines (splitlines file))).
  { unfold parse_lines.
    apply raises_bind; [apply raises_for_lines, lines_of_enumerate|]. intros _.
    apply raises_bind; [intros s0 e0 s0' [=]|]. intros [|root st].
    - apply raises_raise. right. exact I.
    - apply raises_ret. }
  destruct (Hr _ _ _ E) as [->|H]; [congruence|exact H].
Qed.

(** X17: what an exception of [parse] says of the file.  A [ValueError]
    has one of the three messages of [parse] and names a line of the file,
    counted from 1; a [StopIteration] is raised only when a fence that
    opens a block is matched on a line of the file, from some column on;
    every other exception is an [AttributeError] or an [IndexError]. *)
Theorem X17_parse_exceptions file e :
  parse file = inl e -> file_error (splitlines file) e.
Proof. apply parse_errors. Qed.

Lemma X17_parse_exceptions_witness :
  file_error (splitlines (file_of ["a"; "*b c*"])) (ValueError spaces_msg 2).
Proof.
  apply (X17_parse_exceptions (file_of ["a"; "*b c*"])).
  vm_compute. reflexivity.
Defined.

(** ** When the tokenizer fails *)

Lemma forallb_false_elem {A} (p : A -> bool) l :
  forallb p l = false -> exists x, x ∈ l /\ p x = false.
Proof.
  induction l as [|x l IH]; cbn; [discriminate|].
  destruct (p x) eqn:E; cbn.
  - intros (y & Hy & Hp)%IH. exists y. split; [right|]; assumption.
  - intros _. exists x. split; [left|assumption].
Qed.

Lemma words_loop_no_space ref ws : forall m acc,
  Forall (fun w => forallb (fun c => negb (is_space c)) w = true) ws ->
  exists content, words_loop ref ws m acc = inr content.
Proof.
  induction ws as [|w ws IH]; intros m acc Hws; cbn [words_loop]; [eauto|].
  apply Forall_cons in Hws as [Hw Hws].
  destruct w as [|c w']; [apply IH, Hws|].
  cbn in Hw. apply andb_prop in Hw as [Hc%negb_true_iff _].
  destruct (mapping c); [apply IH, Hws|].
  rewrite Hc, andb_false_r. apply IH, Hws.
Qed.

Lemma tokenize_fails ref t e :
  tokenize ref t = inl e ->
  e = ValueError spaces_msg ref /\
  (exists c, c ∈ rstrip t /\ is_space c = true) /\
  (exists c, c ∈ t /\ is_mark c = true).
Proof.
  intros H. split; [eapply tokenize_error, H|]. split.
  - destruct (forallb (fun c => negb (is_space c)) (rstrip t)) eqn:E.
    + exfalso. unfold tokenize in H.
      destruct (re_split_text (rstrip t)) as [_ Hc].
      rewrite <- Hc in E. apply forallb_concat in E.
      destruct (words_loop_no_space ref _ NONE [] E) as [content Hw].
      rewrite Hw in H. discriminate.
    + apply forallb_false_elem in E as (c & Hc & Hs%negb_false_iff). eauto.
  - destruct (forallb (fun c => negb (is_mark c)) t) eqn:E.
    + destruct (tokenize_plain_words ref t E) as (ws & Hs & _). congruence.
    + apply forallb_false_elem in E as (c & Hc & Hs%negb_false_iff). eauto.
Qed.

(** X20: the tokenizer fails in one way only.  Its exception is the
    [ValueError] of line 307 with the reference of the line, and the text
    then holds white space before its last character that is not white
    space, and a sigil, a quote or a bracket: a text without inner white
    space is tokenized whatever its sigils are, closed or not, and so is a
    text without sigils, quotes and brackets. *)
Theorem X20_tokenize_fails ref t e :
  tokenize ref t = inl e ->
  e = ValueError spaces_msg ref /\
  (exists c, c ∈ rstrip t /\ is_space c = true) /\
  (exists c, c ∈ t /\ is_mark c = true).
Proof. apply tokenize_fails. Qed.

Lemma X20_tokenize_fails_witness :
  ValueError spaces_msg 7 = ValueError spaces_msg 7 /\
  (exists c, c ∈ rstrip (str "_a b_ c  ") /\ is_space c = true) /\
  (exists c, c ∈ str "_a b_ c  " /\ is_mark c = true).
Proof. apply (X20_tokenize_fails 7 (str "_a b_ c  ")). reflexivity. Defined.

(** * Properties of the renderer *)

(** ** The style of a list *)

(** What is left of a text without the white space at its end. *)
Lemma span_blank_prefix p (l r : text) c :
  forallb p l = true -> p c = false -> span p (l ++ c :: r) = length l.
Proof.
  induction l as [|x l IH]; cbn; intros Hl Hc.
  - rewrite Hc. reflexivity.
  - apply andb_prop in Hl as [-> Hl]. rewrite IH by assumption. reflexivity.
Qed.

Lemma rstrip_snoc_blank (a ws : text) c :
  is_space c = false -> is_blank ws = true -> rstrip (a ++ c :: ws) = a ++ [c].
Proof.
  intros Hc Hws. unfold rstrip, lstrip, leading_space.
  change (a ++ c :: ws) with (a ++ [c] ++ ws).
  rewrite !rev_app_distr. cbn [rev app]. rewrite <- app_assoc. cbn [app].
  rewrite span_blank_prefix; [|apply forallb_rev_true, Hws|exact Hc].
  rewrite drop_app_length. cbn [rev]. rewrite rev_involutive. reflexivity.
Qed.

Lemma is_char_eq a c : is_char a c = true -> c = a.
Proof. intros H. symmetry. apply Ascii.eqb_eq, H. Qed.

Lemma span_forall p (t : text) : forallb p (take (span p t) t) = true.
Proof.
  induction t as [|c t IH]; [reflexivity|]. cbn.
  destruct (p c) eqn:E; [|reflexivity]. cbn. rewrite E. exact IH.
Qed.

Lemma take_span_snoc p (t : text) c r :
  drop (span p t) t = c :: r ->
  take (S (span p t)) t = take (span p t) t ++ [c] /\ S (span p t) <= length t.
Proof.
  intros H. pose proof (take_drop (span p t) t) as Ht. rewrite H in Ht.
  split.
  - apply take_S_r. rewrite <- Ht at 2.
    rewrite lookup_app_r by (rewrite length_take; lia).
    rewrite length_take.
    replace (span p t - span p t `min` length t) with 0
      by (pose proof (span_le p t); lia).
    reflexivity.
  - apply (f_equal length) in Ht. rewrite length_app, length_take in Ht.
    cbn in Ht. pose proof (span_le p t). lia.
Qed.

Lemma forallb_last {A} (p : A -> bool) (l : list A) :
  l <> [] -> forallb p l = true -> exists a c, l = a ++ [c] /\ p c = true.
Proof.
  destruct l as [|x l _] using rev_ind; [congruence|]. intros _ H.
  rewrite forallb_app in H. apply andb_prop in H as [_ H]. cbn in H.
  apply andb_prop in H as [H _]. eauto.
Qed.

Lemma match_list_unit_ends t k :
  match_list_unit t = Some k -> ends_unit (take k t) /\ k <= length t.
Proof.
  unfold match_list_unit. destruct t as [|c0 t0] eqn:Et; [discriminate|].
  rewrite <- Et.
  assert (Hclass : forall p, p c0 = true ->
            forall d r, drop (span p t) t = d :: r -> is_char ch_dot d = true ->
            (forall c, p c = true -> is_upper c = true \/ is_digit c = true) ->
            ends_unit (take (S (span p t)) t) /\ S (span p t) <= length t).
  { intros p Hp d r Hd Hdot Hcls.
    destruct (take_span_snoc p t d r Hd) as [Htake Hlen]. split; [|exact Hlen].
    destruct (forallb_last p (take (span p t) t)) as (a & c & Ha & Hc).
    - rewrite Et. cbn. rewrite Hp. discriminate.
    - apply span_forall.
    - left. exists a, c. rewrite Htake, Ha, <- app_assoc.
      rewrite (is_char_eq _ _ Hdot). auto. }
  destruct (is_upper c0) eqn:Eu.
  { destruct (drop (span is_upper t) t) as [|d r] eqn:Ed; [discriminate|].
    destruct (is_char ch_dot d) eqn:Edot; [|discriminate].
    intros [= <-]. eapply Hclass; eauto. }
  destruct (is_digit c0) eqn:Eg.
  { destruct (drop (span is_digit t) t) as [|d r] eqn:Ed; [discriminate|].
    destruct (is_char ch_dot d) eqn:Edot; [|discriminate].
    intros [= <-]. eapply Hclass; eauto. }
  destruct (drop (span is_space t) t) as [|d r] eqn:Ed; [discriminate|].
  destruct (is_char ch_dash d) eqn:Edash; [|discriminate].
  intros [= <-]. destruct (take_span_snoc is_space t d r Ed) as [Htake Hlen].
  split; [|exact Hlen]. right. exists (take (span is_space t) t).
  rewrite Htake, (is_char_eq _ _ Edash). reflexivity.
Qed.

Lemma match_list_end_blank t e :
  match_list_end t = Some e -> is_blank (take e t) = true /\ e <= length t.
Proof.
  unfold match_list_end, leading_space.
  destruct (span is_space t) as [|n] eqn:E.
  - destruct t; [|discriminate]. intros [= <-]. split; [reflexivity|cbn; lia].
  - intros [= <-]. rewrite <- E. split; [apply span_forall|apply span_le].
Qed.

Lemma match_list_rest_shape fuel t n :
  match_list_rest fuel t = Some n ->
  n <= length t /\ (is_blank (take n t) = true \/ marker_shape (take n t)).
Proof.
  revert t n. induction fuel as [|fuel IH]; intros t n; cbn [match_list_rest].
  - intros [H1 H2]%match_list_end_blank. auto.
  - destruct (match_list_unit t) as [k|] eqn:Ek;
      [|intros [H1 H2]%match_list_end_blank; auto].
    destruct (match_list_rest fuel (drop k t)) as [n'|] eqn:En;
      [|intros [H1 H2]%match_list_end_blank; auto].
    intros [= <-]. destruct (match_list_unit_ends t k Ek) as [Hu Hk].
    destruct (IH _ _ En) as [Hn Hs]. rewrite length_drop in Hn.
    split; [lia|]. right. rewrite <- take_take_drop.
    destruct Hs as [Hb|(p & u & ws & -> & Hu' & Hws)].
    + exists [], (take k t), (take n' (drop k t)). auto.
    + exists (take k t ++ p), u, ws. rewrite <- app_assoc. auto.
Qed.

Lemma match_list_shape t n :
  match_list t = Some n -> 0 < n <= length t /\ marker_shape (take n t).
Proof.
  unfold match_list. destruct (match_list_unit t) as [k|] eqn:Ek; [|discriminate].
  destruct (match_list_rest (length t) (drop k t)) as [n'|] eqn:En;
    [|discriminate].
  intros [= <-]. destruct (match_list_unit_ends t k Ek) as [Hu Hk].
  apply match_list_unit_pos in Ek.
  destruct (match_list_rest_shape _ _ _ En) as [Hn Hs].
  rewrite length_drop in Hn. split; [lia|]. rewrite <- take_take_drop.
  destruct Hs as [Hb|(p & u & ws & -> & Hu' & Hws)].
  - exists [], (take k t), (take n' (drop k t)). auto.
  - exists (take k t ++ p), u, ws. rewrite <- app_assoc. auto.
Qed.

Lemma marker_shape_tags m : marker_shape m -> is_Some (Html.list_tags m).
Proof.
  intros (p & u & ws & -> & Hu & Hws). unfold Html.list_tags.
  destruct Hu as [(a & c & -> & Hc)|(a & ->)].
  - assert (Hr : rev (rstrip (p ++ (a ++ [c; ch_dot]) ++ ws)) =
                 ch_dot :: c :: rev (p ++ a)).
    { replace (p ++ (a ++ [c; ch_dot]) ++ ws)
        with ((p ++ a ++ [c]) ++ ch_dot :: ws)
        by (rewrite <- !app_assoc; reflexivity).
      rewrite rstrip_snoc_blank by (auto; reflexivity).
      rewrite rev_unit, app_assoc, rev_unit. reflexivity. }
    unfold Html.search_dot, Html.search_dash. rewrite Hr. cbn [is_char].
    change (Ascii.eqb ch_dot ch_dot) with true.
    change (Ascii.eqb ch_dash ch_dot) with false. cbn [andb].
    destruct Hc as [-> | ->]; destruct (is_upper c), (is_digit c),
      (Html.is_roman c); eauto.
  - assert (Hr : rev (rstrip (p ++ (a ++ [ch_dash]) ++ ws)) =
                 ch_dash :: rev (p ++ a)).
    { replace (p ++ (a ++ [ch_dash]) ++ ws) with ((p ++ a) ++ ch_dash :: ws)
        by (rewrite <- !app_assoc; reflexivity).
      rewrite rstrip_snoc_blank by (auto; reflexivity).
      rewrite rev_unit. reflexivity. }
    unfold Html.search_dash. rewrite Hr.
    change (is_char ch_dash ch_dash) with true. cbn. eauto.
Qed.

Lemma match_list_tags t n :
  match_list t = Some n -> is_Some (Html.list_tags (take n t)).
Proof. intros [_ H]%match_list_shape. apply marker_shape_tags, H. Qed.

(** X5: the renderer finds a style for every marker that the list rule of
    the parser matches: the marker ends with a unit (capital letters or
    digits and a dot, or a dash) and white space, which one of the four
    patterns of [list_as_html] finds, so [start] and [end] are set and the
    assertions of lines 91 and 92 hold. *)
Theorem X5_marker_style t n :
  match_list t = Some n ->
  0 < n <= length t /\ marker_shape (take n t) /\
  is_Some (Html.list_tags (take n t)).
Proof.
  intros H. destruct (match_list_shape t n H) as [Hn Hs].
  split; [exact Hn|]. split; [exact Hs|]. apply marker_shape_tags, Hs.
Qed.

Lemma X5_marker_style_witness :
  0 < 4 <= length (str "IV. x") /\ marker_shape (take 4 (str "IV. x")) /\
  is_Some (Html.list_tags (take 4 (str "IV. x"))).
Proof. apply X5_marker_style. reflexivity. Defined.

(** ** Lines of plain text *)

Lemma rstrip_app_blank (t ws : text) :
  is_blank ws = true -> rstrip (t ++ ws) = rstrip t.
Proof.
  intros Hws. unfold rstrip, lstrip, leading_space. rewrite rev_app_distr.
  f_equal. apply forallb_rev_true in Hws. revert Hws.
  generalize (rev ws). intros l Hl.
  induction l as [|c l IH]; [reflexivity|]. cbn in *.
  apply andb_prop in Hl as [-> Hl]. cbn. auto.
Qed.

Lemma lstrip_idem t : lstrip (lstrip t) = lstrip t.
Proof.
  unfold lstrip, leading_space. induction t as [|c t IH]; [reflexivity|].
  cbn. destruct (is_space c) eqn:E; cbn; [exact IH|]. rewrite E. reflexivity.
Qed.

Lemma rstrip_idem t : rstrip (rstrip t) = rstrip t.
Proof. unfold rstrip. rewrite rev_involutive, lstrip_idem. reflexivity. Qed.

Lemma all_tags_none w : Html.all_tags w NONE = [].
Proof. reflexivity. Qed.

Lemma words_html_plain ws :
  Forall (fun w => modifier w = NONE) ws ->
  Html.words_html NONE ws = (concat (map value ws), NONE).
Proof.
  induction 1 as [|w ws Hw _ IH]; [reflexivity|].
  cbn [Html.words_html]. rewrite Hw, IH. reflexivity.
Qed.

Lemma src_html_plain src :
  Forall (fun w => modifier w = NONE) (src_content src) ->
  Html.src_html src = concat (map value (src_content src)) ++ str " ".
Proof.
  intros H. unfold Html.src_html. rewrite (words_html_plain _ H). reflexivity.
Qed.

Lemma tokenize_plain_html ref t src :
  forallb (fun c => negb (is_mark c)) t = true ->
  tokenize ref t = inr src -> Html.src_html src = rstrip t ++ str " ".
Proof.
  intros Ht Hs. destruct (tokenize_plain_words ref t Ht) as (ws & E & Hws & Hv).
  rewrite E in Hs. injection Hs as <-.
  rewrite src_html_plain by exact Hws. cbn [src_content source].
  rewrite Hv. reflexivity.
Qed.

Lemma plain_line_html (ts : list (nat * text)) srcs :
  Forall (fun l => forallb (fun c => negb (is_mark c)) (snd l) = true) ts ->
  Forall2 (fun l src => tokenize (fst l) (snd l) = inr src) ts srcs ->
  Html.l_as_html srcs =
    rstrip (concat (map (fun l => rstrip (snd l) ++ str " ") ts)) ++ str "<br>".
Proof.
  intros Hts Hs. unfold Html.l_as_html. do 2 f_equal.
  induction Hs as [|[ref t] src ts srcs H _ IH]; [reflexivity|].
  apply Forall_cons in Hts as [Ht Hts]. cbn [map concat fst snd] in *.
  rewrite (tokenize_plain_html ref t src Ht H), IH by exact Hts. reflexivity.
Qed.

(** X6: plain text passes through the tokenizer and the renderer as it
    is.  A line whose source lines are texts without sigils, quotes and
    brackets is rendered as these texts, each without the white space at
    its end and followed by one space, without the white space at the end
    of the whole, and [<br>]: nothing is escaped, and the white space
    between the words is kept.  A line of one such text is rendered as the
    text without the white space at its end, and [<br>]. *)
Theorem X6_plain_line :
  (forall (ts : list (nat * text)) srcs,
     Forall (fun l => forallb (fun c => negb (is_mark c)) (snd l) = true) ts ->
     Forall2 (fun l src => tokenize (fst l) (snd l) = inr src) ts srcs ->
     Html.l_as_html srcs =
       rstrip (concat (map (fun l => rstrip (snd l) ++ str " ") ts))
       ++ str "<br>") /\
  (forall ref t src,
     forallb (fun c => negb (is_mark c)) t = true ->
     tokenize ref t = inr src ->
     Html.l_as_html [src] = rstrip t ++ str "<br>").
Proof.
  split; [exact plain_line_html|]. intros ref t src Ht Hs.
  rewrite (plain_line_html [(ref, t)] [src]); [|repeat constructor; assumption..].
  cbn [map concat snd]. rewrite app_nil_r.
  rewrite rstrip_app_blank by reflexivity. rewrite rstrip_idem. reflexivity.
Qed.

Lemma X6_plain_line_witness :
  Html.l_as_html [source 1 [word "a" NONE; word "  " NONE; word "<" NONE;
                            word " " NONE; word "b" NONE]] =
    rstrip (str "a  < b ") ++ str "<br>".
Proof.
  apply (proj2 X6_plain_line 1 (str "a  < b ")); reflexivity.
Defined.

(** ** Lists in a paragraph *)

Lemma take_lists_all (ls : list (text * Tree)) k :
  Html.take_lists
    (zip (seq k (length ls)) (map (fun l => List_ (fst l) (snd l)) ls)) =
    (ls, []).
Proof.
  revert k. induction ls as [|[m d] ls IH]; intros k; [reflexivity|].
  cbn. rewrite IH. reflexivity.
Qed.

Lemma p_loop_nil dedent d_as_html fuel len nesting :
  Html.p_loop dedent d_as_html fuel len [] nesting = inr [].
Proof. destruct fuel; reflexivity. Qed.

(** X7: a paragraph of [List] items only is rendered as one list: the
    consecutive items share the element that [list_as_html] opens for the
    first of them, whose marker alone decides the style. *)
Theorem X7_lists_grouped dedent d_as_html (ls : list (text * Tree)) nesting :
  ls <> [] ->
  Html.p_as_html dedent d_as_html
    (map (fun l => List_ (fst l) (snd l)) ls) nesting =
    Html.and_then (Html.list_as_html d_as_html ls nesting)
      (fun a => inr (str "<p>" :: a ++ [str "</p>"])).
Proof.
  destruct ls as [|[m d] ls]; [congruence|]. intros _.
  unfold Html.p_as_html. rewrite List.length_map. cbn [length seq map zip zip_with].
  cbn [Html.p_loop fst snd]. rewrite take_lists_all. cbn [fst snd].
  destruct (Html.list_as_html d_as_html ((m, d) :: ls) nesting) as [e|a];
    [reflexivity|].
  rewrite p_loop_nil. cbn. rewrite app_nil_r. reflexivity.
Qed.

Lemma X7_lists_grouped_witness :
  Html.p_as_html (fun t => t) (fun _ _ => inr [str "item"])
    (map (fun l => List_ (fst l) (snd l))
       [(str "- ", Node (new_document 2)); (str "1. ", Node (new_document 3))])
    0 =
    Html.and_then
      (Html.list_as_html (fun _ _ => inr [str "item"])
         [(str "- ", Node (new_document 2)); (str "1. ", Node (new_document 3))]
         0)
      (fun a => inr (str "<p>" :: a ++ [str "</p>"])).
Proof. apply X7_lists_grouped. discriminate. Defined.

(** ** The shape of the documents *)

Lemma shaped_but h d : store_shaped h -> store_shaped_but d h.
Proof. intros [Hne H]. split; auto. Qed.

Lemma but_insert h d y : store_shaped_but d h -> store_shaped_but d (<[d := y]> h).
Proof.
  intros [Hne H]. split.
  - intros E. apply (f_equal length) in E. rewrite length_insert in E.
    destruct h; [congruence|discriminate].
  - intros d' x Hx Hd. rewrite list_lookup_insert_ne in Hx by congruence. auto.
Qed.

Lemma but_shaped h d :
  store_shaped_but d h -> (forall y, h !! d = Some y -> document_shaped d y) ->
  store_shaped h.
Proof.
  intros [Hne H] Hd. split; [assumption|]. intros d' x Hx.
  destruct (decide (d' = d)) as [->|]; auto.
Qed.

Lemma but_alloc h d n :
  store_shaped_but d h -> 0 < n -> store_shaped_but d (h ++ [new_document n]).
Proof.
  intros [Hne H] Hn. split; [destruct h; [congruence|discriminate]|].
  intros d' x Hx Hd. destruct (decide (d' < length h)) as [Hlt|Hge].
  - rewrite lookup_app_l in Hx by assumption. auto.
  - rewrite lookup_app_r in Hx by lia.
    destruct (d' - length h) as [|k] eqn:E; cbn in Hx; [|discriminate].
    injection Hx as <-. split; [discriminate|].
    destruct d' as [|d']; [|exact Hn].
    destruct h; [congruence|cbn in Hge; lia].
Qed.

Lemma shaped_insert h d x y :
  store_shaped h -> h !! d = Some x -> indent y = indent x ->
  content y <> [] -> store_shaped (<[d := y]> h).
Proof.
  intros H Hx Hi Hc. apply (but_shaped _ d).
  - apply but_insert, shaped_but, H.
  - intros y' Hy. rewrite list_lookup_insert_eq in Hy
      by (eapply lookup_lt_Some; eauto).
    injection Hy as <-. destruct H as [_ H]. destruct (H d x Hx) as [_ Hd].
    split; [assumption|]. rewrite Hi. exact Hd.
Qed.

Lemma snoc_not_nil {A} (l : list A) x : l ++ [x] <> [].
Proof. destruct l; discriminate. Qed.

Lemma based_last st d : based st -> last st = Some d -> d = 0 -> length st = 1.
Proof.
  intros (st' & -> & H) Hl ->. destruct st' as [|d' st'] using rev_ind;
    [reflexivity|].
  rewrite app_comm_cons, last_snoc in Hl. injection Hl as ->.
  apply Forall_app in H as [_ H]. rewrite Forall_singleton in H. congruence.
Qed.

Lemma based_push st v : based st -> v <> 0 -> based (st ++ [v]).
Proof.
  intros (st' & -> & H) Hv. exists (st' ++ [v]). split; [reflexivity|].
  apply Forall_app. split; [assumption|]. apply Forall_singleton, Hv.
Qed.

Lemma based_pop st : based st -> 1 < length st -> based (removelast st).
Proof.
  intros (st' & -> & H) Hl. destruct st' as [|d' st' _] using rev_ind;
    [cbn in Hl; lia|].
  rewrite app_comm_cons, removelast_last. exists st'. split; [reflexivity|].
  apply Forall_app in H. tauto.
Qed.

Lemma shaped_heap_fresh s : shaped s -> length (heap s) <> 0.
Proof. intros [_ [Hne _]]. destruct (heap s); [congruence|discriminate]. Qed.

Lemma paragraph_in_valid fuel (h : Store) d p :
  paragraph_in fuel h d = inr p -> is_Some (h !! d).
Proof.
  destruct fuel; cbn; [discriminate|]. destruct (h !! d); [eauto|discriminate].
Qed.

Lemma all_empty_single {R} (e : Entry R) :
  all_empty [e] = inr false -> exists i c, e = Paragraph (i :: c).
Proof. destruct e as [[|i c]|]; cbn; try discriminate. eauto. Qed.

Lemma shaped_pop_one s u s' :
  shaped s -> 1 < length (stack s) -> pop_one s = Ok u s' -> shaped s'.
Proof.
  intros [Hb Hs] Hlen E. unfold pop_one in E.
  apply bind_Ok in E as (previous & s1 & [Hprev ->]%stack_pop_Ok & E).
  assert (Hb1 : based (removelast (stack s))) by (apply based_pop; assumption).
  apply bind_Ok in E as (e & s2 & [(y & Hy & He) ->]%Document_empty_Ok & E).
  cbn [heap with_stack] in *.
  destruct e; [injection E as _ <-; split; assumption|].
  apply bind_Ok in E as (p & s2 & [Hp ->]%Document_paragraph_Ok & E).
  apply bind_Ok in E as (pe & s2 & [(xp & cp & Hxp & Hcp & ->) ->]%Paragraph_empty_Ok & E).
  apply when_Ok in E as [[Hpe E]|[_ ->]]; [|split; assumption].
  apply bind_Ok in E as (d & s2 & [Hd ->]%document_Ok & E).
  apply bind_Ok in E as (x & s2 & (y' & Hy' & Hlast & ->)%Document_pop_Ok & E).
  apply Document_append_Ok in E as (z & Hz & ->).
  cbn [heap stack with_stack with_heap] in *.
  rewrite Hy in Hy'. injection Hy' as <-.
  split; [assumption|].
  assert (Hrest : removelast (content y) <> []).
  { intros Hnil. pose proof (last_removelast _ _ Hlast) as Hc.
    rewrite Hnil in Hc. cbn in Hc. rewrite Hc in He.
    destruct (all_empty_single _ He) as (i & c & ->).
    assert (p = previous) as ->.
    { destruct (length (heap s)) eqn:El;
        [apply lookup_lt_Some in Hy; lia|].
      cbn in Hp. rewrite Hy, Hc in Hp. cbn in Hp. congruence. }
    rewrite Hy in Hxp. injection Hxp as <-. rewrite Hc in Hcp. cbn in Hcp.
    injection Hcp as <-. discriminate. }
  eapply shaped_insert; [|exact Hz|reflexivity|apply snoc_not_nil].
  eapply shaped_insert; [exact Hs|exact Hy|reflexivity|exact Hrest].
Qed.

Lemma shaped_pop_loop fuel t s u s' :
  shaped s -> pop_loop fuel t s = Ok u s' -> shaped s'.
Proof.
  revert s. induction fuel as [|fuel IH]; intros s H E; cbn [pop_loop] in E;
    [discriminate|].
  apply bind_Ok in E as (st & s1 & [= <- <-] & E).
  destruct (1 <? length (stack s)) eqn:E1; cbn [andb] in E;
    [|injection E as _ <-; assumption].
  destruct (0 <? length t); [|injection E as _ <-; assumption].
  apply bind_Ok in E as (ind & s1 & [_ ->]%total_indent_Ok & E).
  destruct (negb _); [|injection E as _ <-; assumption].
  apply bind_Ok in E as (u' & s1 & E' & E). apply Nat.ltb_lt in E1.
  eauto using shaped_pop_one.
Qed.

Lemma shaped_claim_space ref t s t' s' :
  shaped s -> claim_space ref t s = Ok t' s' -> shaped s'.
Proof.
  intros [Hb Hs] E. unfold claim_space in E.
  apply bind_Ok in E as (d & s1 & [Hd ->]%document_Ok & E).
  apply bind_Ok in E as (e & s1 & [_ ->]%Document_empty_Ok & E).
  destruct e; [|injection E as _ <-; split; assumption].
  apply bind_Ok in E as (st & s1 & [= <- <-] & E).
  destruct (_ && _) eqn:Eg; [discriminate|].
  apply bind_Ok in E as (d' & s1 & [Hd' ->]%document_Ok & E).
  rewrite Hd in Hd'. injection Hd' as <-.
  apply bind_Ok in E as (x & s1 & [Hx ->]%load_Ok & E).
  apply bind_Ok in E as (u & s1 & ->%store_Ok & [= _ <-]).
  split; [assumption|]. cbn [heap with_heap].
  apply (but_shaped _ d); [apply but_insert, shaped_but, Hs|].
  intros y Hy. rewrite list_lookup_insert_eq in Hy
    by (eapply lookup_lt_Some; eauto).
  injection Hy as <-. destruct Hs as [_ Hs]. destruct (Hs d x Hx) as [Hc Hi].
  split; [exact Hc|]. cbn [indent set_indent]. destruct d as [|d]; [|lia].
  rewrite (based_last _ 0 Hb Hd eq_refl) in Eg.
  change (1 =? 1) with true in Eg.
  rewrite andb_true_r in Eg. apply Nat.ltb_ge in Eg. lia.
Qed.

Lemma shaped_strip_indent ref t s t' s' :
  shaped s -> strip_indent ref t s = Ok t' s' -> shaped s'.
Proof.
  intros H E. unfold strip_indent, pop_scopes in E.
  apply bind_Ok in E as (u & s1 & E1 & E).
  apply bind_Ok in E1 as (st & s2 & [= _ <-] & E1).
  apply bind_Ok in E as (ind & s2 & [_ ->]%total_indent_Ok & E).
  eauto using shaped_pop_loop, shaped_claim_space.
Qed.

Lemma shaped_mark_title s u s' : shaped s -> mark_title s = Ok u s' -> shaped s'.
Proof.
  intros [Hb Hs] E. unfold mark_title in E.
  apply bind_Ok in E as (d & s1 & [Hd ->]%document_Ok & E).
  apply bind_Ok in E as (x & s1 & (y & Hy & Hlast & ->)%Document_pop_Ok & E).
  apply bind_Ok in E as (d' & s1 & [Hd' ->]%document_Ok & E).
  cbn [stack with_heap] in Hd'. rewrite Hd in Hd'. injection Hd' as <-.
  apply bind_Ok in E as (y1 & s1 & [Hy1 ->]%load_Ok & E).
  apply bind_Ok in E as (u1 & s1 & ->%store_Ok & E).
  apply bind_Ok in E as (d' & s1 & [Hd' ->]%document_Ok & E).
  cbn [stack with_heap] in Hd'. rewrite Hd in Hd'. injection Hd' as <-.
  apply Document_append_Ok in E as (y2 & Hy2 & ->).
  cbn [heap stack with_heap] in *. split; [assumption|].
  cbn [heap with_heap].
  assert (Hlt : d < length (heap s)) by (eapply lookup_lt_Some; eauto).
  rewrite list_lookup_insert_eq in Hy1 by assumption. injection Hy1 as <-.
  rewrite list_lookup_insert_eq in Hy2 by (rewrite length_insert; assumption).
  injection Hy2 as <-.
  apply (but_shaped _ d); [do 3 apply but_insert; apply shaped_but, Hs|].
  intros z Hz. rewrite list_lookup_insert_eq in Hz
    by (rewrite !length_insert; assumption).
  injection Hz as <-. destruct Hs as [_ Hs]. destruct (Hs d y Hy) as [_ Hi].
  split; [apply snoc_not_nil|exact Hi].
Qed.

Lemma shaped_open_section level pad title s u s' :
  shaped s -> open_section level pad title s = Ok u s' -> shaped s'.
Proof.
  intros [Hb Hs] E. unfold open_section in E.
  apply bind_Ok in E as (d & s1 & [Hd ->]%document_Ok & E).
  apply bind_Ok in E as (p & s1 & [Hp ->]%Document_paragraph_Ok & E).
  apply paragraph_in_valid, lookup_lt_is_Some in Hp. rename Hp into Hlt.
  apply bind_Ok in E as (pe & s1 & [_ ->]%Paragraph_empty_Ok & E).
  apply bind_Ok in E as (u1 & s1 & E1 & E).
  assert (H1 : stack s1 = stack s /\ length (heap s1) = length (heap s) /\
               store_shaped_but d (heap s1) /\
               forall y, heap s1 !! d = Some y -> 
                 match d with 0 => indent y = 0 | S _ => 0 < indent y end).
  { apply when_Ok in E1 as [[_ E1]|[_ ->]].
    - apply bind_Ok in E1 as (d' & s2 & [Hd' ->]%document_Ok & E1).
      rewrite Hd in Hd'. injection Hd' as <-.
      apply bind_Ok in E1 as (x & s2 & (y & Hy & _ & ->)%Document_pop_Ok & E1).
      injection E1 as _ <-. cbn [stack heap with_heap].
      split; [reflexivity|]. split; [apply length_insert|].
      split; [apply but_insert, shaped_but, Hs|].
      intros y' Hy'. rewrite list_lookup_insert_eq in Hy'
        by (eapply lookup_lt_Some; eauto).
      injection Hy' as <-. destruct Hs as [_ Hs]. apply (Hs d y Hy).
    - split; [reflexivity|]. split; [reflexivity|].
      split; [apply shaped_but, Hs|].
      intros y Hy. destruct Hs as [_ Hs]. apply (Hs d y Hy). }
  destruct H1 as (Hst & Hlen & Hbut & Hind).
  apply bind_Ok in E as (v & s2 & [-> ->]%alloc_Ok & E).
  apply bind_Ok in E as (d' & s2 & [Hd' ->]%document_Ok & E).
  cbn [stack with_heap] in Hd'. rewrite Hst, Hd in Hd'. injection Hd' as <-.
  apply bind_Ok in E as (u2 & s2 & (y & Hy & ->)%Document_append_Ok & E).
  apply stack_push_Ok in E as ->.
  cbn [heap stack with_heap with_stack] in *.
  split.
  - cbn [stack with_heap with_stack]. rewrite Hst.
    apply based_push; [assumption|].
    rewrite Hlen. apply shaped_heap_fresh. split; assumption.
  - cbn [heap with_heap with_stack].
    apply (but_shaped _ d); [apply but_insert, but_alloc; [assumption|lia]|].
    intros z Hz. rewrite list_lookup_insert_eq in Hz
      by (rewrite length_app; cbn; lia).
    injection Hz as <-. split; [apply snoc_not_nil|]. cbn [indent set_content].
    apply Hind. rewrite lookup_app_l in Hy by lia. exact Hy.
Qed.

Lemma shaped_ext s s' :
  heap s' = heap s -> stack s' = stack s -> shaped s -> shaped s'.
Proof. unfold shaped. intros -> ->. auto. Qed.

Lemma shaped_Paragraph_append s p i u s' :
  shaped s -> Paragraph_append p i s = Ok u s' -> shaped s'.
Proof.
  intros [Hb Hs] (x & c & Hx & Hc & ->)%Paragraph_append_Ok.
  split; [assumption|]. cbn [heap with_heap].
  eapply shaped_insert; [exact Hs|exact Hx|reflexivity|apply snoc_not_nil].
Qed.

Lemma shaped_Document_append s d e u s' :
  shaped s -> Document_append d e s = Ok u s' -> shaped s'.
Proof.
  intros [Hb Hs] (x & Hx & ->)%Document_append_Ok.
  split; [assumption|]. cbn [heap with_heap].
  eapply shaped_insert; [exact Hs|exact Hx|reflexivity|apply snoc_not_nil].
Qed.

Lemma shaped_Line_append s l src u s' :
  shaped s -> Line_append l src s = Ok u s' -> shaped s'.
Proof.
  intros [Hb Hs] (d & x & c & srcs & -> & Hx & Hc & Hl & ->)%Line_append_Ok.
  split; [assumption|]. cbn [heap with_heap].
  eapply shaped_insert; [exact Hs|exact Hx|reflexivity|apply snoc_not_nil].
Qed.

Lemma shaped_read_block language it s it' s' :
  shaped s -> read_block language it s = Ok it' s' -> shaped s'.
Proof.
  intros H E. unfold read_block in E.
  apply bind_Ok in E as (r & s1 & [Hh Hs]%block_lines_state & E).
  apply bind_Ok in E as (d & s2 & [_ ->]%document_Ok & E).
  apply bind_Ok in E as (p & s2 & [_ ->]%Document_paragraph_Ok & E).
  apply bind_Ok in E as (u & s2 & E1 & [= _ <-]).
  apply (shaped_Paragraph_append _ _ _ _ _ (shaped_ext _ _ Hh Hs H) E1).
Qed.

(** A new scope, attached to the current paragraph and pushed. *)
Lemma shaped_open_scope n (i : nat -> Item nat) s u s' :
  shaped s -> 0 < n ->
  (virtual_document <- alloc (new_document n) ;;
   d <- document ;;
   p <- Document_paragraph d ;;
   Paragraph_append p (i virtual_document) ;;;
   stack_push virtual_document) s = Ok u s' ->
  shaped s'.
Proof.
  intros H Hn E. pose proof (shaped_heap_fresh s H) as Hfresh.
  destruct H as [Hb Hs].
  apply bind_Ok in E as (v & s1 & [-> ->]%alloc_Ok & E).
  apply bind_Ok in E as (d & s2 & [Hd ->]%document_Ok & E).
  apply bind_Ok in E as (p & s2 & [Hp ->]%Document_paragraph_Ok & E).
  apply bind_Ok in E as (u1 & s2 & E2 & E).
  assert (H1 : shaped (with_heap s (heap s ++ [new_document n]))).
  { split; [assumption|]. cbn [heap with_heap].
    apply (but_shaped _ (length (heap s))).
    - apply but_alloc; [apply shaped_but, Hs|exact Hn].
    - intros y Hy. rewrite lookup_app_r, Nat.sub_diag in Hy by lia.
      injection Hy as <-. split; [discriminate|].
      destruct (length (heap s)); [congruence|exact Hn]. }
  destruct (shaped_Paragraph_append _ _ _ _ _ H1 E2) as [Hb2 Hs2].
  apply Paragraph_append_Ok in E2 as (x & c & Hx & Hc & ->).
  apply stack_push_Ok in E as ->. split; [|exact Hs2].
  cbn [stack with_heap with_stack] in *. apply based_push; assumption.
Qed.

Lemma match_aside_pos t n kind : match_aside t = Some (n, kind) -> 0 < n.
Proof.
  unfold match_aside. destruct t as [|c [|c' t]];
    repeat match goal with
           | |- context [if ?b then _ else _] => destruct b
           end; intros [= <- _]; lia.
Qed.

Lemma shaped_open_aside t s t' s' :
  shaped s -> open_aside t s = Ok t' s' -> shaped s'.
Proof.
  intros H E. unfold open_aside in E.
  destruct (match_aside t) as [[n kind]|] eqn:Em;
    [|injection E as _ <-; assumption].
  eapply (shaped_open_scope n (Aside kind) s tt);
    [assumption|eapply match_aside_pos, Em|].
  repeat (apply bind_Ok in E as (? & ? & ? & E); erewrite bind_run by eassumption).
  injection E as _ <-. destruct x2. reflexivity.
Qed.

Lemma shaped_open_list t s t' s' :
  shaped s -> open_list t s = Ok t' s' -> shaped s'.
Proof.
  intros H E. unfold open_list in E.
  destruct (match_list t) as [n|] eqn:Em; [|injection E as _ <-; assumption].
  eapply (shaped_open_scope (length (take n t)) (List_ (take n t)) s tt);
    [assumption| |].
  { apply match_list_shape in Em as [Hn _]. rewrite length_take. lia. }
  repeat (apply bind_Ok in E as (? & ? & ? & E); erewrite bind_run by eassumption).
  injection E as _ <-. destruct x2. reflexivity.
Qed.

Lemma shaped_break_paragraph s u s' :
  shaped s -> break_paragraph s = Ok u s' -> shaped s'.
Proof.
  intros H E. unfold break_paragraph in E.
  apply bind_Ok in E as (d & s1 & [_ ->]%document_Ok & E).
  apply bind_Ok in E as (p & s1 & [_ ->]%Document_paragraph_Ok & E).
  apply bind_Ok in E as (pe & s1 & [_ ->]%Paragraph_empty_Ok & E).
  destruct pe; [injection E as _ <-; assumption|].
  apply bind_Ok in E as (d' & s1 & [_ ->]%document_Ok & E).
  eauto using shaped_Document_append.
Qed.

Lemma shaped_open_line ref t s t' s' :
  shaped s -> open_line ref t s = Ok t' s' -> shaped s'.
Proof.
  intros H E. unfold open_line in E.
  apply bind_Ok in E as (d & s1 & [_ ->]%document_Ok & E).
  apply bind_Ok in E as (p & s1 & [_ ->]%Document_paragraph_Ok & E).
  destruct (starts_nonspace t).
  - apply bind_Ok in E as (u & s1 & E1 & [= _ <-]).
    eauto using shaped_Paragraph_append.
  - apply bind_Ok in E as (pe & s1 & [_ ->]%Paragraph_empty_Ok & E).
    destruct pe; [discriminate|]. injection E as _ <-. assumption.
Qed.

Lemma shaped_append_words ref t s u s' :
  shaped s -> append_words ref t s = Ok u s' -> shaped s'.
Proof.
  intros H E. unfold append_words in E.
  apply bind_Ok in E as (src & s1 & [_ ->]%lift_Ok & E).
  apply bind_Ok in E as (d & s1 & [_ ->]%document_Ok & E).
  apply bind_Ok in E as (p & s1 & [_ ->]%Document_paragraph_Ok & E).
  apply bind_Ok in E as (l & s1 & [_ ->]%Paragraph_line_Ok & E).
  eauto using shaped_Line_append.
Qed.

Lemma shaped_process_line ref t it s it' s' :
  shaped s -> process_line ref t it s = Ok it' s' -> shaped s'.
Proof.
  intros H E. unfold process_line in E.
  apply bind_Ok in E as (t1 & s1 & E1 & E).
  pose proof (shaped_strip_indent _ _ _ _ _ H E1) as H1.
  destruct (is_title t1).
  { apply bind_Ok in E as (u & s2 & E2 & [= _ <-]).
    eauto using shaped_mark_title. }
  destruct (match_heading t1) as [[[level pad] title]|].
  { apply bind_Ok in E as (u & s2 & E2 & [= _ <-]).
    eauto using shaped_open_section. }
  destruct (match_block t1) as [language|]; [eauto using shaped_read_block|].
  apply bind_Ok in E as (u & s2 & E2 & [= _ <-]). unfold inline_rules in E2.
  apply bind_Ok in E2 as (t2 & s3 & E3 & E2).
  pose proof (shaped_open_aside _ _ _ _ H1 E3) as H3.
  apply bind_Ok in E2 as (t3 & s4 & E4 & E2).
  pose proof (shaped_open_list _ _ _ _ H3 E4) as H4.
  destruct (is_blank t3); [eauto using shaped_break_paragraph|].
  apply bind_Ok in E2 as (t4 & s5 & E5 & E2).
  eauto using shaped_open_line, shaped_append_words.
Qed.

Lemma shaped_for_lines fuel lines it s u s' :
  shaped s -> for_lines fuel lines it s = Ok u s' -> shaped s'.
Proof.
  revert it s. induction fuel as [|fuel IH]; intros [|[no t] it] s H E;
    cbn [for_lines] in E; try (injection E as _ <-; assumption);
    [discriminate|].
  apply bind_Ok in E as (u1 & s1 & [= _ <-] & E).
  apply bind_Ok in E as (it' & s2 & E1 & E).
  unfold try in E1.
  destruct (process_line _ _ _ _) as [it1 s3|e s3] eqn:Ep.
  - injection E1 as -> ->. eapply IH; [|exact E].
    eapply shaped_process_line; [|exact Ep].
    eapply shaped_ext; [| |exact H]; reflexivity.
  - destruct (handler_raises _ _ _ _ _ E1).
Qed.

Lemma shaped_initial : shaped initial.
Proof.
  split; cbn.
  - exists []. split; [reflexivity|constructor].
  - split; [discriminate|]. intros [|d] x Hx; cbn in Hx; [|discriminate].
    injection Hx as <-. split; [discriminate|reflexivity].
Qed.

(** The state in which the loop over the lines ends: the root is the
    first document that was created. *)
Lemma parse_lines_shaped lines root s :
  parse_lines lines initial = Ok root s -> root = 0 /\ shaped s /\ wf s.
Proof.
  intros E. pose proof (runs_parse_lines lines) as Hr. rewrite E in Hr.
  destruct Hr as [Hw _].
  unfold parse_lines in E. apply bind_Ok in E as (u & s1 & E & E1).
  pose proof (shaped_for_lines _ _ _ _ _ _ shaped_initial E) as H.
  unfold bind, get_stack in E1. destruct H as [(st' & Hst & Hb) Hs].
  rewrite Hst in E1. injection E1 as <- <-.
  split; [reflexivity|]. split; [|exact Hw]. split; [|exact Hs]. exists st'. auto.
Qed.

Lemma reify_refers_below fuel h d y t :
  refs_below (length h) h ->
  reify (S fuel) h d = Some (Node y) -> refers y t ->
  exists d', d < d' /\ reify fuel h d' = Some t.
Proof.
  intros Hb (y0 & Hd & _ & Hc & Ht)%reify_S (e & He & Hr).
  destruct (Hb d y0 Hd) as [Hbc Hbt].
  assert (exists e0, reify_entry (reify fuel h) e0 = Some e /\
                     entry_bounded d (length h) e0) as (e0 & He0 & Hbe).
  { destruct He as [He|He].
    - apply mapM_Some in Hc.
      apply list_elem_of_lookup in He as [i Hi].
      destruct (Forall2_lookup_r _ _ _ _ _ Hc Hi) as (e0 & Hi0 & ?).
      exists e0. split; [assumption|].
      rewrite Forall_forall in Hbc. apply Hbc.
      eapply list_elem_of_lookup_2, Hi0.
    - rewrite He in Ht. destruct (title y0) as [e0|]; [|discriminate].
      destruct Ht as (e' & ? & [= <-]). eauto. }
  destruct e0 as [c0|l0 t0 d0]; cbn in He0, Hbe.
  - destruct (mapM _ c0) as [c|] eqn:E; cbn in He0; [|discriminate].
    injection He0 as <-. destruct Hr as (i & Hi & Hr).
    apply mapM_Some in E. apply list_elem_of_lookup in Hi as [j Hj].
    destruct (Forall2_lookup_r _ _ _ _ _ E Hj) as (i0 & Hj0 & Hi0).
    assert (Hbi : item_bounded d (length h) i0).
    { rewrite Forall_forall in Hbe. apply Hbe.
      eapply list_elem_of_lookup_2, Hj0. }
    destruct i0 as [|k d'|m d'|]; cbn in Hi0, Hbi;
      try (injection Hi0 as <-; destruct Hr);
      destruct (reify fuel h d') eqn:E'; cbn in Hi0; try discriminate;
      injection Hi0 as <-; subst; exists d'; (split; [lia|assumption]).
  - destruct (reify fuel h d0) eqn:E'; cbn in He0; [|discriminate].
    injection He0 as <-. subst. exists d0. split; [lia|assumption].
Qed.

Lemma parse_shaped file t :
  parse file = inr t ->
  (exists root, t = Node root /\ indent root = 0) /\
  (forall x, in_tree x t -> content x <> []) /\
  (forall y x, in_tree y t -> refers y (Node x) -> 0 < indent x).
Proof.
  intros Hp. unfold parse in Hp.
  destruct (parse_lines _ _) as [root s|] eqn:E; [|discriminate].
  destruct (reify _ _ root) as [t'|] eqn:E'; [|discriminate].
  injection Hp as ->.
  apply parse_lines_shaped in E as (-> & [_ [_ Hs]] & Hw).
  pose proof (proj1 (proj2 Hw)) as Hb.
  split; [|split].
  - destruct t as [r]. exists r. split; [reflexivity|].
    destruct (length (heap s)) as [|fuel] eqn:El; [discriminate|].
    rewrite <- El in Hb.
    apply reify_S in E' as (y & Hy & -> & _). apply (Hs 0 y Hy).
  - intros x Hx.
    destruct (in_tree_reify _ _ _ Hx _ _ E') as (fuel & d & Hd).
    apply reify_S in Hd as (y & Hy & _ & Hc & _).
    destruct (Hs d y Hy) as [Hne _]. apply mapM_Some, Forall2_length in Hc.
    destruct (content x); [|discriminate]. destruct (content y);
      [congruence|discriminate].
  - intros y x Hy Hr.
    destruct (in_tree_reify _ _ _ Hy _ _ E') as (fuel & d & Hd).
    destruct (reify_refers_below _ _ _ _ _ Hb Hd Hr) as (d' & Hlt & Hx).
    destruct fuel as [|fuel]; [discriminate|].
    apply reify_S in Hx as (x0 & Hx0 & -> & _).
    destruct (Hs d' x0 Hx0) as [_ Hi]. destruct d'; [lia|exact Hi].
Qed.

(** X8: in the tree that [parse] returns the root document has the indent
    0, no document, root or nested, has an empty content, and every nested
    document (that of a section, of an aside or of a list item) has a
    positive indent. *)
Theorem X8_tree_shape file t :
  parse file = inr t ->
  (exists root, t = Node root /\ indent root = 0) /\
  (forall x, in_tree x t -> content x <> []) /\
  (forall y x, in_tree y t -> refers y (Node x) -> 0 < indent x).
Proof. apply parse_shaped. Qed.

Lemma X8_tree_shape_witness :
  let t := Node (doc 0 [Section_ 1 (Some (str "Title"))
             (Node (doc 2 [Paragraph [Line [source 2
                [word "Body" NONE; word " " NONE; word "text." NONE]]]]))]) in
  (exists root, t = Node root /\ indent root = 0) /\
  (forall x, in_tree x t -> content x <> []) /\
  (forall y x, in_tree y t -> refers y (Node x) -> 0 < indent x).
Proof.
  apply (X8_tree_shape (file_of ["# Title"; "  Body text."])).
  vm_compute. reflexivity.
Defined.

(** ** The exceptions of the renderer *)

Lemma and_then_inl {A B} (r : Html.Result A) (k : A -> Html.Result B) e :
  Html.and_then r k = inl e -> r = inl e \/ exists a, r = inr a /\ k a = inl e.
Proof. destruct r as [e'|a]; cbn; [intros [= ->]; auto|eauto]. Qed.

Lemma for_each_inl {A B} (f : A -> Html.Result B) l e :
  Html.for_each f l = inl e -> exists x, x ∈ l /\ f x = inl e.
Proof.
  induction l as [|x l IH]; cbn; [discriminate|].
  destruct (f x) as [e'|y] eqn:E; cbn.
  - intros [= ->]. exists x. split; [left|assumption].
  - destruct (Html.for_each f l) as [e'|ys]; cbn; [|discriminate].
    intros [= ->]. destruct (IH eq_refl) as (x' & Hx' & Hf).
    exists x'. split; [right|]; assumption.
Qed.

Lemma for_each_inr {A B} (f : A -> Html.Result B) l ys :
  Html.for_each f l = inr ys -> Forall2 (fun x y => f x = inr y) l ys.
Proof.
  revert ys. induction l as [|x l IH]; cbn; intros ys.
  - intros [= <-]. constructor.
  - destruct (f x) as [e'|y] eqn:E; cbn; [discriminate|].
    destruct (Html.for_each f l) as [e'|ys']; cbn; [discriminate|].
    intros [= <-]. constructor; auto.
Qed.

Lemma until_hr_app (a b : list text) :
  b <> [] ->
  exists head rest, Html.until_hr (a ++ str "<hr>" :: b) = Some (head, rest) /\
                    rest <> [].
Proof.
  intros Hb. induction a as [|x a IH]; cbn [app Html.until_hr].
  - change (Html.text_eqb (str "<hr>") (str "<hr>")) with true. eauto.
  - destruct (Html.text_eqb x (str "<hr>")).
    + exists [], (a ++ str "<hr>" :: b). split; [reflexivity|].
      destruct a; discriminate.
    + destruct IH as (head & rest & -> & Hr). eauto.
Qed.

Section Safe.
Context (dedent : text -> text).
Context (rec : Tree -> nat -> Html.Result (list text)).
Context (Q : Html.Error -> Prop).

Lemma aside_safe kind t nesting e :
  item_safe Q rec nesting (Aside kind t) ->
  Html.aside_as_html rec t nesting = inl e -> Q e.
Proof.
  intros [Hsafe Hshape]. unfold Html.aside_as_html.
  destruct (rec t (nesting + 1)) as [e'|inner] eqn:E; cbn [Html.and_then].
  { intros [= <-]. apply Hsafe. reflexivity. }
  specialize (Hshape inner eq_refl). destruct inner as [|tmp inner]; [destruct Hshape|].
  cbn [well_started] in Hshape.
  destruct (Html.text_eqb tmp (str "<hgroup>")).
  - destruct Hshape as (head & rest' & -> & Hr). cbn.
    destruct rest'; [congruence|discriminate].
  - cbn. destruct inner; [congruence|discriminate].
Qed.

Lemma list_safe (ls : list (text * Tree)) m t nesting e :
  is_Some (Html.list_tags m) ->
  Forall (fun l => forall e, rec (snd l) (nesting + 1) = inl e -> Q e)
         ((m, t) :: ls) ->
  Html.list_as_html rec ((m, t) :: ls) nesting = inl e -> Q e.
Proof.
  intros [[start end_] Ht] Hls. unfold Html.list_as_html. rewrite Ht.
  intros [H|(a & _ & [=])]%and_then_inl.
  apply for_each_inl in H as (l & Hl & H).
  rewrite Forall_forall in Hls. specialize (Hls l Hl).
  destruct (rec (snd l) (nesting + 1)) as [e'|r] eqn:E; cbn in H; [|discriminate].
  injection H as <-. apply Hls. reflexivity.
Qed.

Lemma block_safe c e :
  Forall (fun src => src_content src <> []) c ->
  Html.block_as_html dedent c = inl e -> False.
Proof.
  intros Hc. unfold Html.block_as_html. intros [H|(a & _ & [=])]%and_then_inl.
  apply for_each_inl in H as (x & Hx & H).
  rewrite Forall_forall in Hc. specialize (Hc x Hx).
  destruct (src_content x); [congruence|discriminate].
Qed.

Lemma take_lists_spec nesting (content : list (nat * Item Tree)) :
  Forall (fun ix => item_safe Q rec nesting (snd ix)) content ->
  Forall (fun l => forall e, rec (snd l) (nesting + 1) = inl e -> Q e)
         (fst (Html.take_lists content)) /\
  Forall (fun ix => item_safe Q rec nesting (snd ix))
         (snd (Html.take_lists content)) /\
  length (snd (Html.take_lists content)) <= length content.
Proof.
  induction 1 as [|[i x] content Hx Hc IH]; cbn [Html.take_lists].
  - cbn. auto.
  - destruct x as [c|k t|m t|l c]; cbn [fst snd length];
      try (split; [constructor|split; [constructor; assumption|lia]]).
    destruct IH as (H1 & H2 & H3). split; [|split; [assumption|lia]].
    constructor; [|assumption]. cbn in Hx. apply Hx.
Qed.

Lemma p_loop_safe nesting len fuel : forall content e,
  length content <= fuel ->
  Forall (fun ix => item_safe Q rec nesting (snd ix)) content ->
  Html.p_loop dedent rec fuel len content nesting = inl e -> Q e.
Proof.
  induction fuel as [|fuel IH]; intros [|[i x] content] e Hlen Hc;
    try discriminate; [cbn in Hlen; lia|].
  apply Forall_cons in Hc as [Hx Hc]. cbn [snd] in Hx. cbn [Html.p_loop].
  assert (Hrest : forall content' e',
            length content' <= length content ->
            Forall (fun ix => item_safe Q rec nesting (snd ix)) content' ->
            Html.p_loop dedent rec fuel len content' nesting = inl e' ->
            Q e').
  { intros content' e' Hl. apply IH. cbn in Hlen. lia. }
  destruct x as [c|k t|m t|l c].
  - intros [H|(a & _ & [=])]%and_then_inl. eapply Hrest; eauto.
  - intros [H|(a & _ & [H|(b & _ & [=])]%and_then_inl)]%and_then_inl.
    + eapply aside_safe; eauto.
    + eapply Hrest; eauto.
  - destruct (take_lists_spec nesting content Hc) as (H1 & H2 & H3).
    intros [H|(a & _ & [H|(b & _ & [=])]%and_then_inl)]%and_then_inl.
    + eapply list_safe; [| |exact H]; [apply Hx|].
      constructor; [apply Hx|exact H1].
    + eapply Hrest; eauto.
  - intros [H|(a & _ & [H|(b & _ & [=])]%and_then_inl)]%and_then_inl.
    + destruct (block_safe _ _ Hx H).
    + eapply Hrest; eauto.
Qed.

Lemma Forall_zip_snd {A B} (P : B -> Prop) (l : list A) (k : list B) :
  Forall P k -> Forall (fun ix => P (snd ix)) (zip l k).
Proof.
  intros Hk. revert l. induction Hk as [|y k Hy _ IH]; intros [|x l]; cbn;
    constructor; auto.
Qed.

Lemma p_safe c nesting e :
  Forall (item_safe Q rec nesting) c ->
  Html.p_as_html dedent rec c nesting = inl e -> Q e.
Proof.
  intros Hc. unfold Html.p_as_html.
  intros [H|(a & _ & [=])]%and_then_inl.
  eapply p_loop_safe; [| |exact H].
  - rewrite length_zip_with, length_seq. lia.
  - apply Forall_zip_snd, Hc.
Qed.

Lemma title_safe x nesting e :
  Html.title_as_html (title x) nesting = inl e ->
  e = Html.AttributeError /\ title_unreadable x.
Proof.
  unfold Html.title_as_html, title_unreadable.
  destruct (title x) as [[c|]|]; try discriminate.
  intros [H|(a & _ & [=])]%and_then_inl.
  destruct c as [|i c]; [discriminate|].
  apply and_then_inl in H as [H|(a & _ & [=])].
  destruct i; cbn in H; try discriminate; injection H as <-;
    (split; [reflexivity|]); eexists _, _; (split; [reflexivity|exact I]).
Qed.

Lemma well_started_hgroup (mid body : list text) :
  body <> [] ->
  well_started
    ((str "<hgroup>" :: mid ++ [str "</hgroup>"; str "<hr>"]) ++ body).
Proof.
  intros Hb. cbn [app well_started].
  change (Html.text_eqb (str "<hgroup>") (str "<hgroup>")) with true. cbv iota.
  replace ((mid ++ [str "</hgroup>"; str "<hr>"]) ++ body)
    with ((mid ++ [str "</hgroup>"]) ++ str "<hr>" :: body)
    by (rewrite <- !app_assoc; reflexivity).
  apply until_hr_app, Hb.
Qed.

Lemma title_started title nesting head (body : list text) :
  Html.title_as_html title nesting = inr head -> body <> [] ->
  title <> None -> well_started (head ++ body).
Proof.
  intros H Hb Ht. unfold Html.title_as_html in H.
  destruct title as [[c|]|]; [| |congruence].
  - destruct (match c with [] => _ | _ => _ end) as [|first];
      cbn [Html.and_then] in H; [discriminate|].
    apply (f_equal (fun r => match r with inr x => x | inl _ => [] end)) in H.
    cbv beta iota in H. subst head.
    set (lines := flat_map _ (tail c)).
    replace (str "<hgroup>" :: first ++ [str "<p>"] ++ lines
             ++ [str "</hgroup>"; str "<hr>"])
      with (str "<hgroup>" :: (first ++ [str "<p>"] ++ lines)
            ++ [str "</hgroup>"; str "<hr>"])
      by (rewrite <- !app_assoc; reflexivity).
    apply well_started_hgroup, Hb.
  - apply (f_equal (fun r => match r with inr x => x | inl _ => [] end)) in H.
    cbv beta iota in H. subst head. apply (well_started_hgroup []), Hb.
Qed.

Lemma entry_started x nesting r :
  Html.entry_as_html dedent rec x nesting = inr r ->
  exists a b rest, r = a :: b :: rest /\
                   Html.text_eqb a (str "<hgroup>") = false.
Proof.
  destruct x as [c|l t d]; cbn [Html.entry_as_html].
  - unfold Html.p_as_html. destruct (Html.p_loop _ _ _ _ _ _) as [|r']; cbn;
      [discriminate|].
    intros [= <-]. destruct r'; cbn; eauto.
  - unfold Html.s_as_html. destruct (rec d (nesting + 1)) as [|inner]; cbn;
      [discriminate|].
    intros [= <-]. eauto.
Qed.
End Safe.

(** The strings of a document whose content is not empty. *)
Lemma d_as_html_started dedent fuel doc nesting l :
  Html.d_as_html dedent fuel (Node doc) nesting = inr l ->
  content doc <> [] -> well_started l.
Proof.
  destruct fuel as [|fuel]; [discriminate|]. cbn [Html.d_as_html].
  destruct (Html.title_as_html (title doc) nesting) as [|head] eqn:Eh; cbn;
    [discriminate|].
  destruct (Html.for_each _ (content doc)) as [|body] eqn:Eb; cbn;
    [discriminate|].
  intros [= <-] Hc. apply for_each_inr in Eb.
  destruct Eb as [|x r c body Hx _]; [congruence|].
  destruct (entry_started _ _ _ _ _ Hx) as (a & b & rest & -> & Ha).
  destruct (title doc) eqn:Et.
  - rewrite <- Et in Eh. eapply title_started; [exact Eh|discriminate|congruence].
  - cbn in Eh. injection Eh as <-. cbn [app concat well_started].
    rewrite Ha. discriminate.
Qed.

Lemma foldr_max_ge {A} (f : A -> nat) (l : list A) x :
  x ∈ l -> f x <= foldr (fun e n => max (f e) n) 0 l.
Proof.
  induction 1 as [x l|x y l _ IH]; cbn; lia.
Qed.

Lemma depth_refers doc t : refers doc t -> Html.depth t < Html.depth (Node doc).
Proof.
  intros (e & He & Hr). cbn [Html.depth].
  assert (Html.depth t <= Html.entry_depth Html.depth e) as Hte.
  { destruct e as [c|l ti t']; cbn.
    - destruct Hr as (i & Hi & Hr).
      etransitivity; [|apply (foldr_max_ge (Html.item_depth Html.depth) c i Hi)].
      destruct i; cbn; try destruct Hr; subst; lia.
    - subst. lia. }
  destruct He as [He|He].
  - pose proof (foldr_max_ge (Html.entry_depth Html.depth) _ _ He). lia.
  - rewrite He. lia.
Qed.

Lemma tree_ok_refers doc t : tree_ok (Node doc) -> refers doc t -> tree_ok t.
Proof. intros H Hr x Hx. apply H. eapply in_tree_nested; eauto. Qed.

(** On a tree that has what the renderer needs, the only exception is
    the one of a title. *)
Lemma render_safe dedent fuel : forall t nesting e,
  tree_ok t -> Html.depth t <= fuel ->
  Html.d_as_html dedent fuel t nesting = inl e ->
  e = Html.AttributeError /\ exists x, in_tree x t /\ title_unreadable x.
Proof.
  induction fuel as [|fuel IH]; intros [doc] nesting e Hok Hd.
  { cbn in Hd. lia. }
  cbn [Html.d_as_html].
  set (Q := fun e : Html.Error =>
         e = Html.AttributeError /\
         exists x, in_tree x (Node doc) /\ title_unreadable x).
  assert (Hrec : forall t n e', refers doc t ->
            Html.d_as_html dedent fuel t n = inl e' -> Q e').
  { intros t n e' Hr He'.
    apply IH in He' as [-> (x & Hx & Hu)];
      [|eapply tree_ok_refers; eauto|apply depth_refers in Hr; lia].
    split; [reflexivity|]. exists x. split; [|exact Hu].
    eapply in_tree_nested; eauto. }
  intros [H|(head & _ & [H|(b & _ & [=])]%and_then_inl)]%and_then_inl.
  { apply title_safe in H as [-> Hu]. split; [reflexivity|].
    exists doc. split; [constructor|exact Hu]. }
  apply for_each_inl in H as (x & Hx & H).
  destruct x as [c|l ti t]; cbn [Html.entry_as_html] in H.
  - apply (p_safe dedent _ Q) in H; [exact H|].
    destruct (Hok doc (in_tree_root doc)) as [_ Hc].
    destruct (Hc c Hx) as [Hlist Hblock].
    apply Forall_forall. intros i Hi.
    assert (Hr : forall k t, i = Aside k t \/ (exists m, i = List_ m t) ->
                 refers doc t).
    { intros k t Hit. exists (Paragraph c). split; [left; assumption|].
      exists i. split; [assumption|].
      destruct Hit as [->|[m ->]]; reflexivity. }
    destruct i as [|k t|m t|l b]; cbn; try exact I.
    + split.
      * intros e' He'. eapply Hrec; [|exact He']. eapply Hr; eauto.
      * intros l Hl. destruct t as [doc'].
        eapply d_as_html_started; [exact Hl|].
        apply (Hok doc'). eapply in_tree_nested; [eapply Hr; eauto|constructor].
    + split.
      * eapply Hlist; eauto.
      * intros e' He'. eapply Hrec; [|exact He']. eapply (Hr PLAIN); eauto.
    + eapply Hblock; eauto.
  - unfold Html.s_as_html in H.
    apply and_then_inl in H as [H|(a & _ & [=])].
    eapply Hrec; [|exact H]. exists (Section_ l ti t). split; [left; assumption|].
    reflexivity.
Qed.

(** The trees of [parse] have what the renderer needs. *)
Lemma parse_tree_ok file t : parse file = inr t -> tree_ok t.
Proof.
  intros Hp x Hx. split; [apply (parse_shaped file t Hp), Hx|].
  intros c Hc. destruct (parse_made file t x Hp Hx) as [Hm _].
  rewrite Forall_forall in Hm. specialize (Hm _ Hc). cbn in Hm.
  rewrite Forall_forall in Hm. split.
  - intros m r Hi. specialize (Hm _ Hi). cbn in Hm.
    destruct Hm as (l & _ & j & n & Hn & ->). apply match_list_tags, Hn.
  - intros l b Hi. specialize (Hm _ Hi). cbn in Hm.
    eapply Forall_impl; [exact Hm|].
    intros src (no & line & ind & _ & ->). discriminate.
Qed.

(** X9: on a tree that [parse] returns, the strings of [d_as_html(root, 0)]
    are produced unless the title of a document of the tree starts with an
    aside or a list item, which [l_as_html] cannot read: the exception is
    then an [AttributeError].  The renderer never fails any other way: no
    assertion of [list_as_html] fails, no generator of [aside_as_html] is
    run past its end, every source line of a block has its word (and the
    recursion of the embedding stays within its bound). *)
Theorem X9_render_exceptions dedent file t e :
  parse file = inr t -> Html.render dedent t = inl e ->
  e = Html.AttributeError /\ exists x, in_tree x t /\ title_unreadable x.
Proof.
  intros Hp He. unfold Html.render in He.
  apply render_safe in He; [exact He|eapply parse_tree_ok, Hp|lia].
Qed.

Lemma X9_render_exceptions_witness :
  Html.AttributeError = Html.AttributeError /\
  exists x, in_tree x
    (Node {| indent := 0;
             title := Some (Paragraph [List_ (str "- ")
               (Node (doc 2 [Paragraph [Line [source 1 [word "a" NONE]]]]))]);
             content := [Paragraph []] |}) /\
    title_unreadable x.
Proof.
  apply (X9_render_exceptions (fun t => t) (file_of ["- a"; "---"])
           (Node {| indent := 0;
                    title := Some (Paragraph [List_ (str "- ")
                      (Node (doc 2 [Paragraph [Line [source 1
                         [word "a" NONE]]]]))]);
                    content := [Paragraph []] |}));
    vm_compute; reflexivity.
Defined.

(** ** Files without a title line *)

Lemma has_title_line_rest l t :
  has_title_line l = false -> rest_of l t -> is_title t = false.
Proof.
  intros Hl [j ->]. destruct (is_title (drop j l)) eqn:E; [|reflexivity].
  destruct (decide (j < length l)) as [Hj|Hj].
  - assert (has_title_line l = true); [|congruence].
    apply existsb_exists. exists j. split; [|exact E].
    apply in_seq. lia.
  - rewrite drop_ge in E by lia. discriminate.
Qed.

Lemma parse_untitled file t x :
  Forall (fun l => has_title_line l = false) (splitlines file) ->
  parse file = inr t -> in_tree x t -> title x = None.
Proof.
  intros Hl Hp Hx. destruct (parse_made file t x Hp Hx) as [_ Ht].
  destruct (title x); [|reflexivity].
  destruct Ht as [(l & t' & Hin & Hr & Ht) _].
  rewrite Forall_forall in Hl.
  rewrite (has_title_line_rest l t' (Hl _ Hin) Hr) in Ht. discriminate.
Qed.

(** X18: a file in which the title rule matches on no line, from no
    column on, is rendered without an exception when [parse] returns its
    tree: no document of the tree has a title, and [d_as_html(root, 0)]
    produces its strings. *)
Theorem X18_render_untitled dedent file t :
  Forall (fun l => has_title_line l = false) (splitlines file) ->
  parse file = inr t ->
  (forall x, in_tree x t -> title x = None) /\
  exists out, Html.render dedent t = inr out.
Proof.
  intros Hl Hp. split; [intros x; apply (parse_untitled file); assumption|].
  destruct (Html.render dedent t) as [e|out] eqn:E; [|eauto].
  unfold Html.render in E.
  apply render_safe in E as [_ (x & Hx & i & c & Ht & _)];
    [|eapply parse_tree_ok, Hp|lia].
  rewrite (parse_untitled file t x Hl Hp Hx) in Ht. discriminate.
Qed.

Lemma X18_render_untitled_witness :
  (forall x, in_tree x (Node (doc 0 [Section_ 1 (Some (str "T"))
       (Node (doc 2 [Paragraph [List_ (str "- ")
          (Node (doc 2 [Paragraph [Line [source 2 [word "a" NONE]]]]))]]))])) ->
     title x = None) /\
  exists out,
    Html.render (fun t => t)
      (Node (doc 0 [Section_ 1 (Some (str "T"))
         (Node (doc 2 [Paragraph [List_ (str "- ")
            (Node (doc 2 [Paragraph [Line [source 2 [word "a" NONE]]]]))]]))]))
    = inr out.
Proof.
  apply (X18_render_untitled (fun t => t) (file_of ["# T"; "  - a"])).
  - repeat constructor.
  - vm_compute. reflexivity.
Defined.

(** ** Files of plain text *)

Lemma plain_line_spec l :
  plain_line l = true ->
  starts_nonspace l = true /\ is_title l = false /\ match_heading l = None /\
  match_block l = None /\ match_aside l = None /\ match_list l = None /\
  forallb (fun c => negb (is_mark c)) l = true.
Proof.
  unfold plain_line. rewrite !andb_true_iff, negb_true_iff.
  intros [[[[[[H1 H2] H3] H4] H5] H6] H7].
  repeat split; try assumption.
  - destruct (match_heading l); [discriminate|reflexivity].
  - destruct (match_block l); [discriminate|reflexivity].
  - destruct (match_aside l); [discriminate|reflexivity].
  - destruct (match_list l); [discriminate|reflexivity].
Qed.

Lemma starts_nonspace_spec l :
  starts_nonspace l = true -> leading_space l = 0 /\ is_blank l = false.
Proof.
  destruct l as [|c l]; [discriminate|]. cbn. unfold leading_space. cbn.
  intros ->%negb_true_iff. auto.
Qed.

Lemma strip_indent_plain ref l c no :
  starts_nonspace l = true ->
  strip_indent ref l (plain_state c no) = Ok l (plain_state c no).
Proof.
  intros [Hl _]%starts_nonspace_spec.
  unfold strip_indent, claim_space. destruct c as [|i c]; cbn; [|reflexivity].
  unfold leading_space in Hl. rewrite drop_0, Hl. reflexivity.
Qed.

Lemma open_line_plain ref l c no :
  starts_nonspace l = true ->
  open_line ref l (plain_state c no) = Ok l (plain_state (c ++ [Line []]) no).
Proof. intros Hl. unfold open_line. cbn. rewrite Hl. reflexivity. Qed.

Lemma append_words_plain ref l c no src :
  tokenize ref l = inr src ->
  append_words ref l (plain_state (c ++ [Line []]) no) =
    Ok tt (plain_state (c ++ [Line [src]]) no).
Proof.
  intros Hs. unfold append_words. rewrite Hs. cbn.
  unfold Paragraph_line, Line_append, Paragraph_content, Paragraph_set.
  unfold bind at 1. unfold bind at 1. unfold get_heap at 1.
  cbn [heap plain_state length line_in lookup list_lookup content doc last].
  rewrite last_snoc. cbn. rewrite last_snoc. cbn.
  rewrite removelast_last. reflexivity.
Qed.

Lemma process_plain ref l it c no src :
  plain_line l = true -> tokenize ref l = inr src ->
  process_line ref l it (plain_state c no) =
    Ok it (plain_state (c ++ [Line [src]]) no).
Proof.
  intros (Hn & Ht & Hh & Hb & Ha & Hl & _)%plain_line_spec Hs.
  unfold process_line.
  rewrite (bind_run _ _ _ _ _ (strip_indent_plain ref l c no Hn)).
  rewrite Ht, Hh, Hb. unfold inline_rules.
  assert (Hi : forall s, (t <- open_aside l ;; t <- open_list t ;;
                          if is_blank t then break_paragraph
                          else t <- open_line ref t ;; append_words ref t) s
                         = (t <- open_line ref l ;; append_words ref t) s).
  { intros s. unfold open_aside. rewrite Ha. unfold bind at 1, ret at 1.
    unfold open_list. rewrite Hl. unfold bind at 1, ret at 1.
    destruct (starts_nonspace_spec l Hn) as [_ ->]. reflexivity. }
  unfold bind at 1. rewrite Hi.
  rewrite (bind_run _ _ _ _ _ (open_line_plain ref l c no Hn)).
  rewrite (append_words_plain ref l c no src Hs). reflexivity.
Qed.

Lemma for_lines_plain fuel lines : forall it c no,
  Forall (fun l => plain_line (snd l) = true) it -> length it <= fuel ->
  exists srcs no',
    Forall2 (fun l src => tokenize (fst l + 1) (snd l) = inr src) it srcs /\
    for_lines fuel lines it (plain_state c no) =
      Ok tt (plain_state (c ++ map (fun src => Line [src]) srcs) no').
Proof.
  induction fuel as [|fuel IH]; intros [|[n t] it] c no Hit Hf;
    cbn [for_lines]; [|cbn in Hf; lia| |].
  1,2: exists [], no; split; [constructor|]; cbn; rewrite app_nil_r; reflexivity.
  apply Forall_cons in Hit as [Ht Hit]. cbn [snd] in Ht.
  destruct (plain_line_spec t Ht) as (_ & _ & _ & _ & _ & _ & Hm).
  destruct (tokenize_plain_words (n + 1) t Hm) as (ws & Hs & _).
  unfold bind at 1, set_lineno. unfold bind at 1, try.
  change (with_lineno (plain_state c no) n) with (plain_state c n).
  rewrite (process_plain (n + 1) t it c n _ Ht Hs).
  destruct (IH it (c ++ [Line [source (n + 1) ws]]) n Hit) as (srcs & no' & H2 & E);
    [cbn in Hf; lia|].
  exists (source (n + 1) ws :: srcs), no'. split; [constructor; assumption|].
  rewrite E. cbn [map]. rewrite <- app_assoc. reflexivity.
Qed.

Lemma mapM_reify_lines r (srcs : list SourceLine) :
  mapM (reify_item r) (map (fun src => Line [src]) srcs) =
    Some (map (fun src => Line [src]) srcs).
Proof.
  induction srcs as [|src srcs IH]; [reflexivity|].
  cbn [map]. cbn. cbn in IH. rewrite IH. reflexivity.
Qed.

Lemma plain_lines_parse file :
  Forall (fun l => plain_line l = true) (splitlines file) ->
  exists srcs,
    Forall2 (fun l src => tokenize (fst l + 1) (snd l) = inr src)
            (enumerate (splitlines file)) srcs /\
    parse file = inr (Node (doc 0 [Paragraph (map (fun src => Line [src]) srcs)])).
Proof.
  intros H.
  destruct (for_lines_plain (length (splitlines file)) (splitlines file)
              (enumerate (splitlines file)) [] 0) as (srcs & no' & H2 & E).
  - unfold enumerate. generalize 0.
    induction H as [|l ls Hl _ IH]; intros k; cbn; constructor; auto.
  - unfold enumerate. rewrite enumerate_from_length. lia.
  - exists srcs. split; [exact H2|].
    unfold parse, parse_lines.
    change initial with (plain_state [] 0).
    erewrite bind_run by exact E. cbn.
    pose proof (mapM_reify_lines (fun _ => None) srcs) as Hm. cbn in Hm.
    rewrite Hm. reflexivity.
Qed.

Lemma starts_with_app p q : starts_with p (p ++ q) = true.
Proof.
  induction p as [|a p IH]; [reflexivity|]. cbn. rewrite IH.
  unfold is_char. rewrite Ascii.eqb_refl. reflexivity.
Qed.

Lemma removesuffix_app suffix t : Html.removesuffix suffix (t ++ suffix) = t.
Proof.
  unfold Html.removesuffix. destruct suffix as [|a suffix]; [apply app_nil_r|].
  rewrite rev_app_distr, starts_with_app, length_app.
  replace (length t + length (a :: suffix) - length (a :: suffix))
    with (length t) by lia.
  apply take_app_length.
Qed.

Lemma plain_source_html ref t src :
  forallb (fun c => negb (is_mark c)) t = true ->
  tokenize ref t = inr src ->
  Html.l_as_html [src] = rstrip t ++ str "<br>".
Proof.
  intros Ht Hs.
  rewrite (plain_line_html [(ref, t)] [src]); [|repeat constructor; assumption..].
  cbn [map concat snd]. rewrite app_nil_r.
  rewrite rstrip_app_blank by reflexivity. rewrite rstrip_idem. reflexivity.
Qed.

Lemma p_loop_plain dedent rec nesting : forall (it : list (nat * text)) srcs,
  Forall2 (fun l src => tokenize (fst l + 1) (snd l) = inr src) it srcs ->
  Forall (fun l => forallb (fun c => negb (is_mark c)) (snd l) = true) it ->
  forall fuel k, length srcs <= fuel ->
  Html.p_loop dedent rec fuel (k + length srcs)
    (zip (seq k (length srcs)) (map (fun src => Line [src]) srcs)) nesting =
    inr (plain_html (map snd it)).
Proof.
  induction 1 as [|[n t] src it srcs Hs H2 IH]; intros Hit fuel k Hf.
  { apply p_loop_nil. }
  apply Forall_cons in Hit as [Ht Hit]. cbn [snd fst] in *.
  destruct fuel as [|fuel]; [cbn in Hf; lia|].
  cbn [length seq map zip zip_with Html.p_loop].
  rewrite (plain_source_html _ _ _ Ht Hs).
  specialize (IH Hit fuel (S k)).
  replace (S k + length srcs) with (k + S (length srcs)) in IH by lia.
  rewrite IH by (cbn in Hf; lia). cbn [Html.and_then].
  destruct H2 as [|[n' t'] src' it srcs Hs' H2].
  - cbn [length map plain_html]. replace (k + 1 =? k + 1) with true
      by (symmetry; apply Nat.eqb_refl).
    rewrite removesuffix_app. reflexivity.
  - cbn [length map plain_html snd].
    replace (k + 1 =? k + S (S (length srcs))) with false
      by (symmetry; apply Nat.eqb_neq; lia).
    reflexivity.
Qed.

Lemma plain_lines_render dedent (it : list (nat * text)) srcs :
  Forall2 (fun l src => tokenize (fst l + 1) (snd l) = inr src) it srcs ->
  Forall (fun l => forallb (fun c => negb (is_mark c)) (snd l) = true) it ->
  Html.render dedent
    (Node (doc 0 [Paragraph (map (fun src => Line [src]) srcs)])) =
    inr (str "<p>" :: plain_html (map snd it) ++ [str "</p>"]).
Proof.
  intros H2 Hit. unfold Html.render. cbn [Html.depth].
  cbn [Html.d_as_html title doc content Html.title_as_html Html.and_then
       Html.for_each Html.entry_as_html].
  unfold Html.p_as_html. rewrite length_map.
  rewrite (p_loop_plain dedent _ 0 it srcs H2 Hit (length srcs) 0 (le_n _)).
  cbn. rewrite app_nil_r. reflexivity.
Qed.

Lemma map_snd_enumerate_from ls : forall k, map snd (enumerate_from k ls) = ls.
Proof.
  induction ls as [|l ls IH]; intros k; [reflexivity|].
  cbn. rewrite IH. reflexivity.
Qed.

Lemma plain_enumerate ls : forall k,
  Forall (fun l => plain_line l = true) ls ->
  Forall (fun l => forallb (fun c => negb (is_mark c)) (snd l) = true)
         (enumerate_from k ls).
Proof.
  intros k H. revert k.
  induction H as [|l ls Hl _ IH]; intros k; cbn; constructor; [|apply IH].
  cbn. apply plain_line_spec in Hl. tauto.
Qed.

(** X19: plain text passes through [parse] and the renderer.  When every
    line of the file is a line of plain text (it starts with a character
    that is not white space, no rule of [parse] matches it, and it holds no
    sigil, quote or bracket), [parse] returns the root document with one
    paragraph that holds one [Line] of one source line for every line of
    the file, in their order, and [d_as_html(root, 0)] yields [<p>], the
    lines without the white space at their ends, with [<br>] after each but
    the last, and [</p>]. *)
Theorem X19_plain_text dedent file :
  Forall (fun l => plain_line l = true) (splitlines file) ->
  exists srcs,
    Forall2 (fun l src => tokenize (fst l + 1) (snd l) = inr src)
            (enumerate (splitlines file)) srcs /\
    parse file =
      inr (Node (doc 0 [Paragraph (map (fun src => Line [src]) srcs)])) /\
    Html.render dedent
      (Node (doc 0 [Paragraph (map (fun src => Line [src]) srcs)])) =
      inr (str "<p>" :: plain_html (splitlines file) ++ [str "</p>"]).
Proof.
  intros H. destruct (plain_lines_parse file H) as (srcs & H2 & Hp).
  exists srcs. split; [exact H2|]. split; [exact Hp|].
  rewrite (plain_lines_render dedent _ _ H2).
  - unfold enumerate. rewrite map_snd_enumerate_from. reflexivity.
  - apply plain_enumerate, H.
Qed.

Lemma X19_plain_text_witness :
  exists srcs,
    Forall2 (fun l src => tokenize (fst l + 1) (snd l) = inr src)
            (enumerate (splitlines (file_of ["a < b  "; "c d"]))) srcs /\
    parse (file_of ["a < b  "; "c d"]) =
      inr (Node (doc 0 [Paragraph (map (fun src => Line [src]) srcs)])) /\
    Html.render (fun t => t)
      (Node (doc 0 [Paragraph (map (fun src => Line [src]) srcs)])) =
      inr (str "<p>" :: plain_html (splitlines (file_of ["a < b  "; "c d"]))
           ++ [str "</p>"]).
Proof.
  apply (X19_plain_text (fun t => t) (file_of ["a < b  "; "c d"])).
  repeat constructor.
Defined.

(** * Edge cases of the parser *)

(** ** Headings *)

Lemma span_stop p (t : text) c r : drop (span p t) t = c :: r -> p c = false.
Proof.
  induction t as [|x t IH]; cbn; [discriminate|].
  destruct (p x) eqn:E; cbn; [exact IH|]. intros [= <- _]. exact E.
Qed.

(** X10: a heading with a title is its hashes, white space, and the
    title, which starts with a character that is not white space and runs
    to the end of the line; the width [level + pad + 1] of the scope that
    line 209 opens is the column at which the title starts.  A heading
    without a title is its hashes and white space only. *)
Theorem X10_heading_columns t level pad title :
  match_heading t = Some (level, pad, title) ->
  0 < level /\
  forallb (is_char ch_hash) (take level t) = true /\
  match title with
  | Some text =>
      is_blank (take (pad + 1) (drop level t)) = true /\
      drop (level + pad + 1) t = text /\
      starts_nonspace text = true
  | None =>
      is_blank (drop level t) = true /\ length t = level + pad
  end.
Proof.
  unfold match_heading, leading_space.
  remember (span (is_char ch_hash) t) as lv eqn:Elv.
  remember (span is_space (drop lv t)) as m eqn:Em.
  assert (Hh : forallb (is_char ch_hash) (take lv t) = true)
    by (subst lv; apply span_forall).
  assert (Hw : is_blank (take m (drop lv t)) = true)
    by (subst m; apply span_forall).
  assert (Hlv : lv <= length t) by (subst lv; apply span_le).
  assert (Hm : m <= length t - lv).
  { subst m. rewrite <- (length_drop t lv). apply span_le. }
  destruct lv as [|lv']; [discriminate|].
  destruct (drop m (drop (S lv') t)) as [|c r] eqn:Et.
  - intros [= <- <- <-]. split; [lia|]. split; [exact Hh|].
    pose proof (take_drop m (drop (S lv') t)) as Hd.
    rewrite Et, app_nil_r in Hd. rewrite Hd in Hw. split; [exact Hw|].
    apply (f_equal length) in Hd. rewrite length_take, length_drop in Hd. lia.
  - destruct m as [|pad']; [discriminate|].
    intros [= <- <- <-]. split; [lia|]. split; [exact Hh|].
    replace (pad' + 1) with (S pad') by lia. split; [exact Hw|]. split.
    + replace (S lv' + pad' + 1) with (S lv' + S pad') by lia.
      rewrite <- drop_drop. exact Et.
    + cbn. rewrite Em in Et. apply span_stop in Et. rewrite Et. reflexivity.
Qed.

Lemma X10_heading_columns_witness :
  0 < 2 /\
  forallb (is_char ch_hash) (take 2 (str "##  A b ")) = true /\
  is_blank (take (1 + 1) (drop 2 (str "##  A b "))) = true /\
  drop (2 + 1 + 1) (str "##  A b ") = str "A b " /\
  starts_nonspace (str "A b ") = true.
Proof.
  apply (X10_heading_columns (str "##  A b ") 2 1 (Some (str "A b "))).
  reflexivity.
Defined.

(** ** The scopes that a line leaves *)

Lemma pop_one_stack s u s' :
  pop_one s = Ok u s' -> exists previous, stack s = stack s' ++ [previous].
Proof.
  intros E. unfold pop_one in E.
  apply bind_Ok in E as (previous & s1 & [Hprev ->]%stack_pop_Ok & E).
  assert (Hst : stack s' = removelast (stack s)).
  { apply bind_Ok in E as (e & s2 & [_ ->]%Document_empty_Ok & E).
    destruct e; [injection E as _ <-; reflexivity|].
    apply bind_Ok in E as (p & s2 & [_ ->]%Document_paragraph_Ok & E).
    apply bind_Ok in E as (pe & s2 & [_ ->]%Paragraph_empty_Ok & E).
    apply when_Ok in E as [[_ E]|[_ ->]]; [|reflexivity].
    apply bind_Ok in E as (d & s2 & [_ ->]%document_Ok & E).
    apply bind_Ok in E as (x & s2 & (y & _ & _ & ->)%Document_pop_Ok & E).
    apply Document_append_Ok in E as (z & _ & ->). reflexivity. }
  exists previous. rewrite Hst. apply stack_snoc, Hprev.
Qed.

Lemma pop_loop_exit fuel t s u s' :
  pop_loop fuel t s = Ok u s' ->
  (exists popped, stack s = stack s' ++ popped) /\
  (length (stack s') <= 1 \/ t = [] \/
   exists ind, indent_sum (heap s') (stack s') = inr ind /\
               is_blank (take ind t) = true).
Proof.
  revert s. induction fuel as [|fuel IH]; intros s E; cbn [pop_loop] in E;
    [discriminate|].
  apply bind_Ok in E as (st & s1 & [= <- <-] & E).
  destruct (1 <? length (stack s)) eqn:E1; cbn [andb] in E.
  2:{ injection E as _ <-. split; [exists []; rewrite app_nil_r; reflexivity|].
      left. apply Nat.ltb_ge in E1. lia. }
  destruct (0 <? length t) eqn:E2.
  2:{ injection E as _ <-. split; [exists []; rewrite app_nil_r; reflexivity|].
      right. left. apply Nat.ltb_ge in E2. destruct t; [reflexivity|cbn in E2; lia]. }
  apply bind_Ok in E as (ind & s1 & [Hind ->]%total_indent_Ok & E).
  destruct (is_blank (take ind t)) eqn:Eb; cbn [negb] in E.
  { injection E as _ <-. split; [exists []; rewrite app_nil_r; reflexivity|].
    right. right. eauto. }
  apply bind_Ok in E as (u' & s1 & E' & E).
  apply pop_one_stack in E' as [previous Hst].
  apply IH in E as [[popped Hp] Hexit].
  split; [|exact Hexit]. rewrite Hst, Hp, <- app_assoc. eauto.
Qed.

(** X11: the loop of lines 171 to 178 only pops.  The stack after it is
    what the stack before it starts with; and it ends with the root alone,
    or on an empty line, or with open scopes whose total indent the line
    fills with white space. *)
Theorem X11_pop_scopes t s u s' :
  pop_scopes t s = Ok u s' ->
  (exists popped, stack s = stack s' ++ popped) /\
  (length (stack s') <= 1 \/ t = [] \/
   exists ind, indent_sum (heap s') (stack s') = inr ind /\
               is_blank (take ind t) = true).
Proof.
  unfold pop_scopes. intros (st & s1 & [= <- <-] & E)%bind_Ok.
  eapply pop_loop_exit, E.
Qed.

Lemma X11_pop_scopes_witness :
  let s := {| heap := [doc 0 [Paragraph [List_ (str "- ") 1]];
                       doc 2 [Paragraph [Line [source 1 [word "a" NONE]]]]];
              stack := [0; 1]; lineno := 1 |} in
  (exists popped, stack s = stack (with_stack s [0]) ++ popped) /\
  (length (stack (with_stack s [0])) <= 1 \/ str "b" = [] \/
   exists ind, indent_sum (heap (with_stack s [0])) (stack (with_stack s [0]))
               = inr ind /\ is_blank (take ind (str "b")) = true).
Proof.
  intros s. apply (X11_pop_scopes (str "b") s tt). reflexivity.
Defined.

(** ** A code block that is not closed *)

Lemma last_no_cons no t it d : last_no ((no, t) :: it) d = last_no it no.
Proof.
  unfold last_no. destruct it as [|p it]; [reflexivity|].
  change (last ((no, t) :: p :: it)) with (last (p :: it)).
  destruct (last (p :: it)) as [[]|] eqn:E; [reflexivity|].
  apply last_None in E. discriminate.
Qed.

Lemma block_lines_open ind it content s :
  indent_sum (heap s) (stack s) = inr ind ->
  Forall (fun l => is_block_end (drop ind (snd l)) = false) it ->
  block_lines it content s =
    Raise StopIteration (with_lineno s (last_no it (lineno s))).
Proof.
  intros Hn Hit. revert content s Hn.
  induction Hit as [|[no l] it Hl _ IH]; intros content s Hn; cbn [block_lines].
  - destruct s. reflexivity.
  - unfold bind at 1, set_lineno.
    erewrite bind_run by (apply total_indent_Ok; eauto).
    cbn [snd] in Hl. rewrite Hl, IH by exact Hn. rewrite last_no_cons.
    reflexivity.
Qed.

Lemma fence_first t :
  starts_with fence t = true -> exists t', t = ch_tick :: t'.
Proof.
  destruct t as [|c t]; [discriminate|]. intros H.
  change (starts_with fence (c :: t))
    with (is_char ch_tick c && starts_with (str "``") t) in H.
  apply andb_prop in H as [E _]. apply is_char_eq in E as ->. eauto.
Qed.

Lemma fence_not_title t : starts_with fence t = true -> is_title t = false.
Proof. intros [t' ->]%fence_first. reflexivity. Qed.

Lemma fence_not_heading t : starts_with fence t = true -> match_heading t = None.
Proof. intros [t' ->]%fence_first. reflexivity. Qed.

(** X12: a code block that no later line closes.  When the line is a
    fence and none of the lines that the iterator still holds is, without
    the columns of the total indent, a closing fence, the rule reads all
    of them and the line fails with the [StopIteration] of [next]; no
    block is added, and [lineno] is the number of the last line. *)
Theorem X12_block_not_closed ref t it s t1 s1 language ind :
  strip_indent ref t s = Ok t1 s1 ->
  match_block t1 = Some language ->
  indent_sum (heap s1) (stack s1) = inr ind ->
  Forall (fun l => is_block_end (drop ind (snd l)) = false) it ->
  process_line ref t it s =
    Raise StopIteration (with_lineno s1 (last_no it (lineno s1))).
Proof.
  intros E Hm Hn Hit. unfold process_line. erewrite bind_run by exact E.
  assert (Hf : starts_with fence t1 = true).
  { unfold match_block in Hm. destruct (starts_with fence t1); [reflexivity|discriminate]. }
  rewrite (fence_not_title _ Hf), (fence_not_heading _ Hf), Hm.
  unfold read_block. apply bind_raise. apply (block_lines_open ind); assumption.
Qed.

Lemma X12_block_not_closed_witness :
  process_line 1 (str "```py") [(1, str "x = 1"); (2, str "``")] initial =
    Raise StopIteration (with_lineno initial 2).
Proof.
  apply (X12_block_not_closed 1 (str "```py") [(1, str "x = 1"); (2, str "``")]
           initial (str "```py") initial (Some (str "py")) 0);
    try reflexivity.
  repeat constructor.
Defined.

(** ** A continued line without a line *)

Lemma space_not_aside c t : is_space c = true -> match_aside (c :: t) = None.
Proof.
  intros Hc. destruct (space_chars c Hc) as (_ & Hh & _ & Hg & _).
  unfold match_aside. rewrite Hg. destruct t as [|c' t]; [reflexivity|].
  destruct (is_char ch_gt c'); [|reflexivity].
  destruct (is_char ch_under c) eqn:Eu.
  - apply is_char_eq in Eu as ->. discriminate.
  - rewrite Hh. reflexivity.
Qed.

Lemma space_first_rules c t :
  is_space c = true ->
  is_title (c :: t) = false /\ match_heading (c :: t) = None /\
  match_block (c :: t) = None.
Proof.
  intros Hc. destruct (space_chars c Hc) as (Hd & Hh & Ht & _).
  split; [|split].
  - unfold is_title.
    change (starts_with (str "---") (c :: t))
      with (is_char ch_dash c && starts_with (str "--") t).
    rewrite Hd. reflexivity.
  - unfold match_heading.
    change (span (is_char ch_hash) (c :: t))
      with (if is_char ch_hash c then S (span (is_char ch_hash) t) else 0).
    rewrite Hh. reflexivity.
  - unfold match_block.
    change (starts_with fence (c :: t))
      with (is_char ch_tick c && starts_with (str "``") t).
    rewrite Ht. reflexivity.
Qed.

Lemma inline_continued ref c r s :
  is_space c = true -> is_blank r = false -> match_list (c :: r) = None ->
  inline_rules ref (c :: r) s =
    (t <- open_line ref (c :: r) ;; append_words ref t) s.
Proof.
  intros Hc Hr Hlist. unfold inline_rules, open_aside, open_list.
  rewrite (space_not_aside c r Hc). unfold bind at 1, ret.
  rewrite Hlist. unfold bind at 1, ret.
  change (is_blank (c :: r)) with (is_space c && is_blank r).
  rewrite Hc, Hr. reflexivity.
Qed.

(** X13: a continued line needs a line.  When the current document is not
    empty and its paragraph is, a line that fills the total indent with
    white space and goes on with white space and then text, and is no list
    item, fails with [Invalid indentation]; the documents and the stack
    are as before. *)
Theorem X13_invalid_indentation ref t it s d x n c r :
  stack s <> [] -> last (stack s) = Some d -> heap s !! d = Some x ->
  all_empty (content x) = inr false ->
  last (content x) = Some (Paragraph []) ->
  indent_sum (heap s) (stack s) = inr n ->
  is_blank (take n t) = true ->
  drop n t = c :: r -> is_space c = true -> is_blank r = false ->
  match_list (drop n t) = None ->
  process_line ref t it s = Raise (ValueError indentation_msg ref) s.
Proof.
  intros Hne Hd Hx He Hl Hn Hb Ht Hc Hr Hlist. unfold process_line.
  erewrite bind_run by (eapply strip_indent_kept; eauto).
  rewrite Ht in *. destruct (space_first_rules c r Hc) as (-> & -> & ->).
  apply bind_raise. rewrite inline_continued by assumption.
  apply bind_raise. unfold open_line.
  erewrite bind_run by (apply document_Ok; eauto).
  erewrite bind_run
    by (apply Document_paragraph_Ok; eauto using paragraph_in_here).
  cbn [starts_nonspace]. rewrite Hc. cbn [negb].
  erewrite (bind_run _ _ _ true) by (apply Paragraph_empty_Ok; eauto 6).
  reflexivity.
Qed.

Lemma X13_invalid_indentation_witness :
  let s := {| heap := [doc 0 [Paragraph [Line [source 1 [word "x" NONE]]];
                              Paragraph []]];
              stack := [0]; lineno := 2 |} in
  process_line 3 (str " y") [] s = Raise (ValueError indentation_msg 3) s.
Proof.
  intros s.
  apply (X13_invalid_indentation 3 (str " y") [] s 0
           (doc 0 [Paragraph [Line [source 1 [word "x" NONE]]]; Paragraph []])
           0 " "%char (str "y")); try reflexivity.
  discriminate.
Defined.

(** ** Empty lines *)

Lemma process_empty_root ref it no :
  process_line ref [] it (with_lineno initial no) = Ok it (with_lineno initial no).
Proof. reflexivity. Qed.

Lemma for_lines_empty fuel lines : forall it no,
  Forall (fun l => snd l = []) it -> length it <= fuel ->
  exists no', for_lines fuel lines it (with_lineno initial no) =
              Ok tt (with_lineno initial no').
Proof.
  induction fuel as [|fuel IH]; intros [|[n t] it] no Hit Hf; cbn [for_lines];
    try (eexists; reflexivity); [cbn in Hf; lia|].
  apply Forall_cons in Hit as [Ht Hit]. cbn in Ht. subst t.
  unfold bind at 1, set_lineno. unfold bind at 1, try.
  change (with_lineno (with_lineno initial no) n) with (with_lineno initial n).
  rewrite process_empty_root. apply IH; [exact Hit|cbn in Hf; lia].
Qed.

Lemma empty_lines_parse file :
  Forall (fun l => l = []) (splitlines file) ->
  parse file = inr (Node (new_document 0)).
Proof.
  intros H. unfold parse, parse_lines.
  destruct (for_lines_empty (length (splitlines file)) (splitlines file)
              (enumerate (splitlines file)) 0) as [no' E].
  - unfold enumerate. generalize 0.
    induction H as [|l ls Hl _ IH]; intros k; cbn; constructor; auto.
  - unfold enumerate. rewrite enumerate_from_length. lia.
  - change initial with (with_lineno initial 0) at 1.
    erewrite bind_run by exact E. reflexivity.
Qed.

(** X14: a file without text.  When every line of the file is empty, among
    them the file without lines, [parse] returns the document with which it
    starts: the indent 0, no title and one empty paragraph. *)
Theorem X14_empty_lines file :
  Forall (fun l => l = []) (splitlines file) ->
  parse file = inr (Node (new_document 0)).
Proof. apply empty_lines_parse. Qed.

Lemma X14_empty_lines_witness :
  parse (file_of [""; ""; ""]) = inr (Node (new_document 0)).
Proof. apply X14_empty_lines. repeat constructor. Defined.

(** ** The documents form a forest *)

(** X15: while [parse] runs, every document that a section, an aside or a
    list item refers to was created after the document that holds the
    node, and the stack holds the open documents in the order of their
    creation; so no document is reached from itself, the properties
    [paragraph] and [line] resolve within the bound of the embedding, and
    [parse] returns the document that it created first, as a finite tree,
    or raises an exception of Python. *)
Theorem X15_forest file :
  parse file <> inl Stuck /\
  forall root s,
    parse_lines (splitlines file) initial = Ok root s -> root = 0 /\ wf s.
Proof.
  split; [apply parse_not_stuck|]. intros root s E.
  apply parse_lines_shaped in E as (-> & _ & Hw). auto.
Qed.

Lemma X15_forest_witness :
  let s := {| heap := [doc 0 [Paragraph [List_ (str "- ") 1]];
                       doc 2 [Paragraph [Line [source 1 [word "a" NONE]]]]];
              stack := [0; 1]; lineno := 0 |} in
  0 = 0 /\ wf s.
Proof.
  intros s. apply (proj2 (X15_forest (file_of ["- a"])) 0 s). reflexivity.
Defined.

(** ** A heading on the first line *)

Lemma match_heading_first t level pad title :
  match_heading t = Some (level, pad, title) ->
  leading_space t = 0 /\ is_title t = false.
Proof.
  unfold match_heading. destruct t as [|c t]; [discriminate|].
  unfold leading_space at 2. cbn [span].
  destruct (is_char ch_hash c) eqn:Ec; [|discriminate]. intros _.
  apply is_char_eq in Ec. subst c. split; reflexivity.
Qed.

Lemma process_heading_first ref h it no level pad title :
  match_heading h = Some (level, pad, title) ->
  process_line ref h it (with_lineno initial no) =
    Ok it (headed_state level pad title no).
Proof.
  intros Hh. destruct (match_heading_first _ _ _ _ Hh) as [Hl Ht].
  assert (Hs : strip_indent ref h (with_lineno initial no) =
               Ok h (with_lineno initial no)).
  { unfold strip_indent, claim_space. cbn.
    unfold leading_space in Hl. rewrite drop_0, Hl. reflexivity. }
  unfold process_line. rewrite (bind_run _ _ _ _ _ Hs), Ht, Hh.
  reflexivity.
Qed.

Lemma process_after_heading ref l it no level pad title :
  is_blank (take (level + pad + 1) l) = false ->
  process_line ref l it (headed_state level pad title no) =
    Raise AttributeError
      (with_stack (headed_state level pad title no) [0]).
Proof.
  intros Hb. unfold process_line. apply bind_raise.
  unfold strip_indent. 
  assert (Hp : pop_scopes l (headed_state level pad title no) =
               Ok tt (with_stack (headed_state level pad title no) [0])).
  { assert (Hi : total_indent (headed_state level pad title no) =
                 Ok (level + pad + 1) (headed_state level pad title no)).
    { unfold total_indent. cbn. rewrite Nat.add_0_r. reflexivity. }
    unfold pop_scopes. cbn.
    destruct l as [|c l]; [rewrite take_nil in Hb; discriminate|].
    cbn [length]. rewrite (bind_run _ _ _ _ _ Hi), Hb. reflexivity. }
  rewrite (bind_run _ _ _ _ _ Hp). reflexivity.
Qed.

Lemma heading_first_parse file h l rest level pad title :
  splitlines file = h :: l :: rest ->
  match_heading h = Some (level, pad, title) ->
  is_blank (take (level + pad + 1) l) = false ->
  parse file = inl AttributeError.
Proof.
  intros Hf Hh Hb. unfold parse, parse_lines. rewrite Hf.
  cbn [length enumerate enumerate_from for_lines].
  assert (E : for_lines (S (S (length rest))) (h :: l :: rest)
                ((0, h) :: (1, l) :: enumerate_from 2 rest) initial =
              Raise AttributeError
                (with_stack (headed_state level pad title 1) [0])).
  { cbn [for_lines]. unfold bind at 1, set_lineno. unfold bind at 1, try.
    rewrite (process_heading_first _ _ _ _ _ _ _ Hh).
    unfold bind at 1. unfold bind at 1.
    change (with_lineno (headed_state level pad title 0) 1)
      with (headed_state level pad title 1).
    rewrite (process_after_heading _ _ _ _ _ _ _ Hb).
    unfold handler. cbn.
    destruct l as [|c l]; [rewrite take_nil in Hb; discriminate|]. reflexivity. }
  rewrite (bind_raise _ _ _ _ _ E). reflexivity.
Qed.

(** X21: a heading on the first line closes the root document for text.
    The heading removes the empty paragraph of the root document, which
    then holds the section alone; the first line after it whose first
    [level + pad + 1] characters are not all white space, when it is the
    second line of the file, leaves the section, and the emptiness test of
    line 184 asks the section for [empty], which it has not: [parse] raises
    [AttributeError], whatever the lines that follow. *)
Theorem X21_heading_first file h l rest level pad title :
  splitlines file = h :: l :: rest ->
  match_heading h = Some (level, pad, title) ->
  is_blank (take (level + pad + 1) l) = false ->
  parse file = inl AttributeError.
Proof. apply heading_first_parse. Qed.

Lemma X21_heading_first_witness :
  parse (file_of ["## Title"; "Body text."; "more"]) = inl AttributeError.
Proof.
  apply (X21_heading_first _ (str "## Title") (str "Body text.") [str "more"]
           2 0 (Some (str "Title"))); reflexivity.
Defined.
